(** * SVFinder: candidate discovery on one edge of the SV locus graph

    A shallow embedding of [SVFinder.cpp] (manta): the evidence collector
    ([addSVNodeRead], [addSVNodeData]), the observation assigner
    ([assignPairObservationsToSVCandidates], [getCandidatesFromData]), the
    overlap consolidator ([svCandDeleter], [consolidateOverlap]), the edge
    orchestrator ([findCandidateSV]) and the result validator
    ([checkResult]).

    All these C++ functions return [void] and work on objects passed by
    reference, so each one is a state transformer; an exception or a failed
    [assert] leaves the objects as they were when it was raised.  Sizes and
    indices are [unsigned] in the source and [nat] here: they are bounded by
    the length of a vector, taken to fit in an [unsigned].  The counts that
    [checkResult] adds up are [unsigned] too, and there the sums are taken
    modulo 2^32 as the source computes them.  The [assert]s
    that guard the subtractions of the source are modelled as checks, and
    are shown never to fail. *)

From Stdlib Require Import ZArith Lia.
From stdpp Require Import gmap list sorting.

Local Open Scope nat_scope.

(** ** Outcomes of a [void] function working on referenced state *)

Inductive Failure : Type :=
| LogicException     (* BOOST_THROW_EXCEPTION(LogicException(...)) *)
| AssertionFailure   (* assert(...) *)
| OutOfRange.        (* operator[] past the end of a vector *)

Inductive Outcome (St : Type) : Type :=
| Done (s : St)
| Thrown (f : Failure) (s : St).
Arguments Done {St} s.
Arguments Thrown {St} f s.

Definition andThen {St : Type} (o : Outcome St) (k : St -> Outcome St) : Outcome St :=
  match o with
  | Done s => k s
  | Thrown f s => Thrown f s
  end.

Notation "o >>> k" := (andThen o k) (at level 61, left associativity).

(** Run a function on a part of the state and put the part back, also when
    the function threw. *)
Definition zoom {St T : Type} (put : T -> St) (o : Outcome T) : Outcome St :=
  match o with
  | Done t => Done (put t)
  | Thrown f t => Thrown f (put t)
  end.

Definition assert {St : Type} (b : bool) (s : St) : Outcome St :=
  if b then Done s else Thrown AssertionFailure s.

Definition stateOf {St : Type} (o : Outcome St) : St :=
  match o with
  | Done s => s
  | Thrown _ s => s
  end.

(** [for (unsigned i(from); i<from+count; ++i) body] *)
Fixpoint for_range {St : Type} (from count : nat)
    (body : nat -> St -> Outcome St) (s : St) : Outcome St :=
  match count with
  | 0 => Done s
  | S count' => body from s >>> for_range (S from) count' body
  end.

(** [BOOST_FOREACH(T& x, xs) body], the element being a reference into the
    container: the body sees the element and the rest of the state, and
    both are written back. *)
Fixpoint foreach_ref {A St : Type} (body : A -> St -> Outcome (A * St))
    (xs : list A) (s : St) : Outcome (list A * St) :=
  match xs with
  | [] => Done ([], s)
  | x :: xs' =>
      match body x s with
      | Done (x', s') =>
          zoom (fun r : list A * St => (x' :: r.1, r.2)) (foreach_ref body xs' s')
      | Thrown f (x', s') => Thrown f (x' :: xs', s')
      end
  end.

(** [BOOST_FOREACH(const T& x, xs) body] *)
Fixpoint foreach {A St : Type} (body : A -> St -> Outcome St)
    (xs : list A) (s : St) : Outcome St :=
  match xs with
  | [] => Done s
  | x :: xs' => body x s >>> foreach body xs'
  end.

(** ** Genome intervals *)

(** Modelled from the spec: [known_pos_range2] and [GenomeInterval] are
    declared in headers that are not part of the sources.  A genome interval
    is a chromosome id and a half-open position range, with an intersection
    test and a range merge that is the union of the two ranges. *)
Record known_pos_range2 : Type := mkRange {
  begin_pos : Z;
  end_pos : Z
}.

Record GenomeInterval : Type := mkInterval {
  tid : Z;
  range : known_pos_range2
}.

(** Modelled from the spec: the intersection test of two half-open
    ranges. *)
Definition is_range_intersect (r1 r2 : known_pos_range2) : bool :=
  (begin_pos r1 <? end_pos r2)%Z && (begin_pos r2 <? end_pos r1)%Z.

(** Modelled from the spec: the range merge, the union of the two
    ranges. *)
Definition merge_range (r1 r2 : known_pos_range2) : known_pos_range2 :=
  mkRange (Z.min (begin_pos r1) (begin_pos r2)) (Z.max (end_pos r1) (end_pos r2)).

(** Modelled from the spec: two genome intervals intersect when they are
    on the same chromosome and their ranges intersect. *)
Definition GenomeInterval_isIntersect (g1 g2 : GenomeInterval) : bool :=
  (tid g1 =? tid g2)%Z && is_range_intersect (range g1) (range g2).

(** ** Candidates, observations and the evidence set *)

(** The values of [SVEvidenceType::index_t] and of [SVBreakendState]; the
    enumerations are declared in absent headers and are kept as numbers. *)
Definition index_t : Type := nat.

(** Modelled from the spec: [SVBreakend] is declared in an absent header.
    The fields are the ones the source touches: [state], [interval], and the
    evidence counts read back by [getPairCount] and [getLocalPairCount]. *)
Record SVBreakend : Type := mkBreakend {
  state : nat;
  interval : GenomeInterval;
  pairCount : nat;
  localPairCount : nat
}.

Record SVCandidate : Type := mkCandidate {
  bp1 : SVBreakend;
  bp2 : SVBreakend;
  candidateIndex : nat
}.

Definition set_candidateIndex (i : nat) (sv : SVCandidate) : SVCandidate :=
  mkCandidate (bp1 sv) (bp2 sv) i.

(** An [SVObservation] is an [SVCandidate] with an evidence type: the
    source passes it where a [const SVCandidate&] is expected and pushes it
    onto a [std::vector<SVCandidate>]. *)
Record SVObservation : Type := mkObservation {
  obsCandidate : SVCandidate;
  obs_evtype : index_t
}.

Record SVPairAssociation : Type := mkAssociation {
  index : nat;
  evtype : index_t
}.

(** Modelled from the spec: [SVLocus], [SVLocusNode] and [EdgeInfo] are
    declared in absent headers.  A node has a breakend interval, an
    evidence-extent range and an out-count flag; a locus is the sequence of
    its nodes; an edge names a locus and two of its nodes. *)
Record SVLocusNode : Type := mkNode {
  getInterval : GenomeInterval;
  getEvidenceRange : known_pos_range2;
  isOutCount : bool
}.

Definition SVLocus : Type := list SVLocusNode.

Record EdgeInfo : Type := mkEdge {
  locusIndex : nat;
  nodeIndex1 : nat;
  nodeIndex2 : nat
}.

(** [bam_record], the chromosome map and the search-interval memory of the
    evidence set are opaque to this file. *)
Class Opaque : Type := {
  bam_record : Type;
  chrom_map : Type;
  search_t : Type
}.

(** [read1], [read2]: an [SVCandidateSetRead] is set or not; when set it
    holds the record. *)
Record SVCandidateSetReadPair `{Opaque} : Type := mkPair {
  svLink : list SVPairAssociation;
  read1 : option bam_record;
  read2 : option bam_record
}.

Record SVCandidateSetReadPairSampleGroup `{Opaque} : Type := mkGroup {
  pairs : list SVCandidateSetReadPair;
  isIncomplete : bool;
  isSkipped : bool
}.

(** Modelled from the spec: [SVCandidateSetData] is declared in an absent
    header.  It is the set of the per-sample groups of one edge evaluation,
    keyed by the sample (bam) index, together with what it remembers of the
    search intervals seen so far; [getDataGroup] on a non-const set creates
    the group on first use, [clear] resets the set, [setSkipped] marks all
    evidence groups skipped. *)
Record SVCandidateSetData `{Opaque} : Type := mkData {
  groups : gmap nat SVCandidateSetReadPairSampleGroup;
  searchIntervals : search_t
}.

Arguments mkPair {_} svLink read1 read2.
Arguments mkGroup {_} pairs isIncomplete isSkipped.
Arguments mkData {_} groups searchIntervals.

(** A [bam_streamer] positioned on a region: the records it has yet to
    serve. *)
Definition bam_streamer `{Opaque} : Type := list bam_record.

(** The functions of the collaborators: they are declared in headers that
    are not part of the sources and their bodies are not looked into. *)
Class Collaborators `{Opaque} : Type := {
  (* SVCandidate, SVCandidateUtil, SVEvidenceType *)
  isIntersect : SVCandidate -> SVCandidate -> bool;
  merge : SVCandidate -> SVCandidate -> SVCandidate;
  isSpanningSV : SVCandidate -> bool;
  isPairType : index_t -> bool;
  (* SVLocusScanner *)
  isReadFiltered : bam_record -> bool;
  isProperPair : bam_record -> nat -> bool;
  isLargeFragment : bam_record -> nat -> bool;
  isLocalAssemblyEvidence : bam_record -> bool;
  getSVLoci : bam_record -> nat -> chrom_map -> list SVLocus -> list SVLocus;
  getBreakendPair : bam_record -> option bam_record -> nat -> chrom_map ->
                    list SVObservation -> list SVObservation;
  (* SVCandidateSetData and its groups *)
  group_add : bam_record -> bool -> SVCandidateSetReadPairSampleGroup ->
              Outcome SVCandidateSetReadPairSampleGroup;
  setNewSearchInterval : GenomeInterval -> search_t -> bool * search_t;
  search_clear : search_t;
  (* SVLocusSet *)
  getMinMergeEdgeCount : nat;
  getLocus : nat -> SVLocus;
  getEdgeCount : SVLocus -> nat -> nat -> nat;
  (* bam_streamer::set_new_region on the stream of a sample *)
  set_new_region : nat -> Z -> Z -> Z -> bam_streamer
}.

Section Model.

Context `{Collaborators}.

(** Modelled from the spec: the operations of the groups and of the
    evidence set that the source calls ([size], [setIncomplete],
    [getDataGroup], [setSkipped], [clear]); a group is an ordered collection
    of read pairs with an incomplete flag and a skipped flag. *)
Definition group_size (g : SVCandidateSetReadPairSampleGroup) : nat :=
  length (pairs g).

Definition setIncomplete (g : SVCandidateSetReadPairSampleGroup) :
    SVCandidateSetReadPairSampleGroup :=
  mkGroup (pairs g) true (isSkipped g).

Definition newGroup : SVCandidateSetReadPairSampleGroup := mkGroup [] false false.

Definition getDataGroup (svData : SVCandidateSetData) (bamIndex : nat) :
    SVCandidateSetReadPairSampleGroup :=
  default newGroup (groups svData !! bamIndex).

Definition putDataGroup (bamIndex : nat) (g : SVCandidateSetReadPairSampleGroup)
    (svData : SVCandidateSetData) : SVCandidateSetData :=
  mkData (<[bamIndex := g]> (groups svData)) (searchIntervals svData).

Definition setSkipped (svData : SVCandidateSetData) : SVCandidateSetData :=
  mkData ((fun g => mkGroup (pairs g) (isIncomplete g) true) <$> groups svData)
         (searchIntervals svData).

Definition clear : SVCandidateSetData := mkData ∅ search_clear.

(** ** The overlap consolidator *)

(** The locals of [consolidateOverlap] that its loops update. *)
Record ScanState : Type := mkScan {
  sc_svs : list SVCandidate;
  moveSVIndex : gmap nat nat;
  deletedSVIndex : gset nat;
  innerIndexShift : list nat
}.

(** [std::set::count] *)
Definition set_count (x : nat) (s : gset nat) : nat :=
  if decide (x ∈ s) then 1 else 0.

(** The inner loop, [innerIndex] running up to [outerIndex]; [n] is the
    number of iterations left. *)
Fixpoint innerLoop (n innerIndex outerIndex : nat) (st : ScanState) : Outcome ScanState :=
  match n with
  | 0 => Done st
  | S n' =>
      if decide (innerIndex ∈ deletedSVIndex st)
      then innerLoop n' (S innerIndex) outerIndex st
      else
        match sc_svs st !! innerIndex, sc_svs st !! outerIndex with
        | Some inner, Some outer =>
            if isIntersect inner outer then
              let st1 := mkScan (<[innerIndex := merge inner outer]> (sc_svs st))
                                (moveSVIndex st) (deletedSVIndex st) (innerIndexShift st) in
              assert (bool_decide (innerIndex < length (innerIndexShift st1))) st1 >>> fun st1 =>
              match innerIndexShift st1 !! innerIndex with
              | Some shift =>
                  assert (bool_decide (shift <= innerIndex)) st1 >>> fun st1 =>
                  Done (mkScan (sc_svs st1)
                               (<[outerIndex := innerIndex - shift]> (moveSVIndex st1))
                               ({[outerIndex]} ∪ deletedSVIndex st1)
                               (innerIndexShift st1))
              | None => Thrown OutOfRange st1
              end
            else innerLoop n' (S innerIndex) outerIndex st
        | _, _ => Thrown OutOfRange st
        end
  end.

Definition outerBody (outerIndex : nat) (st : ScanState) : Outcome ScanState :=
  match (if bool_decide (outerIndex <= 1) then Some 0
         else innerIndexShift st !! (outerIndex - 2)) with
  | Some prevInnerIndexShift =>
      let st1 := mkScan (sc_svs st) (moveSVIndex st) (deletedSVIndex st)
                   (innerIndexShift st ++
                      [prevInnerIndexShift + set_count (outerIndex - 1) (deletedSVIndex st)]) in
      innerLoop outerIndex 0 outerIndex st1
  | None => Thrown OutOfRange st
  end.

(** The first loop nest of [consolidateOverlap]. *)
Definition scanOverlap (svs : list SVCandidate) : Outcome ScanState :=
  for_range 1 (length svs - 1) outerBody (mkScan svs ∅ ∅ []).

(** [struct svCandDeleter]; [_svs] and [_moveSVIndex] are references to the
    caller's vector and map. *)
Record svCandDeleter : Type := mkDeleter {
  _shift : nat;
  _isLastIndex : bool;
  _lastIndex : nat;
  _svs : list SVCandidate;
  _moveSVIndex : gmap nat nat
}.

Definition deleteIndex_body (i : nat) (d : svCandDeleter) : Outcome svCandDeleter :=
  assert (bool_decide (0 < _shift d)) d >>> fun d =>
  assert (bool_decide (_shift d <= i)) d >>> fun d =>
  match _svs d !! i with
  | Some sv =>
      if bool_decide (i - _shift d < length (_svs d)) then
        Done (mkDeleter (_shift d) (_isLastIndex d) (_lastIndex d)
                (<[i - _shift d := sv]> (_svs d))
                (<[i := i - _shift d]> (_moveSVIndex d)))
      else Thrown OutOfRange d
  | None => Thrown OutOfRange d
  end.

Definition deleteIndex (index : nat) (d : svCandDeleter) : Outcome svCandDeleter :=
  assert (bool_decide (index <= length (_svs d))) d >>> fun d =>
  (if _isLastIndex d
   then for_range (_lastIndex d + 1) (index - (_lastIndex d + 1)) deleteIndex_body d
   else Done d) >>> fun d =>
  Done (mkDeleter (_shift d + 1) true index (_svs d) (_moveSVIndex d)).

(** Iteration over a [std::set<unsigned>] goes in increasing order. *)
Definition set_in_order (s : gset nat) : list nat := merge_sort le (elements s).

(** The candidate list and the move map after the first [if] block of
    [consolidateOverlap]: deletion of the merged candidates, resize,
    renumbering. *)
Definition compactCandidates (svCount : nat) (st : ScanState) : Outcome ScanState :=
  if decide (deletedSVIndex st = ∅) then Done st
  else
    match
      foreach deleteIndex (set_in_order (deletedSVIndex st) ++ [svCount])
        (mkDeleter 0 false 0 (sc_svs st) (moveSVIndex st))
    with
    | Done d =>
        let svs1 := take (length (_svs d) - size (deletedSVIndex st)) (_svs d) in
        Done (mkScan (imap set_candidateIndex svs1) (_moveSVIndex d)
                (deletedSVIndex st) (innerIndexShift st))
    | Thrown f d =>
        Thrown f (mkScan (_svs d) (_moveSVIndex d) (deletedSVIndex st) (innerIndexShift st))
    end.

(** [sva.index = moveSVIndex[sva.index]] when the index is in the map. *)
Definition relink (move : gmap nat nat) (sva : SVPairAssociation) : SVPairAssociation :=
  match move !! index sva with
  | Some j => mkAssociation j (evtype sva)
  | None => sva
  end.

Definition relinkPair (move : gmap nat nat) (readPair : SVCandidateSetReadPair) :
    SVCandidateSetReadPair :=
  mkPair (relink move <$> svLink readPair) (read1 readPair) (read2 readPair).

Definition relinkGroup (move : gmap nat nat) (g : SVCandidateSetReadPairSampleGroup) :
    SVCandidateSetReadPairSampleGroup :=
  mkGroup (relinkPair move <$> pairs g) (isIncomplete g) (isSkipped g).

Definition relinkData (bamCount : nat) (move : gmap nat nat)
    (svData : SVCandidateSetData) : Outcome SVCandidateSetData :=
  if decide (move = ∅) then Done svData
  else
    for_range 0 bamCount
      (fun bamIndex svData =>
         Done (putDataGroup bamIndex (relinkGroup move (getDataGroup svData bamIndex)) svData))
      svData.

Definition consolidateOverlap (bamCount : nat)
    (s : SVCandidateSetData * list SVCandidate) :
    Outcome (SVCandidateSetData * list SVCandidate) :=
  let '(svData, svs) := s in
  match scanOverlap svs >>> compactCandidates (length svs) with
  | Done st => zoom (fun svData' => (svData', sc_svs st)) (relinkData bamCount (moveSVIndex st) svData)
  | Thrown f st => Thrown f (svData, sc_svs st)
  end.

(** ** The observation assigner *)

Definition isExcludeUnpaired : bool := true.

Definition push_link (svIndex : nat) (readCand : SVObservation)
    (readPair : SVCandidateSetReadPair) : SVCandidateSetReadPair :=
  mkPair (svLink readPair ++ [mkAssociation svIndex (obs_evtype readCand)])
         (read1 readPair) (read2 readPair).

(** The loop over [svs] of [assignPairObservationsToSVCandidates], from
    position [svIndex] on; [None] when the loop ends with [isMatched] still
    false. *)
Fixpoint matchCandidate (readCand : SVObservation) (isSpanning : bool) (svIndex : nat)
    (svs : list SVCandidate) (readPair : SVCandidateSetReadPair) :
    option (SVCandidateSetReadPair * list SVCandidate) :=
  match svs with
  | [] => None
  | sv :: svs' =>
      if isIntersect sv (obsCandidate readCand) then
        Some (if isSpanning then push_link svIndex readCand readPair else readPair,
              merge sv (obsCandidate readCand) :: svs')
      else
        match matchCandidate readCand isSpanning (S svIndex) svs' readPair with
        | Some (readPair', svs'') => Some (readPair', sv :: svs'')
        | None => None
        end
  end.

(** The body of the loop over [readCandidates]. *)
Definition assignObservation (isExcludePairType : bool) (readCand : SVObservation)
    (s : SVCandidateSetReadPair * list SVCandidate) :
    SVCandidateSetReadPair * list SVCandidate :=
  let '(readPair, svs) := s in
  if isExcludePairType && isPairType (obs_evtype readCand) then (readPair, svs)
  else
    let isSpanning := isSpanningSV (obsCandidate readCand) in
    match matchCandidate readCand isSpanning 0 svs readPair with
    | Some s' => s'
    | None =>
        let newSVIndex := length svs in
        (if isSpanning then push_link newSVIndex readCand readPair else readPair,
         svs ++ [set_candidateIndex newSVIndex (obsCandidate readCand)])
    end.

Definition assignPairObservationsToSVCandidates (isExcludePairType : bool)
    (readCandidates : list SVObservation)
    (s : SVCandidateSetReadPair * list SVCandidate) :
    SVCandidateSetReadPair * list SVCandidate :=
  foldl (fun s readCand => assignObservation isExcludePairType readCand s) s readCandidates.

(** The body of the loop over the pairs of one group in
    [getCandidatesFromData]; the state besides the pair is the local
    [readCandidates] and the candidate list. *)
Definition candidatesFromPair (chromToIndex : chrom_map) (bamIndex : nat)
    (readPair : SVCandidateSetReadPair) (s : list SVObservation * list SVCandidate) :
    Outcome (SVCandidateSetReadPair * (list SVObservation * list SVCandidate)) :=
  let '(readCandidates, svs) := s in
  let readPair := mkPair [] (read1 readPair) (read2 readPair) in
  let '(localRead, remoteRead) :=
    if negb (bool_decide (is_Some (read1 readPair)))
    then (read2 readPair, read1 readPair) else (read1 readPair, read2 readPair) in
  match localRead with
  | None => Thrown AssertionFailure (readPair, (readCandidates, svs))
  | Some localBamrec =>
      let readCandidates :=
        getBreakendPair localBamrec remoteRead bamIndex chromToIndex readCandidates in
      let isExcludePairType :=
        isExcludeUnpaired && negb (bool_decide (is_Some remoteRead)) in
      let '(readPair, svs) :=
        assignPairObservationsToSVCandidates isExcludePairType readCandidates (readPair, svs) in
      Done (readPair, (readCandidates, svs))
  end.

(** The state of one edge evaluation: the two objects [findCandidateSV]
    gets by reference and the streams of the finder. *)
Record EdgeState : Type := mkEdgeState {
  svData : SVCandidateSetData;
  svs : list SVCandidate;
  _bamStreams : list bam_streamer
}.

(** The loop over the samples of [getCandidatesFromData]. *)
Definition candidatesFromGroup (chromToIndex : chrom_map) (bamIndex : nat)
    (s : SVCandidateSetData * (list SVObservation * list SVCandidate)) :
    Outcome (SVCandidateSetData * (list SVObservation * list SVCandidate)) :=
  let svDataGroup := getDataGroup s.1 bamIndex in
  zoom (fun r : list SVCandidateSetReadPair * (list SVObservation * list SVCandidate) =>
          (putDataGroup bamIndex
             (mkGroup r.1 (isIncomplete svDataGroup) (isSkipped svDataGroup)) s.1,
           r.2))
       (foreach_ref (candidatesFromPair chromToIndex bamIndex) (pairs svDataGroup) s.2).

Definition assignAll (chromToIndex : chrom_map) (bamCount : nat)
    (s : SVCandidateSetData * list SVCandidate) :
    Outcome (SVCandidateSetData * list SVCandidate) :=
  zoom (fun r : SVCandidateSetData * (list SVObservation * list SVCandidate) =>
          (r.1, r.2.2))
       (for_range 0 bamCount (candidatesFromGroup chromToIndex) (s.1, ([], s.2))).

Definition getCandidatesFromData (chromToIndex : chrom_map) (s : EdgeState) :
    Outcome EdgeState :=
  let bamCount := length (_bamStreams s) in
  zoom (fun r : SVCandidateSetData * list SVCandidate =>
          mkEdgeState r.1 r.2 (_bamStreams s))
       (assignAll chromToIndex bamCount (svData s, svs s) >>> consolidateOverlap bamCount).

(** ** The evidence collector *)

Definition maxDataSize : nat := 4000.

(** What the two-sided part of the loop body decides for one locus: the
    exception, [continue], or going on with the local side at
    [readLocalIndex]. *)
Inductive LocusStep : Type :=
| Fault
| Continue
| Local (readLocalIndex : nat).

(** The loop body of [addSVNodeRead] down to the end of the
    [if (locusSize == 2)] block; [None] is a [getNode] out of range. *)
Definition orientLocus (remoteNode : SVLocusNode) (locus : SVLocus) : option LocusStep :=
  let readLocalIndex := 0 in
  if bool_decide (length locus = 2) then
    let readRemoteIndex := 1 in
    node ← locus !! readLocalIndex;
    let '(readLocalIndex, readRemoteIndex) :=
      if negb (isOutCount node)
      then (readRemoteIndex, readLocalIndex) else (readLocalIndex, readRemoteIndex) in
    localSide ← locus !! readLocalIndex;
    if negb (isOutCount localSide) then Some Fault
    else
      remoteSide ← locus !! readRemoteIndex;
      if negb (GenomeInterval_isIntersect (getInterval remoteSide) (getInterval remoteNode))
      then Some Continue
      else Some (Local readLocalIndex)
  else Some (Local readLocalIndex).

(** The loop over the loci of one read in [addSVNodeRead]. *)
Fixpoint scanLoci (localNode remoteNode : SVLocusNode) (bamRead : bam_record)
    (isExpectRepeat : bool) (loci : list SVLocus)
    (svDataGroup : SVCandidateSetReadPairSampleGroup) :
    Outcome SVCandidateSetReadPairSampleGroup :=
  match loci with
  | [] => Done svDataGroup
  | locus :: loci' =>
      let locusSize := length locus in
      if negb (bool_decide (1 <= locusSize) && bool_decide (locusSize <= 2))
      then Thrown AssertionFailure svDataGroup
      else
        match orientLocus remoteNode locus with
        | None => Thrown OutOfRange svDataGroup
        | Some Fault => Thrown LogicException svDataGroup
        | Some Continue =>
            scanLoci localNode remoteNode bamRead isExpectRepeat loci' svDataGroup
        | Some (Local readLocalIndex) =>
            match locus !! readLocalIndex with
            | None => Thrown OutOfRange svDataGroup
            | Some localSide =>
                if negb (GenomeInterval_isIntersect (getInterval localSide)
                                                    (getInterval localNode))
                then scanLoci localNode remoteNode bamRead isExpectRepeat loci' svDataGroup
                else group_add bamRead isExpectRepeat svDataGroup
            end
        end
  end.

Definition addSVNodeRead (chromToIndex : chrom_map)
    (localNode remoteNode : SVLocusNode) (bamRead : bam_record) (bamIndex : nat)
    (isExpectRepeat : bool) (svDataGroup : SVCandidateSetReadPairSampleGroup) :
    Outcome SVCandidateSetReadPairSampleGroup :=
  if isReadFiltered bamRead then Done svDataGroup
  else
    let isAnomalous := negb (isProperPair bamRead bamIndex) in
    let isLargeFragment := isLargeFragment bamRead bamIndex in
    let isLargeAnomalous := isAnomalous && isLargeFragment in
    let isLocalAssemblyEvidence :=
      if negb isLargeAnomalous then isLocalAssemblyEvidence bamRead else false in
    if negb (isLargeAnomalous || isLocalAssemblyEvidence) then Done svDataGroup
    else if bool_decide (maxDataSize <= group_size svDataGroup)
    then Done (setIncomplete svDataGroup)
    else
      let loci := getSVLoci bamRead bamIndex chromToIndex [] in
      scanLoci localNode remoteNode bamRead isExpectRepeat loci svDataGroup.

(** [while (read_stream.next())]: the state is the group and the stream. *)
Fixpoint readLoop (chromToIndex : chrom_map) (localNode remoteNode : SVLocusNode)
    (bamIndex : nat) (isExpectRepeat : bool) (read_stream : bam_streamer)
    (svDataGroup : SVCandidateSetReadPairSampleGroup) :
    Outcome (SVCandidateSetReadPairSampleGroup * bam_streamer) :=
  match read_stream with
  | [] => Done (svDataGroup, [])
  | bamRead :: read_stream' =>
      match addSVNodeRead chromToIndex localNode remoteNode bamRead bamIndex
              isExpectRepeat svDataGroup with
      | Done g => readLoop chromToIndex localNode remoteNode bamIndex isExpectRepeat
                    read_stream' g
      | Thrown f g => Thrown f (g, read_stream')
      end
  end.

(** The body of the loop over [_bamStreams] in [addSVNodeData]. *)
Definition scanStream (chromToIndex : chrom_map) (localNode remoteNode : SVLocusNode)
    (searchInterval : GenomeInterval) (isExpectRepeat : bool) (bamIndex : nat)
    (s : SVCandidateSetData * list bam_streamer) :
    Outcome (SVCandidateSetData * list bam_streamer) :=
  let svDataGroup := getDataGroup s.1 bamIndex in
  let read_stream :=
    set_new_region bamIndex (tid searchInterval)
      (begin_pos (range searchInterval)) (end_pos (range searchInterval)) in
  zoom (fun r : SVCandidateSetReadPairSampleGroup * bam_streamer =>
          (putDataGroup bamIndex r.1 s.1, <[bamIndex := r.2]> s.2))
       (readLoop chromToIndex localNode remoteNode bamIndex isExpectRepeat
          read_stream svDataGroup).

Definition addSVNodeData (chromToIndex : chrom_map) (locus : SVLocus)
    (localNodeIndex remoteNodeIndex : nat) (s : EdgeState) : Outcome EdgeState :=
  match locus !! localNodeIndex, locus !! remoteNodeIndex with
  | Some localNode, Some remoteNode =>
      let searchInterval :=
        mkInterval (tid (getInterval localNode))
          (merge_range (range (getInterval localNode)) (getEvidenceRange localNode)) in
      let '(isExpectRepeat, search') :=
        setNewSearchInterval searchInterval (searchIntervals (svData s)) in
      let isExpectRepeat :=
        if negb isExpectRepeat
        then (tid (getInterval localNode) =? tid (getInterval remoteNode))%Z
        else isExpectRepeat in
      zoom (fun r : SVCandidateSetData * list bam_streamer => mkEdgeState r.1 (svs s) r.2)
           (for_range 0 (length (_bamStreams s))
              (scanStream chromToIndex localNode remoteNode searchInterval isExpectRepeat)
              (mkData (groups (svData s)) search', _bamStreams s))
  | _, _ => Thrown OutOfRange s
  end.

(** ** The edge orchestrator *)

Definition findCandidateSV (chromToIndex : chrom_map) (edge : EdgeInfo) (s : EdgeState) :
    Outcome EdgeState :=
  let s := mkEdgeState clear [] (_bamStreams s) in
  let minEdgeCount := getMinMergeEdgeCount in
  let locus := getLocus (locusIndex edge) in
  if bool_decide (getEdgeCount locus (nodeIndex1 edge) (nodeIndex2 edge) < minEdgeCount)
     || bool_decide (getEdgeCount locus (nodeIndex2 edge) (nodeIndex1 edge) < minEdgeCount)
  then Done s
  else
    addSVNodeData chromToIndex locus (nodeIndex1 edge) (nodeIndex2 edge) s >>> fun s =>
    (if negb (bool_decide (nodeIndex1 edge = nodeIndex2 edge))
     then addSVNodeData chromToIndex locus (nodeIndex2 edge) (nodeIndex1 edge) s
     else Done (mkEdgeState (setSkipped (svData s)) (svs s) (_bamStreams s))) >>>
    getCandidatesFromData chromToIndex.

(** ** The result validator *)

(** The value an [unsigned] holds for a sum: arithmetic on [unsigned] is
    modulo 2^32. *)
Definition to_unsigned (n : nat) : nat := Z.to_nat (Z.of_nat n mod 2 ^ 32).

(** [counts[i]++] and [counts[i] += k] on a [std::map<unsigned,unsigned>]. *)
Definition map_add (i k : nat) (counts : gmap nat nat) : gmap nat nat :=
  <[i := to_unsigned (default 0 (counts !! i) + k)]> counts.

Definition countLink (svCount : nat) (readPair : SVCandidateSetReadPair)
    (sva : SVPairAssociation) (c : gmap nat nat * gmap nat nat) :
    Outcome (gmap nat nat * gmap nat nat) :=
  if bool_decide (svCount <= index sva) then Thrown LogicException c
  else if isPairType (evtype sva) then
    let '(readCounts, pairCounts) := c in
    let readCounts :=
      if bool_decide (is_Some (read1 readPair)) then map_add (index sva) 1 readCounts
      else readCounts in
    let readCounts :=
      if bool_decide (is_Some (read2 readPair)) then map_add (index sva) 1 readCounts
      else readCounts in
    let pairCounts :=
      if bool_decide (is_Some (read1 readPair)) && bool_decide (is_Some (read2 readPair))
      then map_add (index sva) 2 pairCounts else pairCounts in
    Done (readCounts, pairCounts)
  else Done c.

Definition countGroup (svCount : nat) (svData : SVCandidateSetData) (bamIndex : nat)
    (c : gmap nat nat * gmap nat nat) : Outcome (gmap nat nat * gmap nat nat) :=
  foreach (fun readPair => foreach (countLink svCount readPair) (svLink readPair))
          (pairs (getDataGroup svData bamIndex)) c.

Definition checkCounts (svs : list SVCandidate) (svIndex : nat)
    (c : gmap nat nat * gmap nat nat) : Outcome (gmap nat nat * gmap nat nat) :=
  match svs !! svIndex with
  | None => Thrown OutOfRange c
  | Some sv =>
      let svObsReadCount :=
        to_unsigned (localPairCount (bp1 sv) + localPairCount (bp2 sv)) in
      let svObsPairCount := to_unsigned (pairCount (bp1 sv) + pairCount (bp2 sv)) in
      assert (bool_decide (pairCount (bp1 sv) = pairCount (bp2 sv))) c >>> fun c =>
      let dataObsReadCount := default 0 (c.1 !! svIndex) in
      let dataObsPairCount := default 0 (c.2 !! svIndex) in
      let isCountException :=
        (if isExcludeUnpaired
         then bool_decide (dataObsReadCount < svObsReadCount)
         else negb (bool_decide (svObsReadCount = dataObsReadCount)))
        || negb (bool_decide (svObsPairCount = dataObsPairCount)) in
      if isCountException then Thrown LogicException c else Done c
  end.

(** [checkResult] is [const] and takes its arguments by const reference:
    the state it runs on is its two local count maps. *)
Definition checkResult (bamStreams : list bam_streamer) (svData : SVCandidateSetData)
    (svs : list SVCandidate) : Outcome (gmap nat nat * gmap nat nat) :=
  let svCount := length svs in
  if bool_decide (0 = svCount) then Done (∅, ∅)
  else
    for_range 0 svCount
      (fun i c => Done (<[i := 0]> c.1, <[i := 0]> c.2)) (∅, ∅) >>>
    for_range 0 (length bamStreams) (countGroup svCount svData) >>>
    for_range 0 svCount (checkCounts svs).

End Model.

(** ** Concrete collaborators and inputs *)

Module Scenario.

(** Modelled from the spec: the bodies of [SVBreakend::isIntersect] and
    [SVBreakend::merge] are not part of the sources.  Two breakends
    intersect when they have the same orientation (the comment above
    [assignPairObservationsToSVCandidates]) and their intervals intersect;
    merging extends the interval of the first by range union and adds up
    the counts. *)
Definition SVBreakend_isIntersect (b1 b2 : SVBreakend) : bool :=
  bool_decide (state b1 = state b2)
  && GenomeInterval_isIntersect (interval b1) (interval b2).

Definition SVBreakend_merge (b1 b2 : SVBreakend) : SVBreakend :=
  mkBreakend (state b1)
    (mkInterval (tid (interval b1)) (merge_range (range (interval b1)) (range (interval b2))))
    (pairCount b1 + pairCount b2) (localPairCount b1 + localPairCount b2).

(** Modelled from the spec: the bodies of [SVCandidate::isIntersect] and
    [SVCandidate::merge] are not part of the sources.  Two candidates
    intersect when their breakends intersect pairwise; the merge is the
    merge of the breakends, and the candidate keeps its [candidateIndex]. *)
Definition SVCandidate_isIntersect (sv1 sv2 : SVCandidate) : bool :=
  SVBreakend_isIntersect (bp1 sv1) (bp1 sv2) && SVBreakend_isIntersect (bp2 sv1) (bp2 sv2).

Definition SVCandidate_merge (sv1 sv2 : SVCandidate) : SVCandidate :=
  mkCandidate (SVBreakend_merge (bp1 sv1) (bp1 sv2)) (SVBreakend_merge (bp2 sv1) (bp2 sv2))
    (candidateIndex sv1).

(** A toy alignment record: the name of its fragment and what the scanner
    is going to say about it. *)
Record toy_record : Type := mkRead {
  qname : nat;
  filtered : bool;
  loci : list SVLocus;
  observations : list SVObservation
}.

#[export] Instance toyOpaque : Opaque := {|
  bam_record := toy_record;
  chrom_map := unit;
  search_t := list GenomeInterval
|}.

(** Every read opens a pair of its own. *)
Definition toy_add (bamRead : toy_record) (isExpectRepeat : bool)
    (g : SVCandidateSetReadPairSampleGroup) : Outcome SVCandidateSetReadPairSampleGroup :=
  Done (mkGroup (pairs g ++ [mkPair [] (Some bamRead) None]) (isIncomplete g) (isSkipped g)).

Definition toy_region (file : list toy_record) (bamIndex : nat) (t b e : Z) :
    list toy_record :=
  if bool_decide (bamIndex = 0) then file else [].

Definition toyCollaborators (minCount : nat) (locus : SVLocus) (count : nat)
    (file : list toy_record) : Collaborators := {|
  isIntersect := SVCandidate_isIntersect;
  merge := SVCandidate_merge;
  isSpanningSV := fun _ => true;
  isPairType := fun t => bool_decide (t = 0);
  isReadFiltered := filtered;
  isProperPair := fun _ _ => false;
  isLargeFragment := fun _ _ => true;
  isLocalAssemblyEvidence := fun _ => false;
  getSVLoci := fun r _ _ _ => loci r;
  getBreakendPair := fun r _ _ _ _ => observations r;
  group_add := toy_add;
  setNewSearchInterval := fun g seen =>
    (existsb (GenomeInterval_isIntersect g) seen, seen ++ [g]);
  search_clear := [];
  getMinMergeEdgeCount := minCount;
  getLocus := fun _ => locus;
  getEdgeCount := fun _ _ _ => count;
  set_new_region := toy_region file
|}.

Definition breakend (b e : Z) : SVBreakend :=
  mkBreakend 0 (mkInterval 0 (mkRange b e)) 0 0.

(** The three candidates of the consolidation scenario. *)
Definition threeCandidates : list SVCandidate :=
  [ mkCandidate (breakend 100 150) (breakend 100 150) 0;
    mkCandidate (breakend 140 200) (breakend 100 150) 1;
    mkCandidate (breakend 500 600) (breakend 100 150) 2 ].

(** The collaborators of the scenarios when nothing is said about the
    graph and the alignment files. *)
Definition scenario : Collaborators := toyCollaborators 0 [] 0 [].

(** A locus of the graph with one node, and the self-edge on that node. *)
Definition nodeA : SVLocusNode :=
  mkNode (mkInterval 0 (mkRange 100 200)) (mkRange 50 250) true.

Definition locusA : SVLocus := [nodeA].

Definition selfEdge : EdgeInfo := mkEdge 0 0 0.

(** Sides of the loci of the reads: one that lies on [nodeA], one that lies
    far from it, and two that are not flagged out-count. *)
Definition sideOnA : SVLocusNode :=
  mkNode (mkInterval 0 (mkRange 120 130)) (mkRange 120 130) true.

Definition sideFar : SVLocusNode :=
  mkNode (mkInterval 0 (mkRange 900 950)) (mkRange 900 950) true.

Definition sideIn1 : SVLocusNode :=
  mkNode (mkInterval 0 (mkRange 120 130)) (mkRange 120 130) false.

Definition sideIn2 : SVLocusNode :=
  mkNode (mkInterval 0 (mkRange 150 160)) (mkRange 150 160) false.

(** An observation of evidence type 0 (pair-type for the toy scanner) and
    one of type 2. *)
Definition pairObs : SVObservation :=
  mkObservation (mkCandidate (breakend 120 130) (breakend 400 410) 0) 0.

Definition clipObs : SVObservation :=
  mkObservation (mkCandidate (breakend 125 135) (breakend 405 415) 0) 2.

(** A read on [nodeA] with the two observations. *)
Definition goodRead : toy_record := mkRead 1 false [[sideOnA]] [pairObs; clipObs].


(** A read whose first locus lies far from [nodeA] and whose second locus
    is two-sided with no side flagged out-count. *)
Definition faultyRead : toy_record := mkRead 3 false [[sideFar]; [sideIn1; sideIn2]] [].

(** The graph has [locusA] with count 5 on its self-edge and minimum 0; the
    alignment file of sample 0 holds [goodRead]. *)
Definition selfEdgeRun : Collaborators := toyCollaborators 0 locusA 5 [goodRead].

(** The same graph with a minimum of 7. *)
Definition gatedRun : Collaborators := toyCollaborators 7 locusA 5 [goodRead].

(** One sample, whose stream still has a record of an earlier region to
    serve, an evidence set with a stale group, and a stale candidate. *)
Definition staleState : EdgeState :=
  mkEdgeState
    (mkData {[ 0 := mkGroup [mkPair [mkAssociation 9 0] (Some faultyRead) None] true false ]}
            [])
    [mkCandidate (breakend 1 2) (breakend 3 4) 7]
    [[faultyRead]].

(** An evidence set for the three candidates: one pair of sample 0 with an
    association to each of them. *)
Definition threeLinks : SVCandidateSetData :=
  mkData {[ 0 := mkGroup [mkPair [mkAssociation 0 0; mkAssociation 1 0; mkAssociation 2 2]
                                 (Some goodRead) None] false false ]}
         [].





End Scenario.

(** ** Notions used in the statements *)

(** The number of deleted indices below [m]. *)
Fixpoint ndel (D : gset nat) (m : nat) : nat :=
  match m with
  | 0 => 0
  | S k => ndel D k + set_count k D
  end.

(** The position of the candidate at [i] once the deleted ones before it
    are gone. *)
Definition newpos (D : gset nat) (i : nat) : nat := i - ndel D i.

(** Every candidate stores its own position. *)
Definition index_stable (svs : list SVCandidate) : Prop :=
  ∀ i sv, svs !! i = Some sv → candidateIndex sv = i.

(** Every association of the group refers to a candidate below [n]. *)
Definition links_below `{Opaque} (n : nat) (g : SVCandidateSetReadPairSampleGroup) : Prop :=
  ∀ readPair sva, readPair ∈ pairs g → sva ∈ svLink readPair → index sva < n.

Definition links_valid `{Opaque} (bamCount : nat) (svData : SVCandidateSetData)
    (n : nat) : Prop :=
  ∀ bamIndex, bamIndex < bamCount → links_below n (getDataGroup svData bamIndex).

(** The state of the scan of [consolidateOverlap] when its outer loop
    reaches [outerIndex = o]. *)
Definition scan_reaches `{Collaborators} (svs : list SVCandidate) (o : nat) :
    Outcome ScanState :=
  for_range 1 (o - 1) outerBody (mkScan svs ∅ ∅ []).

(** [t] is the first candidate before [o], not deleted so far, that
    intersects the candidate at [o]: the one the inner loop merges [o]
    into. *)
Definition first_overlap `{Collaborators} (st : ScanState) (o t : nat) : Prop :=
  t < o ∧ (t ∉ deletedSVIndex st)
  ∧ (∃ a b, sc_svs st !! t = Some a ∧ sc_svs st !! o = Some b ∧ isIntersect a b = true)
  ∧ (∀ j a b, j < t → j ∉ deletedSVIndex st →
       sc_svs st !! j = Some a → sc_svs st !! o = Some b → isIntersect a b = false).

(** The candidate at [d] is merged into the one at [t] by the scan. *)
Definition merge_target `{Collaborators} (svs : list SVCandidate) (d t : nat) : Prop :=
  ∃ st, scan_reaches svs d = Done st ∧ first_overlap st d t.

(** What holds of the locals of [consolidateOverlap] when the outer loop
    reaches [outerIndex = o]. *)
Definition scan_inv (tgt : nat → nat → Prop) (svs0 : list SVCandidate) (o : nat)
    (st : ScanState) : Prop :=
  let D := deletedSVIndex st in
  length (sc_svs st) = length svs0
  ∧ length (innerIndexShift st) + 1 = o
  ∧ (∀ k, k + 1 < o → innerIndexShift st !! k = Some (ndel D (S k)))
  ∧ (∀ d, d ∈ D → (1 ≤ d ∧ d < o))
  ∧ (∀ d, d ∈ D →
       ∃ t, t < d ∧ (t ∉ D) ∧ tgt d t ∧ moveSVIndex st !! d = Some (newpos D t))
  ∧ (∀ i, i ∉ D → moveSVIndex st !! i = None)
  ∧ (D = ∅ → sc_svs st = svs0).

(** What holds of the vector and the move map once the deleter has dealt
    with every index below [m]: the survivors below [m] sit at their new
    positions, the entries from [m] on are untouched, and the survivors
    after the first deleted index [d1] are in the move map. *)
Definition deleter_data (D : gset nat) (svs1 : list SVCandidate)
    (move1 : gmap nat nat) (d1 m : nat) (d : svCandDeleter) : Prop :=
  length (_svs d) = length svs1
  ∧ (∀ k, m ≤ k → _svs d !! k = svs1 !! k)
  ∧ (∀ k, k < m → k ∉ D → _svs d !! newpos D k = svs1 !! k)
  ∧ (∀ k, _moveSVIndex d !! k =
          if bool_decide ((k ∉ D) ∧ d1 < k ∧ k < m) then Some (newpos D k) else move1 !! k).

Definition deleter_at (D : gset nat) (svs1 : list SVCandidate)
    (move1 : gmap nat nat) (d1 L m : nat) (d : svCandDeleter) : Prop :=
  deleter_data D svs1 move1 d1 m d
  ∧ _shift d = ndel D m ∧ _isLastIndex d = true ∧ _lastIndex d = L.

(** What [consolidateOverlap] leaves in its vector and in its move map
    after the deletion block, in terms of the set [D] of merged-away
    candidates and the vector [svs1] the scan ended with. *)
Definition compact_post (tgt : nat → nat → Prop) (n : nat) (st1 st2 : ScanState) : Prop :=
  let D := deletedSVIndex st1 in
  length (sc_svs st2) = n - ndel D n
  ∧ (D = ∅ → sc_svs st2 = sc_svs st1 ∧ moveSVIndex st2 = ∅)
  ∧ (D ≠ ∅ → index_stable (sc_svs st2))
  ∧ (∀ k sv, k < n → k ∉ D → sc_svs st1 !! k = Some sv →
       ∃ sv', sc_svs st2 !! newpos D k = Some sv' ∧ bp1 sv' = bp1 sv ∧ bp2 sv' = bp2 sv)
  ∧ (∀ k, k < n → k ∉ D → default k (moveSVIndex st2 !! k) = newpos D k)
  ∧ (∀ d, d ∈ D →
       ∃ t, t < d ∧ (t ∉ D) ∧ tgt d t ∧ moveSVIndex st2 !! d = Some (newpos D t))
  ∧ (∀ k, n ≤ k → moveSVIndex st2 !! k = None).

Definition pair_links_below `{Opaque} (n : nat) (readPair : SVCandidateSetReadPair) : Prop :=
  ∀ sva, sva ∈ svLink readPair → index sva < n.

(** How the candidate list may change while observations are assigned. *)
Definition grows `{Collaborators} (s1 s2 : list SVObservation * list SVCandidate) : Prop :=
  length s1.2 ≤ length s2.2
  ∧ ((∀ a b, candidateIndex (merge a b) = candidateIndex a) →
     index_stable s1.2 → index_stable s2.2).

(** Where the associations of the three-candidate scenario end up. *)
Definition remap3 (i : nat) : nat :=
  match i with
  | 1 => 0
  | 2 => 1
  | _ => i
  end.

(** The read is one [addSVNodeRead] goes on with after its filters. *)
Definition interesting `{Collaborators} (bamRead : bam_record) (bamIndex : nat) : Prop :=
  isReadFiltered bamRead = false
  ∧ ((negb (isProperPair bamRead bamIndex) && isLargeFragment bamRead bamIndex)
     || (if negb (negb (isProperPair bamRead bamIndex) && isLargeFragment bamRead bamIndex)
         then isLocalAssemblyEvidence bamRead else false)) = true.

(** The loop of [addSVNodeRead] goes past the locus: it is well-sized and
    fails the overlap test on its remote or on its local side. *)
Definition passed_over `{Collaborators} (localNode remoteNode : SVLocusNode) (locus : SVLocus) : Prop :=
  (1 ≤ length locus ∧ length locus ≤ 2)
  ∧ (orientLocus remoteNode locus = Some Continue
     ∨ ∃ readLocalIndex localSide,
         orientLocus remoteNode locus = Some (Local readLocalIndex)
         ∧ locus !! readLocalIndex = Some localSide
         ∧ GenomeInterval_isIntersect (getInterval localSide) (getInterval localNode)
           = false).



(** ** Notions used in the further properties *)

(** The entries of [l] whose positions, counted from [i], are not in [D]. *)
Fixpoint survivors_from (D : gset nat) (i : nat) (l : list SVCandidate) :
    list SVCandidate :=
  match l with
  | [] => []
  | sv :: l' =>
      if decide (i ∈ D) then survivors_from D (S i) l'
      else sv :: survivors_from D (S i) l'
  end.

(** The two breakends of a candidate. *)
Definition breakends (sv : SVCandidate) : SVBreakend * SVBreakend := (bp1 sv, bp2 sv).

(** What [consolidateOverlap] must not change in a read pair: the reads,
    and the evidence types of the associations in their order. *)
Definition pair_shape `{Opaque} (readPair : SVCandidateSetReadPair) :
    list index_t * option bam_record * option bam_record :=
  (evtype <$> svLink readPair, read1 readPair, read2 readPair).

(** What [getCandidatesFromData] must not change in a group: the reads of
    its pairs in their order, and its flags. *)
Definition pair_reads `{Opaque} (readPair : SVCandidateSetReadPair) :
    option bam_record * option bam_record :=
  (read1 readPair, read2 readPair).

Definition group_frame `{Opaque} (g : SVCandidateSetReadPairSampleGroup) :
    list (option bam_record * option bam_record) * bool * bool :=
  (pair_reads <$> pairs g, isIncomplete g, isSkipped g).

(** The observation is looked at by the assigner. *)
Definition considered `{Collaborators} (isExcludePairType : bool)
    (readCand : SVObservation) : bool :=
  negb (isExcludePairType && isPairType (obs_evtype readCand)).

(** The observation is looked at and gets an association. *)
Definition gets_link `{Collaborators} (isExcludePairType : bool)
    (readCand : SVObservation) : bool :=
  considered isExcludePairType readCand && isSpanningSV (obsCandidate readCand).

(** The search interval of [addSVNodeData] for a local node: the interval
    of the node, its range merged with the evidence range. *)
Definition searchIntervalOf (localNode : SVLocusNode) : GenomeInterval :=
  mkInterval (tid (getInterval localNode))
    (merge_range (range (getInterval localNode)) (getEvidenceRange localNode)).



(** At least one read of the pair is set. *)
Definition has_read `{Opaque} (readPair : SVCandidateSetReadPair) : Prop :=
  is_Some (read1 readPair) ∨ is_Some (read2 readPair).

(** The outcome is normal, or a failure of a kind in [F]. *)
Definition fails_only {St : Type} (F : Failure → Prop) (o : Outcome St) : Prop :=
  match o with
  | Done _ => True
  | Thrown f _ => F f
  end.

(** Two outcomes that end the same way, normally or with the same failure,
    in states related by [R]. *)
Definition related {St : Type} (R : St → St → Prop) (o1 o2 : Outcome St) : Prop :=
  match o1, o2 with
  | Done s1, Done s2 => R s1 s2
  | Thrown f1 s1, Thrown f2 s2 => f1 = f2 ∧ R s1 s2
  | _, _ => False
  end.

(** Two edge states with the same evidence set, the same candidates and
    as many streams. *)
Definition evidence_eq `{Opaque} (s1 s2 : EdgeState) : Prop :=
  svData s1 = svData s2 ∧ svs s1 = svs s2
  ∧ length (_bamStreams s1) = length (_bamStreams s2).

(** Two outcomes of an edge evaluation that end the same way with the same
    evidence set, the same candidates and as many streams. *)
Definition same_evidence `{Opaque} (o1 o2 : Outcome EdgeState) : Prop :=
  related evidence_eq o1 o2.

(** What [checkResult] tallies for candidate [j]: the reads, and twice the
    complete pairs, over the pair-type associations to [j] of the groups of
    the samples. *)
Definition count_of (counts : gmap nat nat) (j : nat) : nat := default 0 (counts !! j).

Definition link_reads `{Collaborators} (readPair : SVCandidateSetReadPair)
    (j : nat) (sva : SVPairAssociation) : nat :=
  if bool_decide (index sva = j) && isPairType (evtype sva)
  then Nat.b2n (bool_decide (is_Some (read1 readPair)))
       + Nat.b2n (bool_decide (is_Some (read2 readPair)))
  else 0.

Definition link_pairs `{Collaborators} (readPair : SVCandidateSetReadPair)
    (j : nat) (sva : SVPairAssociation) : nat :=
  if bool_decide (index sva = j) && isPairType (evtype sva)
     && bool_decide (is_Some (read1 readPair)) && bool_decide (is_Some (read2 readPair))
  then 2 else 0.

Definition group_reads `{Collaborators} (g : SVCandidateSetReadPairSampleGroup)
    (j : nat) : nat :=
  sum_list_with (fun readPair => sum_list_with (link_reads readPair j) (svLink readPair))
                (pairs g).

Definition group_pairs `{Collaborators} (g : SVCandidateSetReadPairSampleGroup)
    (j : nat) : nat :=
  sum_list_with (fun readPair => sum_list_with (link_pairs readPair j) (svLink readPair))
                (pairs g).

Definition data_reads `{Collaborators} (bamCount : nat) (svData : SVCandidateSetData)
    (j : nat) : nat :=
  sum_list_with (fun b => group_reads (getDataGroup svData b) j) (seq 0 bamCount).

Definition data_pairs `{Collaborators} (bamCount : nat) (svData : SVCandidateSetData)
    (j : nat) : nat :=
  sum_list_with (fun b => group_pairs (getDataGroup svData b) j) (seq 0 bamCount).

(** The counts stored in the candidates agree with the tallies [reads] and
    [tallied_pairs], all sums being the ones an [unsigned] holds: the two
    breakends of a candidate have the same pair count, the sum of their
    local pair counts does not exceed the reads, and the sum of their pair
    counts is the tallied pairs. *)
Definition counts_agree (svs : list SVCandidate) (reads tallied_pairs : nat → nat) : Prop :=
  ∀ j sv, svs !! j = Some sv →
    pairCount (bp1 sv) = pairCount (bp2 sv)
    ∧ to_unsigned (localPairCount (bp1 sv) + localPairCount (bp2 sv))
      ≤ to_unsigned (reads j)
    ∧ to_unsigned (pairCount (bp1 sv) + pairCount (bp2 sv))
      = to_unsigned (tallied_pairs j).

(** ** Loops *)

Section Loops.

Context {St : Type}.

Lemma for_range_inv (I : nat → St → Prop) (body : nat → St → Outcome St)
    (count from : nat) (s : St) :
  I from s →
  (∀ i s, from ≤ i < from + count → I i s → ∃ s', body i s = Done s' ∧ I (S i) s') →
  ∃ s', for_range from count body s = Done s' ∧ I (from + count) s'.
Proof.
  revert from s. induction count as [|count IH]; intros from s HI Hstep; simpl.
  - exists s. by rewrite Nat.add_0_r.
  - destruct (Hstep from s) as (s1 & -> & HI1); [lia | done |]. simpl.
    destruct (IH (S from) s1) as (s2 & -> & HI2); [done | |].
    + intros i s' Hi. apply Hstep. lia.
    + exists s2. split; [done|]. by replace (from + S count) with (S from + count) by lia.
Qed.

(** An invariant that the body keeps also when it throws holds of the state
    the loop ends in, however it ends. *)
Lemma for_range_stateOf (I : St → Prop) (body : nat → St → Outcome St)
    (count from : nat) (s : St) :
  I s → (∀ i s, I s → I (stateOf (body i s))) →
  I (stateOf (for_range from count body s)).
Proof.
  revert from s. induction count as [|count IH]; intros from s HI Hbody; simpl; [done|].
  pose proof (Hbody from s HI) as H1.
  destruct (body from s) as [s1|f s1]; simpl in *; [by apply IH | done].
Qed.

End Loops.

(** ** Counting deleted indices *)

Lemma ndel_le D m : ndel D m ≤ m.
Proof. induction m; simpl; [done|]. unfold set_count. case_decide; lia. Qed.

Lemma ndel_mono D m m' : m ≤ m' → ndel D m ≤ ndel D m'.
Proof. induction 1; simpl; lia. Qed.

Lemma ndel_ext D D' m :
  (∀ k, k < m → k ∈ D ↔ k ∈ D') → ndel D m = ndel D' m.
Proof.
  induction m as [|m IH]; intros Hext; simpl; [done|].
  rewrite IH by (intros; apply Hext; lia).
  f_equal. unfold set_count. destruct (Hext m) as [H1 H2]; [lia|].
  repeat case_decide; tauto.
Qed.

Lemma ndel_insert_ge D o m : m ≤ o → ndel ({[o]} ∪ D) m = ndel D m.
Proof.
  intros Hm. apply ndel_ext. intros k Hk. rewrite elem_of_union, elem_of_singleton.
  split; [intros [->|?]; [lia | done] | auto].
Qed.

Lemma ndel_S_notin D m : m ∉ D → ndel D (S m) = ndel D m.
Proof. intros Hm. simpl. unfold set_count. case_decide; [done | lia]. Qed.

Lemma ndel_S_in D m : m ∈ D → ndel D (S m) = ndel D m + 1.
Proof. intros Hm. simpl. unfold set_count. case_decide; [lia | done]. Qed.

Lemma ndel_none_below D m : (∀ k, k < m → k ∉ D) → ndel D m = 0.
Proof.
  induction m as [|m IH]; intros Hno; [done|].
  rewrite ndel_S_notin by (apply Hno; lia). apply IH. intros; apply Hno; lia.
Qed.

Lemma ndel_pos D d m : d ∈ D → d < m → 0 < ndel D m.
Proof.
  intros Hd Hlt. pose proof (ndel_mono D (S d) m ltac:(lia)).
  rewrite ndel_S_in in H by done. lia.
Qed.

(** A survivor ends up strictly before anything that came after it. *)
Lemma newpos_lt D i j : i ∉ D → i < j → ndel D j + i < ndel D i + j.
Proof.
  intros Hi. induction 1 as [|j Hle IH].
  - rewrite ndel_S_notin by done. lia.
  - simpl. unfold set_count. case_decide; lia.
Qed.

Lemma newpos_bound D i n : i ∉ D → i < n → newpos D i < n - ndel D n.
Proof.
  intros Hi Hlt. unfold newpos.
  pose proof (newpos_lt D i n Hi Hlt). pose proof (ndel_le D i). pose proof (ndel_le D n). lia.
Qed.

Lemma newpos_inj_lt D i j : i ∉ D → i < j → newpos D i < newpos D j.
Proof.
  intros Hi Hlt. unfold newpos.
  pose proof (newpos_lt D i j Hi Hlt). pose proof (ndel_le D i). pose proof (ndel_le D j). lia.
Qed.

Lemma size_ndel D n : (∀ d, d ∈ D → d < n) → size D = ndel D n.
Proof.
  revert D. induction n as [|n IH]; intros D HD.
  - simpl. apply size_empty_iff, elem_of_equiv_empty. intros d Hd. apply HD in Hd. lia.
  - destruct (decide (n ∈ D)) as [Hn|Hn].
    + rewrite ndel_S_in by done.
      rewrite <- (ndel_ext (D ∖ {[n]}) D n)
        by (intros k Hk; rewrite elem_of_difference, elem_of_singleton; split;
            [tauto | intros; split; [done | lia]]).
      rewrite <- IH.
      * rewrite (union_difference_L {[n]} D) at 1 by (by apply singleton_subseteq_l).
        rewrite size_union by (apply disjoint_difference_r1; done).
        rewrite size_singleton. lia.
      * intros d [Hd' Hne]%elem_of_difference. apply HD in Hd'.
        rewrite elem_of_singleton in Hne. lia.
    + rewrite ndel_S_notin by done. apply IH.
      intros d Hd. pose proof (HD d Hd). assert (d ≠ n) by (intros ->; done). lia.
Qed.

(** ** The scan of [consolidateOverlap] *)

Section Scan.

Context `{Collaborators}.

Lemma for_range_S_r {St : Type} (body : nat → St → Outcome St) count : ∀ from s,
  for_range from (S count) body s = for_range from count body s >>> body (from + count).
Proof.
  induction count as [|count IH]; intros from s.
  - simpl. rewrite Nat.add_0_r. by destruct (body from s).
  - change (for_range from (S (S count)) body s)
      with (body from s >>> for_range (S from) (S count) body).
    change (for_range from (S count) body s)
      with (body from s >>> for_range (S from) count body).
    destruct (body from s) as [s1|f s1]; [|done]. cbn [andThen].
    rewrite IH. by replace (S from + count) with (from + S count) by lia.
Qed.

Lemma innerLoop_inv tgt svs0 o n i st :
  scan_inv tgt svs0 (S o) st → (∀ d, d ∈ deletedSVIndex st → d < o) →
  (∀ t, first_overlap st o t → tgt o t) →
  1 ≤ o < length svs0 → i + n = o →
  (∀ j a b, j < i → j ∉ deletedSVIndex st →
     sc_svs st !! j = Some a → sc_svs st !! o = Some b → isIntersect a b = false) →
  ∃ st', innerLoop n i o st = Done st' ∧ scan_inv tgt svs0 (S o) st'.
Proof.
  intros Hinv HD Htgt Ho. revert i. induction n as [|n IH]; intros i Hi Hbelow; simpl.
  { by exists st. }
  destruct Hinv as (Hlen & Hsh & Hshv & HD1 & Hmv & Hnone & Hsame).
  case_decide as Hdel.
  { apply IH; [lia|]. intros j a b Hj HjD. destruct (decide (j = i)) as [->|]; [done|].
    apply Hbelow; [lia | done]. }
  destruct (lookup_lt_is_Some_2 (sc_svs st) i) as [inner Hinner]; [lia|].
  destruct (lookup_lt_is_Some_2 (sc_svs st) o) as [outer Houter]; [lia|].
  rewrite Hinner, Houter.
  destruct (isIntersect inner outer) eqn:Hisect; cycle 1.
  { apply IH; [lia|]. intros j a b Hj HjD Ha Hb.
    destruct (decide (j = i)) as [->|]; [congruence|]. apply (Hbelow j); [lia | done..]. }
  assert (tgt o i) as Htoi.
  { apply Htgt. split; [lia|]. split; [done|]. split; [by exists inner, outer|].
    intros j a b Hj. by apply Hbelow. }
  simpl. rewrite bool_decide_true by lia. simpl.
  rewrite Hshv by lia. rewrite ndel_S_notin by done.
  rewrite bool_decide_true by apply ndel_le. simpl.
  eexists. split; [done|].
  assert (∀ m, m ≤ o → ndel ({[o]} ∪ deletedSVIndex st) m = ndel (deletedSVIndex st) m)
    as Hnd by (intros; by apply ndel_insert_ge).
  repeat split; cbn [sc_svs moveSVIndex deletedSVIndex innerIndexShift].
  - by rewrite length_insert.
  - done.
  - intros k Hk. rewrite Hshv by done. by rewrite Hnd by lia.
  - apply elem_of_union in H1 as [->%elem_of_singleton|Hd]; [lia|]. by apply HD1.
  - apply elem_of_union in H1 as [->%elem_of_singleton|Hd]; [lia|]. apply HD in Hd. lia.
  - intros d [->%elem_of_singleton|Hd]%elem_of_union.
    + exists i. split; [lia|]. split; [|split; [done|]].
      * rewrite elem_of_union, elem_of_singleton. intros [->|?]; [lia | done].
      * rewrite lookup_insert_eq. unfold newpos. by rewrite Hnd by lia.
    + destruct (Hmv d Hd) as (t & Ht & HtD & Htd & Hm). pose proof (HD d Hd).
      exists t. split; [done|]. split; [|split; [done|]].
      * rewrite elem_of_union, elem_of_singleton. intros [->|?]; [lia | done].
      * rewrite lookup_insert_ne by lia. rewrite Hm. unfold newpos. by rewrite Hnd by lia.
  - intros k Hk. rewrite elem_of_union, elem_of_singleton in Hk.
    rewrite lookup_insert_ne by (intros ->; tauto). apply Hnone. tauto.
  - intros Hempty. exfalso. eapply (not_elem_of_empty (C := gset nat) o).
    rewrite <- Hempty. apply elem_of_union_l. by apply elem_of_singleton.
Qed.

Lemma outerBody_inv tgt svs0 o st :
  scan_inv tgt svs0 o st → 1 ≤ o < length svs0 →
  (∀ t, first_overlap st o t → tgt o t) →
  ∃ st', outerBody o st = Done st' ∧ scan_inv tgt svs0 (S o) st'.
Proof.
  intros (Hlen & Hsh & Hshv & HD1 & Hmv & Hnone & Hsame) Ho Htgt. unfold outerBody.
  assert (∃ prev, (if bool_decide (o ≤ 1) then Some 0
                   else innerIndexShift st !! (o - 2)) = Some prev
                  ∧ prev = ndel (deletedSVIndex st) (o - 1)) as (prev & -> & Hprev).
  { case_bool_decide.
    - exists 0. split; [done|]. by replace (o - 1) with 0 by lia.
    - eexists. split; [apply Hshv; lia|]. f_equal. lia. }
  destruct (innerLoop_inv tgt svs0 o o 0
              (mkScan (sc_svs st) (moveSVIndex st) (deletedSVIndex st)
                 (innerIndexShift st ++ [prev + set_count (o - 1) (deletedSVIndex st)])))
    as (st' & Hrun & Hinv'); [| | done | done | done | intros; lia |].
  - repeat split; cbn [sc_svs moveSVIndex deletedSVIndex innerIndexShift]; try done.
    + rewrite length_app. simpl. lia.
    + intros k Hk. destruct (decide (k + 1 < o)) as [Hlt|Hge].
      * rewrite lookup_app_l by lia. by apply Hshv.
      * assert (k = length (innerIndexShift st)) as -> by lia.
        rewrite lookup_app_r by lia. rewrite Nat.sub_diag. cbn -[ndel].
        rewrite Hprev. replace (S (length (innerIndexShift st))) with (S (o - 1)) by lia.
        done.
    + by apply HD1.
    + apply HD1 in H1. lia.
  - simpl. intros d Hd. apply HD1 in Hd. lia.
  - by exists st'.
Qed.

Lemma scanOverlap_inv (svs0 : list SVCandidate) :
  ∃ st, scanOverlap svs0 = Done st
        ∧ scan_inv (merge_target svs0) svs0 (1 + (length svs0 - 1)) st.
Proof.
  unfold scanOverlap.
  destruct (for_range_inv
              (fun o st => scan_reaches svs0 o = Done st
                           ∧ scan_inv (merge_target svs0) svs0 o st)
              outerBody (length svs0 - 1) 1 (mkScan svs0 ∅ ∅ []))
    as (st & Hrun & _ & Hinv); [split; [done|] | | by exists st].
  - unfold scan_inv. cbn [sc_svs moveSVIndex deletedSVIndex innerIndexShift].
    split; [done|]. split; [done|]. split; [intros; lia|].
    split; [intros d Hd; by apply not_elem_of_empty in Hd|].
    split; [intros d Hd; by apply not_elem_of_empty in Hd|].
    split; [intros; apply lookup_empty | done].
  - intros i s Hi [Hreach Hinv].
    destruct (outerBody_inv (merge_target svs0) svs0 i s) as (s' & Hs' & Hinv');
      [done | lia | by intros t Ht; exists s |].
    exists s'. split; [done|]. split; [|done].
    unfold scan_reaches in *. replace (S i - 1) with (S (i - 1)) by lia.
    rewrite for_range_S_r, Hreach. cbn [andThen]. by replace (1 + (i - 1)) with i by lia.
Qed.

End Scan.

(** ** The deleter *)

Section Deleter.

Variables (D : gset nat) (svs1 : list SVCandidate) (move1 : gmap nat nat) (d1 : nat).
Hypothesis d1_deleted : d1 ∈ D.

Lemma deleteIndex_body_inv L m d :
  deleter_at D svs1 move1 d1 L m d → m ∉ D → d1 < m → m < length svs1 →
  ∃ d', deleteIndex_body m d = Done d' ∧ deleter_at D svs1 move1 d1 L (S m) d'.
Proof.
  intros ((Hlen & Htail & Hpre & Hmove) & Hshift & Hlast & HL) HmD Hd1 Hm.
  unfold deleteIndex_body.
  pose proof (ndel_pos D d1 m d1_deleted Hd1) as Hpos.
  pose proof (ndel_le D m) as Hle.
  rewrite Hshift. rewrite bool_decide_true by done. cbn [assert andThen].
  rewrite Hshift. rewrite bool_decide_true by done. cbn [assert andThen].
  rewrite Htail by done.
  destruct (lookup_lt_is_Some_2 svs1 m Hm) as [sv Hsv]. rewrite Hsv.
  rewrite Hshift. rewrite bool_decide_true by lia.
  eexists. split; [done|].
  unfold deleter_at, deleter_data. cbn [_shift _isLastIndex _lastIndex _svs _moveSVIndex].
  rewrite length_insert. rewrite ndel_S_notin by done.
  repeat split; try done.
  - intros k Hk. rewrite list_lookup_insert_ne by lia. apply Htail. lia.
  - intros k Hk HkD. destruct (decide (k = m)) as [->|Hne].
    + unfold newpos. rewrite list_lookup_insert_eq by lia. done.
    + assert (k < m) as Hlt by lia.
      pose proof (newpos_inj_lt D k m HkD Hlt) as Hinj. unfold newpos in *.
      rewrite list_lookup_insert_ne by lia. by apply Hpre.
  - intros k. destruct (decide (k = m)) as [->|Hne].
    + rewrite lookup_insert_eq. rewrite bool_decide_true; [done|]. repeat split; [done|lia..].
    + rewrite lookup_insert_ne by done. rewrite Hmove.
      apply (f_equal (fun b : bool => if b then _ else _)).
      apply bool_decide_ext. intuition lia.
Qed.

(** One call of [deleteIndex] after the first one: [index] is the next
    deleted index after [L], or the length of the vector. *)
Lemma deleteIndex_inv L index d :
  deleter_at D svs1 move1 d1 L (S L) d → d1 ≤ L → L < index → index ≤ length svs1 →
  (∀ k, L < k → k < index → k ∉ D) →
  ∃ d', deleteIndex index d = Done d'
        ∧ deleter_data D svs1 move1 d1 index d' ∧ _shift d' = ndel D index + 1
        ∧ _isLastIndex d' = true ∧ _lastIndex d' = index.
Proof.
  intros Hat Hd1 HL Hindex Hgap. unfold deleteIndex.
  destruct Hat as (Hdata & Hshift & Hlast & HLeq).
  pose proof Hdata as (Hlen & _). rewrite Hlen.
  rewrite bool_decide_true by done. cbn [assert andThen]. rewrite Hlast, HLeq.
  destruct (for_range_inv (deleter_at D svs1 move1 d1 L) deleteIndex_body
              (index - (L + 1)) (L + 1) d) as (d' & Hrun & Hat').
  - by replace (L + 1) with (S L) by lia.
  - intros i s Hi Hs. apply deleteIndex_body_inv; [done | apply Hgap; lia | lia | lia].
  - rewrite Hrun. cbn [andThen]. eexists. split; [done|].
    replace (L + 1 + (index - (L + 1))) with index in Hat' by lia.
    destruct Hat' as (Hdata' & Hshift' & _).
    cbn [_shift _isLastIndex _lastIndex]. split; [exact Hdata'|]. split; [lia|done].
Qed.

Lemma deleter_data_S m d :
  m ∈ D → deleter_data D svs1 move1 d1 m d → deleter_data D svs1 move1 d1 (S m) d.
Proof.
  intros HmD (Hlen & Htail & Hpre & Hmove). repeat split; [done|..].
  - intros k Hk. apply Htail. lia.
  - intros k Hk HkD. apply Hpre; [|done]. assert (k ≠ m) by (intros ->; done). lia.
  - intros k. rewrite Hmove.
    apply (f_equal (fun b : bool => if b then _ else _)).
    apply bool_decide_ext. split; intros (H1 & H2 & H3); repeat split; try done; [lia|].
    assert (k ≠ m) by (intros ->; done). lia.
Qed.

(** The calls of [deleteIndex] after the first one, on the deleted indices
    above [L] in increasing order and then on the length of the vector. *)
Lemma deleteIndex_rest ds : ∀ L d,
  deleter_at D svs1 move1 d1 L (S L) d → d1 ≤ L → L < length svs1 →
  StronglySorted lt ds →
  (∀ k, k ∈ ds ↔ k ∈ D ∧ L < k) → (∀ k, k ∈ D → k < length svs1) →
  ∃ d', foreach deleteIndex (ds ++ [length svs1]) d = Done d'
        ∧ deleter_data D svs1 move1 d1 (length svs1) d'.
Proof.
  induction ds as [|x ds IH]; intros L d Hat Hd1 HL Hsorted Hds HD; cbn [app foreach].
  - destruct (deleteIndex_inv L (length svs1) d) as (d' & -> & Hdata & _); try done.
    + intros k Hk1 Hk2 HkD. assert (k ∈ []) as Hin by (apply Hds; done).
      by apply elem_of_nil in Hin.
    + by exists d'.
  - apply StronglySorted_inv in Hsorted as [Hsorted Hx].
    assert (x ∈ D ∧ L < x) as [HxD HLx] by (apply Hds; left).
    destruct (deleteIndex_inv L x d) as (d' & -> & Hdata & Hshift & Hlast & Hlx); try done.
    + by apply Nat.lt_le_incl, HD.
    + intros k Hk1 Hk2 HkD. assert (k ∈ x :: ds) as Hin by (apply Hds; done).
      apply elem_of_cons in Hin as [->|Hin]; [lia|].
      rewrite Forall_forall in Hx. apply Hx in Hin. lia.
    + cbn [andThen]. apply (IH x); try done.
      * split; [by apply deleter_data_S|]. rewrite ndel_S_in by done. done.
      * lia.
      * by apply HD.
      * intros k. split.
        -- intros Hin. split; [apply Hds; by right|].
           rewrite Forall_forall in Hx. by apply Hx.
        -- intros [HkD Hk]. assert (k ∈ x :: ds) as Hin by (apply Hds; split; [done|lia]).
           apply elem_of_cons in Hin as [->|Hin]; [lia | done].
Qed.

End Deleter.

(** ** Compaction *)

Lemma set_in_order_elem (s : gset nat) k : k ∈ set_in_order s ↔ k ∈ s.
Proof.
  unfold set_in_order. rewrite (merge_sort_Permutation le (elements s)).
  apply elem_of_elements.
Qed.

Lemma sorted_NoDup_lt (l : list nat) :
  StronglySorted le l → NoDup l → StronglySorted lt l.
Proof.
  induction 1 as [|x l Hs IH Hx]; intros Hnd; [constructor|].
  apply NoDup_cons in Hnd as [Hin Hnd]. constructor; [by apply IH|].
  rewrite Forall_forall in *. intros y Hy.
  pose proof (Hx y Hy). assert (x ≠ y) by (intros ->; done). lia.
Qed.

Lemma set_in_order_sorted (s : gset nat) : StronglySorted lt (set_in_order s).
Proof.
  apply sorted_NoDup_lt.
  - apply StronglySorted_merge_sort; apply _.
  - unfold set_in_order. rewrite (merge_sort_Permutation le (elements s)).
    apply NoDup_elements.
Qed.

Lemma compactCandidates_spec tgt (svs0 : list SVCandidate) (st1 : ScanState) :
  scan_inv tgt svs0 (1 + (length svs0 - 1)) st1 →
  ∃ st2, compactCandidates (length svs0) st1 = Done st2
         ∧ compact_post tgt (length svs0) st1 st2.
Proof.
  intros (Hlen & _ & _ & HD & Hmv & Hnone & Hsame).
  set (n := length svs0) in *. set (D := deletedSVIndex st1) in *.
  assert (∀ d, d ∈ D → d < n) as HDn by (intros d Hd; apply HD in Hd; lia).
  unfold compactCandidates. fold D. case_decide as HDe.
  { exists st1. split; [done|]. unfold compact_post. fold D.
    assert (∀ m, ndel D m = 0) as Hz
      by (intros m; apply ndel_none_below; intros k _; rewrite HDe; apply not_elem_of_empty).
    assert (moveSVIndex st1 = ∅) as Hmove.
    { apply map_eq. intros k. rewrite lookup_empty. apply Hnone. rewrite HDe.
      apply not_elem_of_empty. }
    rewrite Hz. split; [lia|]. split; [done|]. split; [done|].
    split; [|split; [|split]].
    - intros k sv _ _ Hsv. exists sv. unfold newpos. rewrite Hz, Nat.sub_0_r. done.
    - intros k _ _. rewrite Hmove, lookup_empty. unfold newpos. rewrite Hz. simpl. lia.
    - intros d Hd. rewrite HDe in Hd. by apply not_elem_of_empty in Hd.
    - intros k _. by rewrite Hmove. }
  pose proof (set_in_order_sorted D) as Hsorted.
  pose proof (set_in_order_elem D) as Helem.
  destruct (set_in_order D) as [|d1 ds] eqn:Hds.
  { exfalso. apply HDe. apply set_eq. intros k. rewrite <- Helem.
    split; [intros Hk; by apply elem_of_nil in Hk | intros Hk; by apply not_elem_of_empty in Hk]. }
  apply StronglySorted_inv in Hsorted as [Hsorted Hd1].
  rewrite Forall_forall in Hd1.
  assert (d1 ∈ D) as Hd1D by (apply Helem; left).
  assert (∀ k, k < d1 → k ∉ D) as Hmin.
  { intros k Hk HkD. apply Helem, elem_of_cons in HkD as [->|Hin]; [lia|].
    apply Hd1 in Hin. lia. }
  cbn [app foreach]. unfold deleteIndex at 1. cbn [_svs _isLastIndex _shift _moveSVIndex].
  rewrite bool_decide_true by (rewrite Hlen; apply Nat.lt_le_incl, HDn, Hd1D).
  cbn [assert andThen _svs _isLastIndex _shift _moveSVIndex _lastIndex].
  destruct (deleteIndex_rest D (sc_svs st1) (moveSVIndex st1) d1 Hd1D ds d1
              (mkDeleter (0 + 1) true d1 (sc_svs st1) (moveSVIndex st1)))
    as (d' & Hrun & Hlen' & Htail & Hpre & Hmove).
  { repeat split; cbn [_svs _isLastIndex _shift _moveSVIndex _lastIndex]; try done.
    - intros k Hk HkD. unfold newpos. rewrite ndel_none_below; [by rewrite Nat.sub_0_r|].
      intros j Hj. apply Hmin. assert (k ≠ d1) by (intros ->; done). lia.
    - intros k. rewrite bool_decide_false; [done | lia].
    - rewrite ndel_S_in by done. by rewrite (ndel_none_below D d1 Hmin). }
  { done. }
  { rewrite Hlen. by apply HDn. }
  { done. }
  { intros k. split.
    - intros Hin. split; [apply Helem; by right | by apply Hd1].
    - intros [HkD Hk]. apply Helem, elem_of_cons in HkD as [->|Hin]; [lia | done]. }
  { intros k Hk. rewrite Hlen. by apply HDn. }
  rewrite Hlen in Hrun. fold n in Hrun. rewrite Hrun.
  eexists. split; [done|]. unfold compact_post.
  cbn [sc_svs moveSVIndex deletedSVIndex]. fold D.
  rewrite Hlen' , Hlen, (size_ndel D n HDn). fold n.
  pose proof (ndel_le D n) as Hle.
  split; [|split; [|split; [|split; [|split; [|split]]]]].
  - rewrite length_imap, length_take. lia.
  - intros He. by destruct HDe.
  - intros _ i sv. rewrite list_lookup_imap.
    destruct (take (n - ndel D n) (_svs d') !! i); simpl; [|done]. by intros [= <-].
  - intros k sv Hk HkD Hsv. pose proof (newpos_bound D k n HkD Hk) as Hb.
    rewrite list_lookup_imap, lookup_take_lt by done.
    rewrite Hpre by (rewrite ?Hlen; done). rewrite Hsv. simpl. eauto.
  - intros k Hk HkD. rewrite Hmove. case_bool_decide as Hc; [done|].
    rewrite Hnone by done. simpl. unfold newpos.
    rewrite ndel_none_below; [lia|]. intros j Hj. apply Hmin.
    assert (k ≠ d1) by (intros ->; done).
    destruct (decide (d1 < k)); [|lia]. exfalso. apply Hc. rewrite Hlen. fold n. done.
  - intros d Hd. rewrite Hmove. rewrite bool_decide_false by tauto. by apply Hmv.
  - intros k Hk. rewrite Hmove. rewrite bool_decide_false by (rewrite Hlen; fold n; lia).
    apply Hnone. intros HkD. apply HDn in HkD. lia.
Qed.

(** ** Rewriting the associations *)

Section Relink.

Context `{Collaborators}.

Lemma relink_index move sva :
  index (relink move sva) = default (index sva) (move !! index sva).
Proof. unfold relink. by destruct (move !! index sva). Qed.

Lemma relinkGroup_empty g : relinkGroup ∅ g = g.
Proof.
  destruct g as [ps inc sk]. unfold relinkGroup. simpl. f_equal.
  rewrite <- (list_fmap_id ps) at 2. apply list_fmap_ext. intros _ [links r1 r2] _.
  unfold relinkPair. simpl. f_equal.
  rewrite <- (list_fmap_id links) at 2. apply list_fmap_ext. intros _ sva _.
  unfold relink. by rewrite lookup_empty.
Qed.

Lemma getDataGroup_put b b' g (svData : SVCandidateSetData) :
  getDataGroup (putDataGroup b g svData) b' =
  if decide (b = b') then g else getDataGroup svData b'.
Proof.
  unfold getDataGroup, putDataGroup. simpl. rewrite lookup_insert. by case_decide.
Qed.

Lemma relinkData_spec bamCount move (svData : SVCandidateSetData) :
  ∃ svData', relinkData bamCount move svData = Done svData'
    ∧ (∀ b, b < bamCount →
         getDataGroup svData' b = relinkGroup move (getDataGroup svData b))
    ∧ (∀ b, bamCount ≤ b → groups svData' !! b = groups svData !! b)
    ∧ searchIntervals svData' = searchIntervals svData.
Proof.
  unfold relinkData. case_decide as Hmove.
  { exists svData. subst move. split; [done|]. split; [|done].
    intros b _. by rewrite relinkGroup_empty. }
  destruct (for_range_inv
    (fun i cur =>
       (∀ b, b < i → getDataGroup cur b = relinkGroup move (getDataGroup svData b))
       ∧ (∀ b, i ≤ b → groups cur !! b = groups svData !! b)
       ∧ searchIntervals cur = searchIntervals svData)
    (fun bamIndex svData =>
       Done (putDataGroup bamIndex (relinkGroup move (getDataGroup svData bamIndex)) svData))
    bamCount 0 svData) as (svData' & Hrun & Hpost).
  - split; [intros; lia | done].
  - intros i cur _ (Hlow & Hhigh & Hsearch). eexists. split; [done|].
    split; [|split].
    + intros b Hb. rewrite getDataGroup_put. case_decide as Hib.
      * subst b. unfold getDataGroup. by rewrite Hhigh.
      * apply Hlow. lia.
    + intros b Hb. unfold putDataGroup. simpl. rewrite lookup_insert_ne by lia.
      apply Hhigh. lia.
    + done.
  - exists svData'. by split.
Qed.

Lemma consolidateOverlap_spec bamCount (svData : SVCandidateSetData) svs :
  ∃ st1 st2 svData',
    scanOverlap svs = Done st1
    ∧ compactCandidates (length svs) st1 = Done st2
    ∧ scan_inv (merge_target svs) svs (1 + (length svs - 1)) st1
    ∧ compact_post (merge_target svs) (length svs) st1 st2
    ∧ consolidateOverlap bamCount (svData, svs) = Done (svData', sc_svs st2)
    ∧ (∀ b, b < bamCount →
         getDataGroup svData' b = relinkGroup (moveSVIndex st2) (getDataGroup svData b))
    ∧ (∀ b, bamCount ≤ b → groups svData' !! b = groups svData !! b)
    ∧ searchIntervals svData' = searchIntervals svData.
Proof.
  destruct (scanOverlap_inv svs) as (st1 & Hscan & Hinv).
  destruct (compactCandidates_spec _ svs st1 Hinv) as (st2 & Hcompact & Hpost).
  destruct (relinkData_spec bamCount (moveSVIndex st2) svData)
    as (svData' & Hrelink & Hgroups).
  exists st1, st2, svData'. unfold consolidateOverlap.
  rewrite Hscan. cbn [andThen]. rewrite Hcompact, Hrelink. by cbn [zoom].
Qed.

(** Where an index below the old length ends up: at the new position of
    the candidate itself, or of the one it was merged into. *)
Lemma remap_bound tgt n st1 st2 i :
  compact_post tgt n st1 st2 → (∀ d, d ∈ deletedSVIndex st1 → d < n) → i < n →
  default i (moveSVIndex st2 !! i) < length (sc_svs st2).
Proof.
  intros (Hlen & _ & _ & _ & Hkeep & Hdel & _) HD Hi. rewrite Hlen.
  destruct (decide (i ∈ deletedSVIndex st1)) as [HiD|HiD].
  - destruct (Hdel i HiD) as (t & Ht & HtD & _ & ->). simpl.
    apply newpos_bound; [done | lia].
  - rewrite Hkeep by done. by apply newpos_bound.
Qed.

Lemma relinkGroup_links_below tgt n st1 st2 g :
  compact_post tgt n st1 st2 → (∀ d, d ∈ deletedSVIndex st1 → d < n) →
  links_below n g →
  links_below (length (sc_svs st2)) (relinkGroup (moveSVIndex st2) g).
Proof.
  intros Hpost HD Hg readPair sva. unfold relinkGroup, relinkPair. simpl.
  intros (rp & -> & Hrp)%list_elem_of_fmap. simpl.
  intros (sva0 & -> & Hsva)%list_elem_of_fmap.
  rewrite relink_index. eapply remap_bound; [done | done |]. by eapply Hg.
Qed.

End Relink.

(** ** More on loops: what a normal end tells *)

Lemma for_range_Done {St : Type} (I : nat → St → Prop) (body : nat → St → Outcome St)
    (count from : nat) (s s' : St) :
  for_range from count body s = Done s' →
  I from s →
  (∀ i s s1, from ≤ i < from + count → I i s → body i s = Done s1 → I (S i) s1) →
  I (from + count) s'.
Proof.
  revert from s. induction count as [|count IH]; intros from s Hrun HI Hstep; simpl in Hrun.
  - injection Hrun as <-. by rewrite Nat.add_0_r.
  - destruct (body from s) as [s1|f s1] eqn:Hbody; [|done]. simpl in Hrun.
    replace (from + S count) with (S from + count) by lia.
    apply (IH (S from) s1); [done | |].
    + apply (Hstep from s); [lia | done | done].
    + intros i s2 s3 Hi. apply Hstep. lia.
Qed.

Lemma foreach_ref_Done {A St : Type} (P : A → St → Prop) (R : St → St → Prop)
    (body : A → St → Outcome (A * St)) (xs xs' : list A) (s s' : St) :
  (∀ s, R s s) → (∀ s1 s2 s3, R s1 s2 → R s2 s3 → R s1 s3) →
  (∀ x s1 s2, P x s1 → R s1 s2 → P x s2) →
  (∀ x s x1 s1, body x s = Done (x1, s1) → P x1 s1 ∧ R s s1) →
  foreach_ref body xs s = Done (xs', s') →
  Forall (fun x => P x s') xs' ∧ R s s' ∧ length xs' = length xs.
Proof.
  intros Hrefl Htrans Hmono Hbody. revert xs' s s'.
  induction xs as [|x xs IH]; intros xs' s s' Hrun; simpl in Hrun.
  - injection Hrun as <- <-. by repeat split.
  - destruct (body x s) as [[x1 s1]|f [x1 s1]] eqn:Hx; [|done].
    destruct (foreach_ref body xs s1) as [[xs1 s2]|f [xs1 s2]] eqn:Hxs; [|done].
    simpl in Hrun. injection Hrun as <- <-.
    destruct (Hbody _ _ _ _ Hx) as [HP HR].
    destruct (IH _ _ _ Hxs) as (Hall & HR' & Hlen).
    split; [|split].
    + constructor; [by eapply Hmono | done].
    + by eapply Htrans.
    + simpl. by rewrite Hlen.
Qed.

Lemma stateOf_zoom {St T : Type} (put : T → St) (o : Outcome T) :
  stateOf (zoom put o) = put (stateOf o).
Proof. by destruct o. Qed.

Lemma zoom_Done {St T : Type} (put : T → St) (o : Outcome T) (s : St) :
  zoom put o = Done s → ∃ t, o = Done t ∧ s = put t.
Proof. destruct o as [t|f t]; [|done]. intros [= <-]. by exists t. Qed.

Lemma andThen_Done {St : Type} (o : Outcome St) (k : St → Outcome St) (s : St) :
  o >>> k = Done s → ∃ s1, o = Done s1 ∧ k s1 = Done s.
Proof. destruct o as [s1|f s1]; [|done]. intros Hk. by exists s1. Qed.

(** ** The observation assigner *)

Section Assigner.

Context `{Collaborators}.

(** What the loop over [svs] does when it finds a match. *)
Lemma matchCandidate_Some readCand isSpanning svs : ∀ svIndex readPair readPair' svs',
  matchCandidate readCand isSpanning svIndex svs readPair = Some (readPair', svs') →
  ∃ i sv, svs !! i = Some sv
    ∧ isIntersect sv (obsCandidate readCand) = true
    ∧ (∀ j sv', j < i → svs !! j = Some sv' →
         isIntersect sv' (obsCandidate readCand) = false)
    ∧ svs' = <[i := merge sv (obsCandidate readCand)]> svs
    ∧ readPair' = (if isSpanning then push_link (svIndex + i) readCand readPair
                   else readPair).
Proof.
  induction svs as [|sv svs IH]; intros svIndex readPair readPair' svs' Hm;
    simpl in Hm; [done|].
  destruct (isIntersect sv (obsCandidate readCand)) eqn:Hsv.
  - injection Hm as <- <-. exists 0, sv. rewrite Nat.add_0_r.
    repeat split; try done. intros; lia.
  - destruct (matchCandidate readCand isSpanning (S svIndex) svs readPair)
      as [[rp svs1]|] eqn:Hrest; [|done].
    injection Hm as <- <-.
    destruct (IH _ _ _ _ Hrest) as (i & sv1 & Hi & Hisect & Hfirst & -> & ->).
    exists (S i), sv1. replace (svIndex + S i) with (S svIndex + i) by lia.
    repeat split; try done.
    intros [|j] sv' Hj Hsv'; simpl in Hsv'; [congruence|]. apply (Hfirst j); [lia | done].
Qed.



End Assigner.

Section AssignerClaims.

Context `{Collaborators}.



Lemma assign_excluded_filter (readCandidates : list SVObservation) : ∀ s,
  assignPairObservationsToSVCandidates true readCandidates s
  = assignPairObservationsToSVCandidates false
      (filter (fun rc => isPairType (obs_evtype rc) = false) readCandidates) s.
Proof.
  unfold assignPairObservationsToSVCandidates.
  induction readCandidates as [|rc rcs IH]; intros s; [done|].
  rewrite filter_cons. simpl. destruct (isPairType (obs_evtype rc)) eqn:Hrc.
  - rewrite decide_False by done. rewrite <- IH. f_equal.
    unfold assignObservation. destruct s. by rewrite Hrc.
  - rewrite decide_True by done. simpl. rewrite <- IH. f_equal.
    unfold assignObservation. destruct s. by rewrite Hrc.
Qed.

(** C8.  For a read pair whose remote read is absent the exclusion is
    active: the candidates and the associations of the pair are those that
    the assignment without exclusion produces from the observations of the
    pair that are not pair-type, so no pair-type observation of the pair is
    merged into a candidate or creates one, and the others are assigned as
    usual. *)
Theorem pair_type_exclusion
    (chromToIndex : chrom_map) (bamIndex : nat) (readPair : SVCandidateSetReadPair)
    (readCandidates : list SVObservation) (svs : list SVCandidate)
    (localRead : bam_record) :
  (read1 readPair = Some localRead ∧ read2 readPair = None)
  ∨ (read1 readPair = None ∧ read2 readPair = Some localRead) →
  let observed := getBreakendPair localRead None bamIndex chromToIndex readCandidates in
  let assigned :=
    assignPairObservationsToSVCandidates false
      (filter (fun rc => isPairType (obs_evtype rc) = false) observed)
      (mkPair [] (read1 readPair) (read2 readPair), svs) in
  candidatesFromPair chromToIndex bamIndex readPair (readCandidates, svs)
  = Done (assigned.1, (observed, assigned.2)).
Proof.
  intros Hreads observed assigned. unfold candidatesFromPair.
  cbn [read1 read2 svLink].
  assert (isExcludeUnpaired && negb (bool_decide (is_Some (@None bam_record))) = true)
    as Hex by (rewrite bool_decide_false; [done | by intros [? ?]]).
  destruct Hreads as [[Hr1 Hr2]|[Hr1 Hr2]]; rewrite Hr1, Hr2.
  - rewrite bool_decide_true by done. cbn [negb]. rewrite Hex.
    rewrite assign_excluded_filter. subst assigned observed. rewrite Hr1, Hr2.
    by destruct (assignPairObservationsToSVCandidates _ _ _).
  - rewrite bool_decide_false by (by intros [? ?]). cbn [negb]. rewrite Hex.
    rewrite assign_excluded_filter. subst assigned observed. rewrite Hr1, Hr2.
    by destruct (assignPairObservationsToSVCandidates _ _ _).
Qed.

(** The assigner keeps the candidates numbered by position, given that
    merging leaves [candidateIndex] alone, and the associations it records
    refer to candidates of the list. *)
Lemma assignObservation_inv isExcludePairType readCand readPair svs readPair' svs' :
  assignObservation isExcludePairType readCand (readPair, svs) = (readPair', svs') →
  length svs ≤ length svs'
  ∧ (pair_links_below (length svs) readPair → pair_links_below (length svs') readPair')
  ∧ ((∀ a b, candidateIndex (merge a b) = candidateIndex a) →
     index_stable svs → index_stable svs')
  ∧ read1 readPair' = read1 readPair ∧ read2 readPair' = read2 readPair.
Proof.
  unfold assignObservation.
  destruct (isExcludePairType && isPairType (obs_evtype readCand)).
  { intros [= <- <-]. by repeat split. }
  destruct (matchCandidate readCand _ 0 svs readPair) as [[rp svs1]|] eqn:Hm.
  - intros [= <- <-].
    destruct (matchCandidate_Some _ _ _ _ _ _ _ Hm) as (i & sv & Hi & _ & _ & -> & ->).
    pose proof (lookup_lt_Some _ _ _ Hi) as Hlt.
    rewrite length_insert. split; [done|]. split; [|split].
    + intros Hlinks. destruct (isSpanningSV _); [|done].
      intros sva. unfold push_link. simpl.
      intros [Hin| ->%list_elem_of_singleton]%elem_of_app; [by apply Hlinks | done].
    + intros Hmerge Hst j sv'. destruct (decide (i = j)) as [<-|Hne].
      * rewrite list_lookup_insert_eq by done. intros [= <-]. rewrite Hmerge. by apply Hst.
      * rewrite list_lookup_insert_ne by done. apply Hst.
    + by destruct (isSpanningSV _).
  - intros [= <- <-]. rewrite length_app. simpl. split; [lia|]. split; [|split].
    + intros Hlinks. destruct (isSpanningSV _).
      * intros sva. unfold push_link. simpl.
        intros [Hin| ->%list_elem_of_singleton]%elem_of_app;
          [apply Hlinks in Hin; lia | simpl; lia].
      * intros sva Hin. apply Hlinks in Hin. lia.
    + intros _ Hst j sv'. destruct (decide (j < length svs)) as [Hlt|Hge].
      * rewrite lookup_app_l by done. apply Hst.
      * rewrite lookup_app_r by lia. intros Hj.
        apply list_lookup_singleton_Some in Hj as [Hj <-]. simpl. lia.
    + by destruct (isSpanningSV _).
Qed.

Lemma assignPairObservations_inv isExcludePairType readCandidates :
  ∀ readPair svs readPair' svs',
  assignPairObservationsToSVCandidates isExcludePairType readCandidates (readPair, svs)
    = (readPair', svs') →
  length svs ≤ length svs'
  ∧ (pair_links_below (length svs) readPair → pair_links_below (length svs') readPair')
  ∧ ((∀ a b, candidateIndex (merge a b) = candidateIndex a) →
     index_stable svs → index_stable svs')
  ∧ read1 readPair' = read1 readPair ∧ read2 readPair' = read2 readPair.
Proof.
  unfold assignPairObservationsToSVCandidates.
  induction readCandidates as [|rc rcs IH]; intros readPair svs readPair' svs';
    cbn [foldl].
  { intros [= <- <-]. by repeat split. }
  destruct (assignObservation isExcludePairType rc (readPair, svs)) as [rp1 svs1] eqn:H1.
  intros Hrest.
  destruct (assignObservation_inv _ _ _ _ _ _ H1) as (Hl1 & Hk1 & Hs1 & Hr1 & Hr2).
  destruct (IH _ _ _ _ Hrest) as (Hl2 & Hk2 & Hs2 & Hr3 & Hr4).
  split; [lia|]. split; [auto|]. split; [auto|]. split; congruence.
Qed.

End AssignerClaims.

(** ** From the evidence set to the candidates *)

Section Pipeline.

Context `{Collaborators}.

Lemma grows_refl s : grows s s.
Proof. by split. Qed.

Lemma grows_trans s1 s2 s3 : grows s1 s2 → grows s2 s3 → grows s1 s3.
Proof. intros [H1 H2] [H3 H4]. split; [lia | auto]. Qed.

Lemma candidatesFromPair_Done chromToIndex bamIndex readPair s readPair' s' :
  candidatesFromPair chromToIndex bamIndex readPair s = Done (readPair', s') →
  pair_links_below (length s'.2) readPair' ∧ grows s s'.
Proof.
  destruct s as [rc svs]. unfold candidatesFromPair.
  destruct (if negb (bool_decide (is_Some (read1 (mkPair [] (read1 readPair) (read2 readPair)))))
            then _ else _) as [[localRead|] remoteRead]; [|done].
  destruct (assignPairObservationsToSVCandidates _ _ _) as [rp1 svs1] eqn:Hassign.
  intros [= <- <-].
  destruct (assignPairObservations_inv _ _ _ _ _ _ Hassign) as (Hlen & Hlinks & Hst & _).
  split; [|by split]. apply Hlinks. intros sva Hin. by apply elem_of_nil in Hin.
Qed.

Lemma candidatesFromGroup_Done chromToIndex bamIndex svData s svData' s' :
  candidatesFromGroup chromToIndex bamIndex (svData, s) = Done (svData', s') →
  ∃ g, svData' = putDataGroup bamIndex g svData
       ∧ links_below (length s'.2) g
       ∧ group_size g = group_size (getDataGroup svData bamIndex)
       ∧ isSkipped g = isSkipped (getDataGroup svData bamIndex)
       ∧ grows s s'.
Proof.
  unfold candidatesFromGroup. cbn [fst snd].
  intros ([ps s1] & Hrun & [= -> ->])%zoom_Done.
  pose proof (foreach_ref_Done
              (fun rp (s : list SVObservation * list SVCandidate) =>
                 pair_links_below (length s.2) rp)
              grows (candidatesFromPair chromToIndex bamIndex)
              (pairs (getDataGroup svData bamIndex)) ps s s1
              grows_refl grows_trans) as Hloop.
  destruct Hloop as (Hall & Hgrow & Hlen); [| | exact Hrun |].
  - intros rp s1' s2' Hrp [Hle _] sva Hin. apply Hrp in Hin. lia.
  - intros rp s0 rp1 s1'. apply candidatesFromPair_Done.
  - eexists. split; [done|]. cbn [fst snd]. split; [|split; [|split; [|done]]].
    + intros rp sva Hrp. cbn [pairs] in Hrp. rewrite Forall_forall in Hall.
      by apply Hall.
    + done.
    + done.
Qed.

(** What a normal end of the assignment loops of [getCandidatesFromData]
    gives. *)
Lemma assignAll_Done chromToIndex bamCount svData svs svData' svs' :
  assignAll chromToIndex bamCount (svData, svs) = Done (svData', svs') →
  links_valid bamCount svData' (length svs')
  ∧ ((∀ a b, candidateIndex (merge a b) = candidateIndex a) →
     index_stable svs → index_stable svs')
  ∧ (∀ b, bamCount ≤ b → groups svData' !! b = groups svData !! b)
  ∧ (∀ b, is_Some (groups svData' !! b) → is_Some (groups svData !! b) ∨ b < bamCount).
Proof.
  unfold assignAll. cbn [fst snd].
  intros ([data1 [rc1 svs1]] & Hrun & [= -> ->])%zoom_Done. cbn [fst snd].
  pose proof (for_range_Done
    (fun i (st : SVCandidateSetData * (list SVObservation * list SVCandidate)) =>
       (∀ b, b < i → links_below (length st.2.2) (getDataGroup st.1 b))
       ∧ grows ([], svs) st.2
       ∧ (∀ b, i ≤ b → groups st.1 !! b = groups svData !! b)
       ∧ (∀ b, is_Some (groups st.1 !! b) → is_Some (groups svData !! b) ∨ b < i))
    _ _ _ _ _ Hrun) as Hinv.
  destruct Hinv as (Hlinks & [_ Hst] & Hhigh & Hdom).
  - cbn [fst snd]. split; [intros; lia|]. split; [apply grows_refl|]. split; [done | auto].
  - intros i [data [rc svs0]] st1 Hi (Hlinks & Hgrow & Hhigh & Hdom) Hbody.
    destruct st1 as [data2 s2].
    apply candidatesFromGroup_Done in Hbody as (g & -> & Hg & _ & _ & Hgrow2).
    cbn [fst snd] in *. split; [|split; [|split]].
    + intros b Hb. rewrite getDataGroup_put. case_decide; [done|].
      intros rp sva Hrp Hsva. destruct Hgrow2 as [Hle _].
      pose proof (Hlinks b ltac:(lia) rp sva Hrp Hsva). simpl in *. lia.
    + by eapply grows_trans.
    + intros b Hb. unfold putDataGroup. cbn [groups].
      rewrite lookup_insert_ne by lia. apply Hhigh. lia.
    + intros b. unfold putDataGroup. cbn [groups]. rewrite lookup_insert.
      case_decide as Hib; [right; lia|]. intros Hb. apply Hdom in Hb as [?|?]; [by left|right; lia].
  - cbn [fst snd] in *. split; [intros b Hb; apply Hlinks; lia|].
    split; [done|]. split; [intros b Hb; apply Hhigh; lia|].
    intros b Hb. apply Hdom in Hb as [?|?]; [by left | right; lia].
Qed.

End Pipeline.

Section Orchestrator.

Context `{Collaborators}.

Lemma consolidateOverlap_index_stable bamCount (svData : SVCandidateSetData) svs :
  index_stable svs →
  ∃ svData' svs', consolidateOverlap bamCount (svData, svs) = Done (svData', svs')
                  ∧ index_stable svs'.
Proof.
  intros Hst.
  destruct (consolidateOverlap_spec bamCount svData svs)
    as (st1 & st2 & svData' & _ & _ & Hinv & Hpost & Hrun & _).
  exists svData', (sc_svs st2). split; [done|].
  destruct Hinv as (_ & _ & _ & _ & _ & _ & Hsame).
  destruct Hpost as (_ & Hnone & Hsome & _).
  destruct (decide (deletedSVIndex st1 = ∅)) as [He|Hne].
  - destruct (Hnone He) as [-> _]. by rewrite Hsame.
  - by apply Hsome.
Qed.

Lemma scan_inv_deleted tgt svs st d :
  scan_inv tgt svs (1 + (length svs - 1)) st → d ∈ deletedSVIndex st → d < length svs.
Proof. intros (_ & _ & _ & HD & _) Hd. apply HD in Hd. lia. Qed.

Lemma consolidateOverlap_links_valid bamCount (svData : SVCandidateSetData) svs :
  links_valid bamCount svData (length svs) →
  ∃ svData' svs', consolidateOverlap bamCount (svData, svs) = Done (svData', svs')
    ∧ links_valid bamCount svData' (length svs')
    ∧ (∀ b, bamCount ≤ b → groups svData' !! b = groups svData !! b).
Proof.
  intros Hvalid.
  destruct (consolidateOverlap_spec bamCount svData svs)
    as (st1 & st2 & svData' & _ & _ & Hinv & Hpost & Hrun & Hgroups & Hhigh & _).
  exists svData', (sc_svs st2). split; [done|]. split; [|done].
  intros b Hb. rewrite Hgroups by done.
  eapply relinkGroup_links_below; [done | | by apply Hvalid].
  intros d. by eapply scan_inv_deleted.
Qed.

Lemma scanStream_state chromToIndex localNode remoteNode searchInterval isExpectRepeat
    bamIndex (s : SVCandidateSetData * list bam_streamer) :
  ∃ g r, stateOf (scanStream chromToIndex localNode remoteNode searchInterval
                    isExpectRepeat bamIndex s)
         = (putDataGroup bamIndex g s.1, <[bamIndex := r]> s.2).
Proof. unfold scanStream. rewrite stateOf_zoom. eauto. Qed.

Lemma Done_stateOf {St : Type} (o : Outcome St) s : o = Done s → stateOf o = s.
Proof. by intros ->. Qed.

(** [addSVNodeData] creates groups for the samples only, and leaves the
    candidates and the number of streams alone. *)
Lemma addSVNodeData_Done chromToIndex locus localNodeIndex remoteNodeIndex s s' :
  addSVNodeData chromToIndex locus localNodeIndex remoteNodeIndex s = Done s' →
  svs s' = svs s
  ∧ length (_bamStreams s') = length (_bamStreams s)
  ∧ (∀ b, is_Some (groups (svData s') !! b) →
          is_Some (groups (svData s) !! b) ∨ b < length (_bamStreams s)).
Proof.
  unfold addSVNodeData.
  destruct (locus !! localNodeIndex) as [localNode|]; [|done].
  destruct (locus !! remoteNodeIndex) as [remoteNode|]; [|done].
  destruct (setNewSearchInterval _ _) as [rep search'].
  intros ([data1 streams1] & Hrun & ->)%zoom_Done. cbn [svs _bamStreams svData fst snd].
  split; [done|].
  pose proof (for_range_Done
    (fun i (st : SVCandidateSetData * list bam_streamer) =>
       length st.2 = length (_bamStreams s)
       ∧ (∀ b, is_Some (groups st.1 !! b) → is_Some (groups (svData s) !! b) ∨ b < i))
    _ _ _ _ _ Hrun) as Hinv.
  apply Hinv; clear Hinv.
  - cbn [fst snd groups]. split; [done | auto].
  - intros i st st1 Hi [Hlen Hdom] Hbody.
    destruct (scanStream_state chromToIndex localNode remoteNode
                {| tid := tid (getInterval localNode);
                   range := merge_range (range (getInterval localNode))
                              (getEvidenceRange localNode) |}
                (if negb rep
                 then (tid (getInterval localNode) =? tid (getInterval remoteNode))%Z
                 else rep) i st) as (g & r & Hst).
    rewrite (Done_stateOf _ _ Hbody) in Hst. subst st1. cbn [fst snd].
    split; [by rewrite length_insert|].
    intros b. unfold putDataGroup. cbn [groups]. rewrite lookup_insert.
    case_decide; [right; lia|]. intros Hb. apply Hdom in Hb as [?|?]; [by left | right; lia].
Qed.

(** What a normal end of [findCandidateSV] gives: the candidates are
    numbered by position, there are groups for the samples only, and every
    association refers to a candidate of the list. *)
Lemma findCandidateSV_Done chromToIndex edge s s' :
  findCandidateSV chromToIndex edge s = Done s' →
  ((∀ a b, candidateIndex (merge a b) = candidateIndex a) → index_stable (svs s'))
  ∧ (∀ b g, groups (svData s') !! b = Some g →
            b < length (_bamStreams s') ∧ links_below (length (svs s')) g).
Proof.
  unfold findCandidateSV.
  destruct (_ || _).
  { intros [= <-]. cbn [svs svData clear groups]. split; [by intros _ i sv|].
    intros b g. by rewrite lookup_empty. }
  intros (s1 & Hfirst & (s2 & Hsecond & Hcand)%andThen_Done)%andThen_Done.
  apply addSVNodeData_Done in Hfirst as (Hsvs1 & Hlen1 & Hdom1).
  cbn [svs _bamStreams svData clear groups] in *.
  assert (svs s2 = [] ∧ length (_bamStreams s2) = length (_bamStreams s)
          ∧ (∀ b, is_Some (groups (svData s2) !! b) → b < length (_bamStreams s)))
    as (Hsvs2 & Hlen2 & Hdom2).
  { assert (∀ b, is_Some (groups (svData s1) !! b) → b < length (_bamStreams s)) as Hd.
    { intros b Hb. apply Hdom1 in Hb as [Hb|Hb]; [|done].
      rewrite lookup_empty in Hb. by destruct Hb. }
    destruct (negb _).
    - apply addSVNodeData_Done in Hsecond as (Hsvs2 & Hlen2 & Hdom2).
      split; [congruence|]. split; [congruence|].
      intros b Hb. apply Hdom2 in Hb as [Hb|Hb]; [by apply Hd | lia].
    - injection Hsecond as <-. cbn [svs _bamStreams svData setSkipped groups].
      split; [done|]. split; [done|]. intros b. rewrite lookup_fmap, fmap_is_Some.
      apply Hd. }
  unfold getCandidatesFromData in Hcand.
  apply zoom_Done in Hcand as ([data4 svs4] & Hrun & ->).
  apply andThen_Done in Hrun as ([data3 svs3] & Hassign & Hcons).
  apply assignAll_Done in Hassign as (Hvalid & Hstable & Hhigh & Hdom3).
  cbn [svs _bamStreams svData fst snd].
  split.
  - intros Hmerge.
    destruct (consolidateOverlap_index_stable (length (_bamStreams s2)) data3 svs3)
      as (d & l & Hrun & Hst); [apply Hstable; [done|] |].
    + rewrite Hsvs2. by intros i sv.
    + rewrite Hrun in Hcons. by injection Hcons as <- <-.
  - destruct (consolidateOverlap_links_valid (length (_bamStreams s2)) data3 svs3 Hvalid)
      as (d & l & Hrun & Hlinks & Hkeep).
    rewrite Hrun in Hcons. injection Hcons as <- <-.
    intros b g Hg.
    assert (b < length (_bamStreams s2)) as Hb.
    { destruct (decide (b < length (_bamStreams s2))) as [|Hge]; [done|].
      rewrite Hkeep in Hg by lia.
      assert (is_Some (groups data3 !! b)) as Hs by (by eexists).
      apply Hdom3 in Hs as [Hs|?]; [|done]. apply Hdom2 in Hs. lia. }
    split; [done|]. specialize (Hlinks b Hb). unfold getDataGroup in Hlinks.
    by rewrite Hg in Hlinks.
Qed.

End Orchestrator.

Section ConsolidatorClaims.

Context `{Collaborators}.

(** C1.  In every candidate list that [consolidateOverlap] produces, the
    candidate at position [i] stores [candidateIndex = i].  The function
    always returns; it renumbers the list when it has deleted a candidate
    and leaves the list as it is otherwise, so the numbering it is handed by
    the assigner is the one it hands on.  The second part is the same
    statement for the list at the end of any edge evaluation
    ([SVCandidate::merge], whose body is not in the sources, is taken not to
    touch [candidateIndex]). *)
Theorem consolidateOverlap_candidateIndex :
  (∀ bamCount (svData : SVCandidateSetData) (svs : list SVCandidate),
     ∃ svData' svs',
       consolidateOverlap bamCount (svData, svs) = Done (svData', svs')
       ∧ ((index_stable svs ∨ length svs' < length svs) →
          ∀ i sv, i < length svs' → svs' !! i = Some sv → candidateIndex sv = i))
  ∧ (∀ chromToIndex edge s s',
       (∀ a b, candidateIndex (merge a b) = candidateIndex a) →
       findCandidateSV chromToIndex edge s = Done s' →
       ∀ i sv, i < length (svs s') → svs s' !! i = Some sv → candidateIndex sv = i).
Proof.
  split.
  - intros bamCount svData svs.
    destruct (consolidateOverlap_spec bamCount svData svs)
      as (st1 & st2 & svData' & _ & _ & Hinv & Hpost & Hrun & _).
    exists svData', (sc_svs st2). split; [done|].
    destruct Hinv as (Hlen1 & _ & _ & _ & _ & _ & Hsame).
    destruct Hpost as (Hlen & Hnone & Hsome & _).
    intros Hcase i sv _. destruct (decide (deletedSVIndex st1 = ∅)) as [He|Hne].
    + destruct (Hnone He) as [Heq _]. rewrite Heq, (Hsame He) in *.
      destruct Hcase as [Hst|Hlt]; [apply Hst | lia].
    + by apply Hsome.
  - intros chromToIndex edge s s' Hmerge Hrun i sv _.
    by apply (proj1 (findCandidateSV_Done _ _ _ _ Hrun) Hmerge).
Qed.

(** C2.  After [consolidateOverlap], every association of every sample's
    group refers to a candidate of the compacted list.  Each association
    went through the move map: an index that is in the map was replaced by
    the mapped one, the others stayed.  The map sends a merged-away
    candidate to the new position of the candidate it was merged into, and
    a surviving candidate, when it is in the map, to its own new position;
    an index that is not in the map is a surviving candidate that did not
    move.  The last part is the validity at the end of any edge
    evaluation. *)
Theorem consolidateOverlap_associations :
  (∀ bamCount (svData : SVCandidateSetData) (svs : list SVCandidate),
     links_valid bamCount svData (length svs) →
     ∃ st1 st2 svData',
       scanOverlap svs = Done st1
       ∧ compactCandidates (length svs) st1 = Done st2
       ∧ consolidateOverlap bamCount (svData, svs) = Done (svData', sc_svs st2)
       ∧ links_valid bamCount svData' (length (sc_svs st2))
       ∧ (∀ b, b < bamCount →
            getDataGroup svData' b
            = relinkGroup (moveSVIndex st2) (getDataGroup svData b))
       ∧ (∀ sva, index (relink (moveSVIndex st2) sva)
                 = default (index sva) (moveSVIndex st2 !! index sva))
       ∧ (∀ d, d ∈ deletedSVIndex st1 →
            ∃ t, merge_target svs d t ∧ (t ∉ deletedSVIndex st1)
                 ∧ moveSVIndex st2 !! d = Some (newpos (deletedSVIndex st1) t)
                 ∧ newpos (deletedSVIndex st1) t < length (sc_svs st2))
       ∧ (∀ i sv, i < length svs → i ∉ deletedSVIndex st1 →
            sc_svs st1 !! i = Some sv →
            default i (moveSVIndex st2 !! i) = newpos (deletedSVIndex st1) i
            ∧ ∃ sv', sc_svs st2 !! newpos (deletedSVIndex st1) i = Some sv'
                     ∧ bp1 sv' = bp1 sv ∧ bp2 sv' = bp2 sv)
       ∧ (∀ i, i < length svs → moveSVIndex st2 !! i = None →
            (i ∉ deletedSVIndex st1) ∧ newpos (deletedSVIndex st1) i = i
            ∧ i < length (sc_svs st2)))
  ∧ (∀ chromToIndex edge s s',
       findCandidateSV chromToIndex edge s = Done s' →
       ∀ b g readPair sva,
         groups (svData s') !! b = Some g → readPair ∈ pairs g →
         sva ∈ svLink readPair → index sva < length (svs s')).
Proof.
  split.
  - intros bamCount svData svs Hvalid.
    destruct (consolidateOverlap_spec bamCount svData svs)
      as (st1 & st2 & svData' & Hscan & Hcompact & Hinv & Hpost & Hrun & Hgroups & _).
    exists st1, st2, svData'.
    assert (∀ d, d ∈ deletedSVIndex st1 → d < length svs) as HD
      by (intros d; by eapply scan_inv_deleted).
    pose proof Hpost as (Hlen & _ & _ & Hcontent & Hkeep & Hdel & _).
    do 3 (split; [done|]). split; [|split; [done|]]; [|split; [|split; [|split]]].
    + intros b Hb. rewrite Hgroups by done.
      eapply relinkGroup_links_below; [done | done | by apply Hvalid].
    + apply relink_index.
    + intros d Hd. destruct (Hdel d Hd) as (t & Ht & HtD & Htgt & Hmv).
      exists t. repeat split; try done. rewrite Hlen. apply newpos_bound; [done|].
      specialize (HD d Hd). lia.
    + intros i sv Hi HiD Hsv. split; [by apply Hkeep | by eapply Hcontent].
    + intros i Hi Hnone.
      assert (i ∉ deletedSVIndex st1) as HiD.
      { intros HiD. destruct (Hdel i HiD) as (t & _ & _ & _ & Hmv). congruence. }
      pose proof (Hkeep i Hi HiD) as Hpos. rewrite Hnone in Hpos. simpl in Hpos.
      split; [done|]. split; [done|]. rewrite Hpos at 1. rewrite Hlen.
      by apply newpos_bound.
  - intros chromToIndex edge s s' Hrun b g readPair sva Hg Hrp Hsva.
    destruct (proj2 (findCandidateSV_Done _ _ _ _ Hrun) b g Hg) as [_ Hlinks].
    by eapply Hlinks.
Qed.

End ConsolidatorClaims.

Section ScenarioClaims.

Import Scenario.

#[local] Existing Instance scenario.

(** C3.  Three candidates with breakends [100,150)/[100,150),
    [140,200)/[100,150) and [500,600)/[100,150): the second intersects the
    first and the third intersects neither.  [consolidateOverlap] leaves
    two candidates, the first with the union [100,200) as its first
    breakend interval; every association to index 1 now refers to index 0,
    every association to index 2 to index 1, and the others are as they
    were. *)
Theorem three_candidates_consolidated (bamCount : nat) (svData : SVCandidateSetData) :
  (∃ c0 c1 c2, threeCandidates = [c0; c1; c2]
     ∧ isIntersect c0 c1 = true ∧ isIntersect c0 c2 = false ∧ isIntersect c1 c2 = false)
  ∧ ∃ svData',
      consolidateOverlap bamCount (svData, threeCandidates)
      = Done (svData',
              [ mkCandidate (breakend 100 200) (breakend 100 150) 0;
                mkCandidate (breakend 500 600) (breakend 100 150) 1 ])
      ∧ ∀ b, b < bamCount →
          pairs (getDataGroup svData' b)
          = (fun readPair =>
               mkPair ((fun sva => mkAssociation (remap3 (index sva)) (evtype sva))
                         <$> svLink readPair)
                      (read1 readPair) (read2 readPair))
            <$> pairs (getDataGroup svData b).
Proof.
  split; [by eexists _, _, _|].
  assert (scanOverlap threeCandidates >>> compactCandidates 3
          = Done (mkScan
                    [ mkCandidate (breakend 100 200) (breakend 100 150) 0;
                      mkCandidate (breakend 500 600) (breakend 100 150) 1 ]
                    (<[2 := 1]> (<[1 := 0]> ∅)) {[1]} [0; 1])) as Hrun
    by (vm_compute; reflexivity).
  destruct (relinkData_spec bamCount (<[2 := 1]> (<[1 := 0]> ∅)) svData)
    as (svData' & Hrelink & Hgroups & _).
  exists svData'. split.
  - unfold consolidateOverlap.
    change (length threeCandidates) with 3. rewrite Hrun.
    cbn [moveSVIndex sc_svs]. by rewrite Hrelink.
  - intros b Hb. rewrite Hgroups by done. unfold relinkGroup. cbn [pairs].
    apply list_fmap_ext. intros _ readPair _. unfold relinkPair. f_equal.
    apply list_fmap_ext. intros _ [i ev] _. unfold relink. cbn [index evtype].
    destruct i as [|[|[|i]]]; try done.
    rewrite !lookup_insert_ne by lia. by rewrite lookup_empty.
Qed.

End ScenarioClaims.

Section OrchestratorClaims.

Context `{Collaborators}.

(** C6.  An edge whose count in either direction is below the minimum of
    the graph gives an empty candidate list and the cleared evidence set,
    and the streams are not touched: nothing is collected, assigned or
    consolidated. *)
Theorem findCandidateSV_gated (chromToIndex : chrom_map) (edge : EdgeInfo) (s : EdgeState) :
  getEdgeCount (getLocus (locusIndex edge)) (nodeIndex1 edge) (nodeIndex2 edge)
    < getMinMergeEdgeCount
  ∨ getEdgeCount (getLocus (locusIndex edge)) (nodeIndex2 edge) (nodeIndex1 edge)
    < getMinMergeEdgeCount →
  findCandidateSV chromToIndex edge s = Done (mkEdgeState clear [] (_bamStreams s))
  ∧ groups clear = ∅.
Proof.
  intros Hlow. split; [|done]. unfold findCandidateSV.
  destruct Hlow as [Hlow|Hlow].
  - by rewrite (bool_decide_true _ Hlow).
  - rewrite (bool_decide_true _ Hlow). by rewrite orb_true_r.
Qed.

Lemma addSVNodeData_groups chromToIndex locus localNodeIndex remoteNodeIndex s s' :
  addSVNodeData chromToIndex locus localNodeIndex remoteNodeIndex s = Done s' →
  ∀ b, b < length (_bamStreams s) → is_Some (groups (svData s') !! b).
Proof.
  unfold addSVNodeData.
  destruct (locus !! localNodeIndex) as [localNode|]; [|done].
  destruct (locus !! remoteNodeIndex) as [remoteNode|]; [|done].
  destruct (setNewSearchInterval _ _) as [rep search'].
  intros ([data1 streams1] & Hrun & ->)%zoom_Done. cbn [svData fst snd].
  pose proof (for_range_Done
    (fun i (st : SVCandidateSetData * list bam_streamer) =>
       ∀ b, b < i → is_Some (groups st.1 !! b))
    _ _ _ _ _ Hrun) as Hinv.
  apply Hinv; clear Hinv.
  - intros; lia.
  - intros i st st1 Hi Hdom Hbody.
    destruct (scanStream_state chromToIndex localNode remoteNode
                {| tid := tid (getInterval localNode);
                   range := merge_range (range (getInterval localNode))
                              (getEvidenceRange localNode) |}
                (if negb rep
                 then (tid (getInterval localNode) =? tid (getInterval remoteNode))%Z
                 else rep) i st) as (g & r & Hst).
    rewrite (Done_stateOf _ _ Hbody) in Hst. subst st1. cbn [fst snd].
    intros b Hb. unfold putDataGroup. cbn [groups]. rewrite lookup_insert.
    case_decide; [done|]. apply Hdom. lia.
Qed.

Lemma assignAll_skipped chromToIndex bamCount svData svs svData' svs' :
  assignAll chromToIndex bamCount (svData, svs) = Done (svData', svs') →
  ∀ b, isSkipped (getDataGroup svData' b) = isSkipped (getDataGroup svData b).
Proof.
  unfold assignAll. cbn [fst snd].
  intros ([data1 [rc1 svs1]] & Hrun & [= -> ->])%zoom_Done.
  pose proof (for_range_Done
    (fun (i : nat) (st : SVCandidateSetData * (list SVObservation * list SVCandidate)) =>
       ∀ b, isSkipped (getDataGroup st.1 b) = isSkipped (getDataGroup svData b))
    _ _ _ _ _ Hrun) as Hinv.
  apply Hinv; clear Hinv; [done|].
  intros i [data s0] [data2 s2] Hi Hsk Hbody.
  apply candidatesFromGroup_Done in Hbody as (g & -> & _ & _ & Hg & _).
  cbn [fst] in *. intros b. rewrite getDataGroup_put. case_decide as Hib; [|done].
  subst b. by rewrite Hg.
Qed.

(** C5, as the code has it.  On a self-edge that passes the gate,
    [findCandidateSV] runs [addSVNodeData] once, with the node of the edge
    as the local and as the remote node, does not run it a second time, and
    marks the groups skipped before the observations are assigned: at a
    normal end every evidence group is marked skipped. *)
Theorem findCandidateSV_self_edge (chromToIndex : chrom_map) (edge : EdgeInfo)
    (s : EdgeState) :
  nodeIndex1 edge = nodeIndex2 edge →
  getMinMergeEdgeCount
    ≤ getEdgeCount (getLocus (locusIndex edge)) (nodeIndex1 edge) (nodeIndex1 edge) →
  findCandidateSV chromToIndex edge s
  = (addSVNodeData chromToIndex (getLocus (locusIndex edge))
       (nodeIndex1 edge) (nodeIndex1 edge) (mkEdgeState clear [] (_bamStreams s))
     >>> (fun s1 => Done (mkEdgeState (setSkipped (svData s1)) (svs s1) (_bamStreams s1)))
     >>> getCandidatesFromData chromToIndex)
  ∧ ∀ s', findCandidateSV chromToIndex edge s = Done s' →
          ∀ b g, groups (svData s') !! b = Some g → isSkipped g = true.
Proof.
  intros Hself Hgate.
  assert (findCandidateSV chromToIndex edge s
          = (addSVNodeData chromToIndex (getLocus (locusIndex edge))
               (nodeIndex1 edge) (nodeIndex1 edge) (mkEdgeState clear [] (_bamStreams s))
             >>> (fun s1 =>
                    Done (mkEdgeState (setSkipped (svData s1)) (svs s1) (_bamStreams s1)))
             >>> getCandidatesFromData chromToIndex)) as Heq.
  { unfold findCandidateSV. rewrite <- Hself.
    rewrite (bool_decide_false (_ < _)) by lia. cbn [orb].
    rewrite (bool_decide_true (_ = _)) by done. cbn [negb].
    by destruct (addSVNodeData _ _ _ _ _). }
  split; [done|]. intros s' Hrun b g Hg.
  destruct (proj2 (findCandidateSV_Done _ _ _ _ Hrun) b g Hg) as [Hb _].
  rewrite Heq in Hrun.
  apply andThen_Done in Hrun as (s2 & (s1 & Hfirst & [= <-])%andThen_Done & Hcand).
  pose proof (addSVNodeData_groups _ _ _ _ _ _ Hfirst) as Hdom.
  apply addSVNodeData_Done in Hfirst as (_ & Hlen1 & _).
  cbn [_bamStreams] in *.
  unfold getCandidatesFromData in Hcand. cbn [_bamStreams svData svs] in Hcand.
  apply zoom_Done in Hcand as ([data4 svs4] & Hrun & ->).
  apply andThen_Done in Hrun as ([data3 svs3] & Hassign & Hcons).
  cbn [svData _bamStreams] in *.
  pose proof (assignAll_skipped _ _ _ _ _ _ Hassign b) as Hsk3.
  destruct (consolidateOverlap_spec (length (_bamStreams s1)) data3 svs3)
    as (st1 & st2 & d & _ & _ & _ & _ & Hrun & Hgroups & _).
  rewrite Hrun in Hcons. injection Hcons as <- <-.
  cbn [svData _bamStreams fst snd] in *.
  rewrite Hlen1 in Hb. specialize (Hgroups b ltac:(lia)).
  unfold getDataGroup at 1 in Hgroups. rewrite Hg in Hgroups.
  change (default newGroup (Some g)) with g in Hgroups. rewrite Hgroups. unfold relinkGroup. cbn [isSkipped]. rewrite Hsk3.
  unfold getDataGroup, setSkipped. cbn [groups]. rewrite lookup_fmap.
  destruct (Hdom b) as [g1 ->]; [lia | done].
Qed.

End OrchestratorClaims.

Section CollectorClaims.

Context `{Collaborators}.

Lemma addSVNodeRead_interesting chromToIndex localNode remoteNode bamRead bamIndex
    isExpectRepeat g :
  interesting bamRead bamIndex →
  addSVNodeRead chromToIndex localNode remoteNode bamRead bamIndex isExpectRepeat g
  = if bool_decide (maxDataSize ≤ group_size g) then Done (setIncomplete g)
    else scanLoci localNode remoteNode bamRead isExpectRepeat
           (getSVLoci bamRead bamIndex chromToIndex []) g.
Proof.
  intros [Hf Hi]. unfold addSVNodeRead. rewrite Hf.
  destruct (negb (isProperPair bamRead bamIndex) && isLargeFragment bamRead bamIndex);
    simpl in *; [done|]. by rewrite Hi.
Qed.

Lemma scanLoci_passed_over localNode remoteNode bamRead isExpectRepeat skipped rest g :
  Forall (passed_over localNode remoteNode) skipped →
  scanLoci localNode remoteNode bamRead isExpectRepeat (skipped ++ rest) g
  = scanLoci localNode remoteNode bamRead isExpectRepeat rest g.
Proof.
  induction 1 as [|locus skipped [[Hge Hle] Hstep] _ IH]; [done|].
  cbn [app scanLoci].
  rewrite (bool_decide_true (1 ≤ _)) by done. rewrite (bool_decide_true (_ ≤ 2)) by done.
  cbn [andb negb].
  destruct Hstep as [-> | (i & side & -> & -> & ->)]; by cbn [negb].
Qed.


(** C10.  [checkResult] returns at once when the candidate list is empty,
    whatever the evidence set holds: associations, also with indices that
    no candidate of the empty list answers to, raise nothing. *)
Theorem checkResult_empty (bamStreams : list bam_streamer) (svData : SVCandidateSetData) :
  checkResult bamStreams svData [] = Done (∅, ∅).
Proof. done. Qed.

End CollectorClaims.

(** ** The capacity of a group *)

Lemma stateOf_andThen {St : Type} (I : St → Prop) (o : Outcome St) (k : St → Outcome St) :
  I (stateOf o) → (∀ s, I s → I (stateOf (k s))) → I (stateOf (o >>> k)).
Proof. destruct o as [s|f s]; simpl; auto. Qed.


Section Capacity.

Context `{Collaborators}.




Section WithAdd.

(** [add] stores at most one more pair. *)
Hypothesis add_one : ∀ bamRead isExpectRepeat g,
  group_size (stateOf (group_add bamRead isExpectRepeat g)) ≤ S (group_size g).




End WithAdd.


End Capacity.

Lemma for_range_add {St : Type} (body : nat → St → Outcome St) a : ∀ b from s,
  for_range from (a + b) body s
  = for_range from a body s >>> for_range (from + a) b body.
Proof.
  induction a as [|a IH]; intros b from s.
  - simpl. by rewrite Nat.add_0_r.
  - change (for_range from (S a + b) body s)
      with (body from s >>> for_range (S from) (a + b) body).
    change (for_range from (S a) body s)
      with (body from s >>> for_range (S from) a body).
    destruct (body from s) as [s1|f s1]; [|done]. cbn [andThen].
    rewrite IH. by replace (S from + a) with (from + S a) by lia.
Qed.

Section CapacityClaim.

Context `{Collaborators}.

Lemma readLoop_Done chromToIndex localNode remoteNode bamIndex isExpectRepeat reads :
  ∀ g g' r,
  readLoop chromToIndex localNode remoteNode bamIndex isExpectRepeat reads g = Done (g', r) →
  r = [].
Proof.
  induction reads as [|bamRead reads IH]; intros g g' r; cbn [readLoop].
  - by intros [= _ <-].
  - destruct (addSVNodeRead _ _ _ _ _ _ _) as [g1|f g1]; [apply IH | done].
Qed.






End CapacityClaim.

(** ** The claims on concrete inputs *)

Section Instances.

Import Scenario.

Lemma threeCandidates_stable : index_stable threeCandidates.
Proof. intros [|[|[|i]]] sv; simpl; intros [= <-]; done. Qed.

Lemma threeLinks_valid : links_valid 1 threeLinks (length threeCandidates).
Proof.
  intros b Hb. assert (b = 0) as -> by lia. intros readPair sva.
  intros ->%list_elem_of_singleton. cbn [svLink].
  rewrite !elem_of_cons. intros [->|[->|[->|Hin]]]; simpl; try lia.
  by apply elem_of_nil in Hin.
Qed.



(** C1 on the three candidates and on the self-edge run. *)
Lemma consolidateOverlap_candidateIndex_witness :
  (index_stable threeCandidates
   ∧ ∃ svData' svs',
       consolidateOverlap (H0 := scenario) 1 (threeLinks, threeCandidates)
       = Done (svData', svs')
       ∧ ∀ i sv, i < length svs' → svs' !! i = Some sv → candidateIndex sv = i)
  ∧ ∃ s', findCandidateSV (H0 := selfEdgeRun) tt selfEdge staleState = Done s'
          ∧ ∀ i sv, i < length (svs s') → svs s' !! i = Some sv → candidateIndex sv = i.
Proof.
  split.
  - split; [exact threeCandidates_stable|].
    destruct (proj1 (@consolidateOverlap_candidateIndex toyOpaque scenario)
                1 threeLinks threeCandidates) as (d & l & Hrun & Hst).
    exists d, l. split; [exact Hrun|]. apply Hst. left. exact threeCandidates_stable.
  - eexists. split; [vm_compute; reflexivity|].
    apply (proj2 (@consolidateOverlap_candidateIndex toyOpaque selfEdgeRun)
             tt selfEdge staleState); [reflexivity | vm_compute; reflexivity].
Defined.

(** C2 on the three candidates with an association to each. *)
Lemma consolidateOverlap_associations_witness :
  links_valid 1 threeLinks (length threeCandidates)
  ∧ ∃ svData' svs',
      consolidateOverlap (H0 := scenario) 1 (threeLinks, threeCandidates)
      = Done (svData', svs')
      ∧ links_valid 1 svData' (length svs').
Proof.
  split; [exact threeLinks_valid|].
  destruct (proj1 (@consolidateOverlap_associations toyOpaque scenario)
              1 threeLinks threeCandidates threeLinks_valid)
    as (st1 & st2 & d & _ & _ & Hrun & Hvalid & _).
  exists d, (sc_svs st2). split; [exact Hrun | exact Hvalid].
Defined.


(** C8 on a pair with its first read only. *)
Lemma pair_type_exclusion_witness :
  candidatesFromPair (H0 := scenario) tt 0 ((@mkPair toyOpaque) [] (Some goodRead) None) ([], [])
  = Done ((@mkPair toyOpaque) [mkAssociation 0 2] (Some goodRead) None,
          ([pairObs; clipObs], [obsCandidate clipObs])).
Proof.
  exact (@pair_type_exclusion toyOpaque scenario tt 0 ((@mkPair toyOpaque) [] (Some goodRead) None)
           [] [] goodRead (or_introl (conj eq_refl eq_refl))).
Defined.

(** C6 on the graph whose minimum is above the count of the edge. *)
Lemma findCandidateSV_gated_witness :
  getEdgeCount (Collaborators := gatedRun) locusA 0 0
    < getMinMergeEdgeCount (Collaborators := gatedRun)
  ∧ findCandidateSV (H0 := gatedRun) tt selfEdge staleState
    = Done (mkEdgeState (mkData ∅ []) [] [[faultyRead]]).
Proof.
  assert (getEdgeCount (Collaborators := gatedRun) locusA 0 0
          < getMinMergeEdgeCount (Collaborators := gatedRun)) as Hlow
    by (vm_compute; lia).
  split; [exact Hlow|].
  exact (proj1 (@findCandidateSV_gated toyOpaque gatedRun tt selfEdge staleState
                  (or_introl Hlow))).
Defined.

(** C5: the self-edge of [locusA] passes the gate, and the group of
    sample 0 ends with the pair of [goodRead], read from the stream that
    [addSVNodeData] has positioned and drained; without that call the
    evaluation would end otherwise. *)
Lemma self_edge_is_scanned :
  nodeIndex1 selfEdge = nodeIndex2 selfEdge
  ∧ getMinMergeEdgeCount (Collaborators := selfEdgeRun)
    ≤ getEdgeCount (Collaborators := selfEdgeRun) locusA 0 0
  ∧ (∃ s', findCandidateSV (H0 := selfEdgeRun) tt selfEdge staleState = Done s'
           ∧ pairs (getDataGroup (svData s') 0)
             = [(@mkPair toyOpaque) [mkAssociation 0 2] (Some goodRead) None]
           ∧ isSkipped (getDataGroup (svData s') 0) = true
           ∧ _bamStreams s' = [[]])
  ∧ findCandidateSV (H0 := selfEdgeRun) tt selfEdge staleState
    ≠ getCandidatesFromData (H0 := selfEdgeRun) tt
        (mkEdgeState (setSkipped (clear (H0 := selfEdgeRun))) []
           (_bamStreams staleState)).
Proof.
  split; [reflexivity|]. split; [vm_compute; lia|]. split.
  - eexists. split; [vm_compute; reflexivity|]. by vm_compute.
  - intros Heq.
    apply (f_equal (fun o : Outcome EdgeState => _bamStreams (stateOf o))) in Heq.
    vm_compute in Heq. discriminate Heq.
Qed.

(** C5 on the self-edge of [locusA]. *)
Lemma findCandidateSV_self_edge_witness :
  nodeIndex1 selfEdge = nodeIndex2 selfEdge
  ∧ getMinMergeEdgeCount (Collaborators := selfEdgeRun)
    ≤ getEdgeCount (Collaborators := selfEdgeRun) locusA 0 0
  ∧ ∃ s' g, findCandidateSV (H0 := selfEdgeRun) tt selfEdge staleState = Done s'
            ∧ groups (svData s') !! 0 = Some g
            ∧ isSkipped g = true.
Proof.
  assert (getMinMergeEdgeCount (Collaborators := selfEdgeRun)
          ≤ getEdgeCount (Collaborators := selfEdgeRun) locusA 0 0) as Hgate
    by (vm_compute; lia).
  split; [reflexivity|]. split; [exact Hgate|].
  eexists _, ((@mkGroup toyOpaque)
                [(@mkPair toyOpaque) [mkAssociation 0 2] (Some goodRead) None] false true).
  split; [vm_compute; reflexivity|]. split; [vm_compute; reflexivity|].
  refine (proj2 (@findCandidateSV_self_edge toyOpaque selfEdgeRun tt selfEdge staleState
                   eq_refl Hgate) _ _ 0 _ _); vm_compute; reflexivity.
Defined.




End Instances.

(** * Further properties *)

(** ** More on loops *)

Lemma for_range_fails_only {St : Type} (F : Failure → Prop)
    (body : nat → St → Outcome St) count : ∀ from s,
  (∀ i s, fails_only F (body i s)) → fails_only F (for_range from count body s).
Proof.
  induction count as [|count IH]; intros from s Hbody; simpl; [done|].
  pose proof (Hbody from s) as H1. destruct (body from s) as [s1|f s1]; simpl; auto.
Qed.

Lemma foreach_fails_only {A St : Type} (F : Failure → Prop)
    (body : A → St → Outcome St) xs : ∀ s,
  (∀ x s, fails_only F (body x s)) → fails_only F (foreach body xs s).
Proof.
  induction xs as [|x xs IH]; intros s Hbody; simpl; [done|].
  pose proof (Hbody x s) as H1. destruct (body x s) as [s1|f s1]; simpl; auto.
Qed.

Lemma foreach_ref_fails_only {A St : Type} (F : Failure → Prop)
    (body : A → St → Outcome (A * St)) xs : ∀ s,
  (∀ x s, fails_only F (body x s)) → fails_only F (foreach_ref body xs s).
Proof.
  induction xs as [|x xs IH]; intros s Hbody; simpl; [done|].
  pose proof (Hbody x s) as H1. destruct (body x s) as [[x1 s1]|f [x1 s1]]; simpl; [|done].
  specialize (IH s1 Hbody). by destruct (foreach_ref body xs s1).
Qed.

Lemma fails_only_zoom {St T : Type} (F : Failure → Prop) (put : T → St) (o : Outcome T) :
  fails_only F o → fails_only F (zoom put o).
Proof. by destruct o. Qed.

Lemma fails_only_andThen {St : Type} (F : Failure → Prop) (o : Outcome St)
    (k : St → Outcome St) :
  fails_only F o → (∀ s, fails_only F (k s)) → fails_only F (o >>> k).
Proof. destruct o; simpl; auto. Qed.

(** ** The scan of [consolidateOverlap], once more *)

Section ScanMore.

Context `{Collaborators}.

(** The inner loop changes nothing when no candidate it looks at
    intersects the outer one. *)
Lemma innerLoop_no_overlap o n : ∀ i st,
  i + n = o → o < length (sc_svs st) →
  (∀ j a b, i ≤ j → j < o → sc_svs st !! j = Some a → sc_svs st !! o = Some b →
            isIntersect a b = false) →
  innerLoop n i o st = Done st.
Proof.
  induction n as [|n IH]; intros i st Hi Ho Hno; simpl; [done|].
  case_decide;
    [apply IH; [lia | done | intros j a b Hj1 Hj2 Ha Hb; apply (Hno j a b); (done || lia)]|].
  destruct (lookup_lt_is_Some_2 (sc_svs st) i) as [inner Hinner]; [lia|].
  destruct (lookup_lt_is_Some_2 (sc_svs st) o) as [outer Houter]; [lia|].
  rewrite Hinner, Houter. rewrite (Hno i inner outer) by (done || lia).
  apply IH; [lia | done | intros j a b Hj1 Hj2 Ha Hb; apply (Hno j a b); (done || lia)].
Qed.

(** The inner loop deletes nothing but the outer index. *)
Lemma innerLoop_deleted o n : ∀ i st st',
  innerLoop n i o st = Done st' →
  deletedSVIndex st' = deletedSVIndex st
  ∨ deletedSVIndex st' = {[o]} ∪ deletedSVIndex st.
Proof.
  induction n as [|n IH]; intros i st st'; simpl; [intros [= <-]; by left|].
  case_decide; [apply IH|].
  destruct (sc_svs st !! i) as [inner|]; [|done].
  destruct (sc_svs st !! o) as [outer|]; [|done].
  destruct (isIntersect inner outer); [|apply IH].
  cbn [innerIndexShift sc_svs moveSVIndex deletedSVIndex].
  destruct (bool_decide _); [|done]. cbn [assert andThen].
  cbn [innerIndexShift sc_svs moveSVIndex deletedSVIndex].
  destruct (innerIndexShift st !! i) as [shift|]; [|done].
  destruct (bool_decide _); [|done]. cbn [assert andThen].
  intros [= <-]. by right.
Qed.

(** The inner loop deletes the outer index when some candidate it looks at
    intersects it. *)
Lemma innerLoop_match o n : ∀ i st st',
  i + n = o →
  (∃ t a b, i ≤ t ∧ t < o ∧ (t ∉ deletedSVIndex st) ∧ sc_svs st !! t = Some a
            ∧ sc_svs st !! o = Some b ∧ isIntersect a b = true) →
  innerLoop n i o st = Done st' → o ∈ deletedSVIndex st'.
Proof.
  induction n as [|n IH]; intros i st st' Hi (t & a & b & Hit & Hto & HtD & Ha & Hb & Hab);
    simpl; [lia|].
  case_decide as HiD.
  { apply IH; [lia|]. exists t, a, b. repeat split; try done.
    destruct (decide (t = i)) as [->|]; [done | lia]. }
  destruct (sc_svs st !! i) as [inner|] eqn:Hinner; [|done].
  rewrite Hb. destruct (isIntersect inner b) eqn:Hisect.
  - cbn [innerIndexShift sc_svs moveSVIndex deletedSVIndex].
    destruct (bool_decide _); [|done]. cbn [assert andThen].
    cbn [innerIndexShift sc_svs moveSVIndex deletedSVIndex].
    destruct (innerIndexShift st !! i) as [shift|]; [|done].
    destruct (bool_decide _); [|done]. cbn [assert andThen].
    intros [= <-]. cbn [deletedSVIndex]. apply elem_of_union_l. by apply elem_of_singleton.
  - apply IH; [lia|]. exists t, a, b. repeat split; try done.
    destruct (decide (t = i)) as [->|]; [congruence | lia].
Qed.

Lemma outerBody_deleted o st st' :
  outerBody o st = Done st' →
  deletedSVIndex st' = deletedSVIndex st
  ∨ deletedSVIndex st' = {[o]} ∪ deletedSVIndex st.
Proof.
  unfold outerBody. destruct (if bool_decide (o ≤ 1) then _ else _) as [prev|]; [|done].
  intros Hrun. by apply innerLoop_deleted in Hrun.
Qed.

Lemma outerBody_match o st st' t :
  first_overlap st o t → outerBody o st = Done st' → o ∈ deletedSVIndex st'.
Proof.
  intros (Hto & HtD & (a & b & Ha & Hb & Hab) & _). unfold outerBody.
  destruct (if bool_decide (o ≤ 1) then _ else _) as [prev|]; [|done].
  apply innerLoop_match; [lia|]. exists t, a, b. repeat split; (done || lia).
Qed.

Lemma scan_deleted_mono count : ∀ from st st',
  for_range from count outerBody st = Done st' →
  deletedSVIndex st ⊆ deletedSVIndex st'.
Proof.
  induction count as [|count IH]; intros from st st'; simpl; [by intros [= <-]|].
  intros (st1 & Hbody & Hrest)%andThen_Done.
  apply IH in Hrest. apply outerBody_deleted in Hbody as [Heq|Heq];
    rewrite Heq in Hrest; [done|].
  intros x Hx. apply Hrest. by apply elem_of_union_r.
Qed.

(** X1.  The scan of [consolidateOverlap] deletes a candidate exactly when,
    at the time the outer loop reaches it, an earlier candidate that is
    still there intersects it; the candidate at index 0 is never
    deleted. *)
Theorem scanOverlap_deleted_iff (svs : list SVCandidate) :
  ∃ st, scanOverlap svs = Done st
        ∧ (0 ∉ deletedSVIndex st)
        ∧ ∀ d, d ∈ deletedSVIndex st
               ↔ (1 ≤ d ∧ d < length svs ∧ ∃ t, merge_target svs d t).
Proof.
  destruct (scanOverlap_inv svs) as (st & Hrun & Hinv).
  exists st. split; [done|].
  destruct Hinv as (_ & _ & _ & HD & Hmv & _).
  split; [intros Hzero; apply HD in Hzero; lia|].
  intros d. split.
  - intros Hd. destruct (HD d Hd) as [H1 H2]. destruct (Hmv d Hd) as (t & _ & _ & Ht & _).
    split; [done|]. split; [lia | by exists t].
  - intros (H1 & Hlt & t & st_d & Hreach & Hfirst).
    unfold scanOverlap in Hrun. unfold scan_reaches in Hreach.
    replace (length svs - 1) with ((d - 1) + (1 + (length svs - 1 - d))) in Hrun by lia.
    rewrite for_range_add, Hreach in Hrun. cbn [andThen] in Hrun.
    replace (1 + (d - 1)) with d in Hrun by lia.
    change (for_range d (1 + (length svs - 1 - d)) outerBody st_d)
      with (outerBody d st_d >>> for_range (S d) (length svs - 1 - d) outerBody) in Hrun.
    apply andThen_Done in Hrun as (st1 & Hbody & Hrest).
    apply scan_deleted_mono in Hrest. apply Hrest. by eapply outerBody_match.
Qed.

(** X2.  When no candidate intersects an earlier one, [consolidateOverlap]
    leaves the candidate list and the evidence set exactly as they are. *)
Theorem consolidateOverlap_no_overlap (bamCount : nat) (svData : SVCandidateSetData)
    (svs : list SVCandidate) :
  (∀ i j a b, i < j → svs !! i = Some a → svs !! j = Some b → isIntersect a b = false) →
  consolidateOverlap bamCount (svData, svs) = Done (svData, svs).
Proof.
  intros Hno.
  assert (∃ st, scanOverlap svs = Done st ∧ sc_svs st = svs
                ∧ moveSVIndex st = ∅ ∧ deletedSVIndex st = ∅) as (st & Hscan & Hsvs & Hmv & HD).
  { unfold scanOverlap.
    destruct (for_range_inv
                (fun o st => sc_svs st = svs ∧ moveSVIndex st = ∅ ∧ deletedSVIndex st = ∅
                             ∧ length (innerIndexShift st) + 1 = o)
                outerBody (length svs - 1) 1 (mkScan svs ∅ ∅ []))
      as (st & Hrun & Hsvs & Hmv & HD & _); [done | | by exists st].
    intros o st Ho (Hsvs & Hmv & HD & Hlen). unfold outerBody.
    assert (∃ prev, (if bool_decide (o ≤ 1) then Some 0
                     else innerIndexShift st !! (o - 2)) = Some prev) as [prev ->].
    { case_bool_decide; [by eexists|]. apply lookup_lt_is_Some_2. lia. }
    eexists. split.
    - apply innerLoop_no_overlap; cbn [sc_svs]; [lia | rewrite Hsvs; lia |].
      rewrite Hsvs. intros j a b _ Hj. by apply Hno.
    - cbn [sc_svs moveSVIndex deletedSVIndex innerIndexShift].
      rewrite length_app. simpl. repeat split; (done || lia). }
  unfold consolidateOverlap. rewrite Hscan. cbn [andThen].
  unfold compactCandidates. rewrite decide_True by done.
  unfold relinkData. rewrite decide_True by done. cbn [zoom]. by rewrite Hsvs.
Qed.

End ScanMore.

(** ** What compaction keeps *)

Lemma survivors_from_lookup D l : ∀ i k pos,
  k < length l → (i + k) ∉ D → pos + ndel D (i + k) = k + ndel D i →
  survivors_from D i l !! pos = l !! k.
Proof.
  induction l as [|sv l IH]; intros i k pos Hk HkD Hpos; simpl in *; [lia|].
  destruct k as [|k].
  - rewrite Nat.add_0_r in *. rewrite decide_False by done.
    by replace pos with 0 by lia.
  - replace (i + S k) with (S i + k) in * by lia.
    assert (i < S i + k) as Hlt by lia.
    case_decide as HiD.
    + apply IH; [lia | done |]. rewrite ndel_S_in by done. lia.
    + pose proof (newpos_lt D i (S i + k) HiD Hlt) as Hnp.
      destruct pos as [|pos]; [lia|]. simpl.
      apply IH; [lia | done |]. rewrite ndel_S_notin by done. lia.
Qed.

Lemma survivors_from_length D l : ∀ i,
  length (survivors_from D i l) + ndel D (i + length l) = length l + ndel D i.
Proof.
  induction l as [|sv l IH]; intros i; simpl; [by rewrite Nat.add_0_r|].
  replace (i + S (length l)) with (S i + length l) by lia.
  case_decide as HiD.
  - rewrite IH, ndel_S_in by done. lia.
  - cbn [length]. specialize (IH (S i)). rewrite ndel_S_notin in IH by done. lia.
Qed.

(** Every position of the compacted list is the new position of a
    survivor. *)
Lemma newpos_onto D n : ∀ p,
  p + ndel D n < n → ∃ k, k < n ∧ (k ∉ D) ∧ newpos D k = p.
Proof.
  induction n as [|n IH]; intros p Hp; [lia|].
  destruct (decide (n ∈ D)) as [HnD|HnD].
  - rewrite ndel_S_in in Hp by done.
    destruct (IH p) as (k & Hk & HkD & Hpos); [lia|]. exists k. split; [lia | done].
  - rewrite ndel_S_notin in Hp by done. pose proof (ndel_le D n).
    destruct (decide (p + ndel D n < n)) as [Hlt|Hge].
    + destruct (IH p Hlt) as (k & Hk & HkD & Hpos). exists k. split; [lia | done].
    + exists n. split; [lia|]. split; [done|]. unfold newpos. lia.
Qed.

Section CompactionMore.

Context `{Collaborators}.

(** X3.  The candidates [consolidateOverlap] returns are the ones the scan
    did not delete, in their original order and with the breakends the scan
    left them with: nothing else is dropped, nothing is duplicated or
    reordered. *)
Theorem consolidateOverlap_survivors (bamCount : nat) (svData : SVCandidateSetData)
    (svs : list SVCandidate) :
  ∃ st1 svData' svs',
    scanOverlap svs = Done st1
    ∧ consolidateOverlap bamCount (svData, svs) = Done (svData', svs')
    ∧ breakends <$> svs'
      = breakends <$> survivors_from (deletedSVIndex st1) 0 (sc_svs st1)
    ∧ length svs' + size (deletedSVIndex st1) = length svs.
Proof.
  destruct (consolidateOverlap_spec bamCount svData svs)
    as (st1 & st2 & svData' & Hscan & _ & Hinv & Hpost & Hrun & _).
  exists st1, svData', (sc_svs st2). split; [done|]. split; [done|].
  assert (∀ d, d ∈ deletedSVIndex st1 → d < length svs) as HD
    by (intros d; by eapply scan_inv_deleted).
  destruct Hinv as (Hlen1 & _).
  destruct Hpost as (Hlen & _ & _ & Hcontent & _).
  set (D := deletedSVIndex st1) in *. set (n := length svs) in *.
  pose proof (ndel_le D n) as Hle.
  pose proof (survivors_from_length D (sc_svs st1) 0) as Hslen.
  rewrite Hlen1 in Hslen. fold n in Hslen. simpl in Hslen.
  split.
  - apply list_eq_same_length with (n - ndel D n);
      [rewrite length_fmap; lia | by rewrite length_fmap |].
    intros p x y Hp. rewrite !list_lookup_fmap.
    destruct (newpos_onto D n p) as (k & Hk & HkD & Hpos); [lia|].
    destruct (lookup_lt_is_Some_2 (sc_svs st1) k) as [sv Hsv]; [lia|].
    destruct (Hcontent k sv Hk HkD Hsv) as (sv' & Hsv' & Hb1 & Hb2).
    rewrite <- Hpos, Hsv'.
    rewrite (survivors_from_lookup D (sc_svs st1) 0 k (newpos D k));
      [| lia | done | unfold newpos; pose proof (ndel_le D k); simpl; lia].
    rewrite Hsv. simpl. intros [= <-] [= <-]. unfold breakends. by rewrite Hb1, Hb2.
  - rewrite Hlen, (size_ndel D n HD). lia.
Qed.

(** X4.  [consolidateOverlap] rewrites indices and nothing else in the
    evidence set: in the group of every sample the pairs are the same in
    number and order, each with its reads and with as many associations of
    the same evidence types, and the flags of the group are as before;
    groups beyond the samples and the search intervals are not touched. *)
Theorem consolidateOverlap_evidence_shape (bamCount : nat)
    (svData : SVCandidateSetData) (svs : list SVCandidate) :
  ∃ svData' svs',
    consolidateOverlap bamCount (svData, svs) = Done (svData', svs')
    ∧ (∀ b, b < bamCount →
         pair_shape <$> pairs (getDataGroup svData' b)
         = pair_shape <$> pairs (getDataGroup svData b)
         ∧ isIncomplete (getDataGroup svData' b) = isIncomplete (getDataGroup svData b)
         ∧ isSkipped (getDataGroup svData' b) = isSkipped (getDataGroup svData b))
    ∧ (∀ b, bamCount ≤ b → groups svData' !! b = groups svData !! b)
    ∧ searchIntervals svData' = searchIntervals svData.
Proof.
  destruct (consolidateOverlap_spec bamCount svData svs)
    as (st1 & st2 & svData' & _ & _ & _ & _ & Hrun & Hgroups & Hhigh & Hsearch).
  exists svData', (sc_svs st2). split; [done|]. split; [|by split].
  intros b Hb. rewrite (Hgroups b Hb). unfold relinkGroup. cbn [pairs isIncomplete isSkipped].
  split; [|done]. rewrite <- list_fmap_compose. apply list_fmap_ext.
  intros _ rp _. unfold pair_shape, relinkPair. simpl. do 2 f_equal.
  rewrite <- list_fmap_compose. apply list_fmap_ext. intros _ sva _. simpl.
  unfold relink. by destruct (moveSVIndex st2 !! index sva).
Qed.

End CompactionMore.

(** ** What the assigner adds *)

Section AssignerMore.

Context `{Collaborators}.

Lemma assignObservation_accounting isExcludePairType readCand readPair svs :
  let r := assignObservation isExcludePairType readCand (readPair, svs) in
  read1 r.1 = read1 readPair ∧ read2 r.1 = read2 readPair
  ∧ (∃ new, svLink r.1 = svLink readPair ++ new
       ∧ evtype <$> new
         = (if gets_link isExcludePairType readCand then [obs_evtype readCand] else [])
       ∧ Forall (fun sva => index sva < length r.2) new)
  ∧ length svs ≤ length r.2
  ∧ length r.2 ≤ length svs + Nat.b2n (considered isExcludePairType readCand).
Proof.
  unfold assignObservation, gets_link, considered.
  destruct (isExcludePairType && isPairType (obs_evtype readCand)); cbn [negb andb Nat.b2n].
  { cbn [fst snd]. repeat split; try lia. exists []. by rewrite app_nil_r. }
  destruct (matchCandidate readCand _ 0 svs readPair) as [[rp svs1]|] eqn:Hm.
  - destruct (matchCandidate_Some _ _ _ _ _ _ _ Hm) as (i & sv & Hi & _ & _ & -> & ->).
    pose proof (lookup_lt_Some _ _ _ Hi) as Hlt. cbn [fst snd].
    rewrite length_insert.
    destruct (isSpanningSV _); cbn [push_link svLink read1 read2].
    + repeat split; try lia. eexists. split; [done|]. split; [done|].
      constructor; [by simpl | constructor].
    + repeat split; try lia. exists []. by rewrite app_nil_r.
  - cbn [fst snd]. rewrite length_app. cbn [length].
    destruct (isSpanningSV _); cbn [push_link svLink read1 read2].
    + repeat split; try lia. eexists. split; [done|]. split; [done|].
      constructor; [simpl; lia | constructor].
    + repeat split; try lia. exists []. by rewrite app_nil_r.
Qed.

(** X5.  What [assignPairObservationsToSVCandidates] does to a pair and to
    the candidate list, counted: the reads of the pair stay; the
    associations it had stay, followed by one new association for each
    observation that is spanning and not excluded, in observation order and
    with its evidence type, each to a candidate of the resulting list; the
    list never shrinks and grows by at most one candidate for each
    observation that is not excluded. *)
Theorem assignPairObservations_accounting (isExcludePairType : bool)
    (readCandidates : list SVObservation) (readPair : SVCandidateSetReadPair)
    (svs : list SVCandidate) :
  let r := assignPairObservationsToSVCandidates isExcludePairType readCandidates
             (readPair, svs) in
  read1 r.1 = read1 readPair ∧ read2 r.1 = read2 readPair
  ∧ (∃ new, svLink r.1 = svLink readPair ++ new
       ∧ evtype <$> new
         = obs_evtype <$> filter (fun rc => gets_link isExcludePairType rc = true)
                            readCandidates
       ∧ Forall (fun sva => index sva < length r.2) new)
  ∧ length svs ≤ length r.2
  ∧ length r.2
    ≤ length svs
      + length (filter (fun rc => considered isExcludePairType rc = true) readCandidates).
Proof.
  unfold assignPairObservationsToSVCandidates. revert readPair svs.
  induction readCandidates as [|rc rcs IH]; intros readPair svs; cbn [foldl].
  { cbn [fst snd]. repeat split; try (simpl; lia). exists []. by rewrite app_nil_r. }
  pose proof (assignObservation_accounting isExcludePairType rc readPair svs) as Hstep.
  destruct (assignObservation isExcludePairType rc (readPair, svs)) as [rp1 svs1].
  cbn [fst snd] in Hstep.
  destruct Hstep as (Hr1 & Hr2 & (new1 & Hl1 & He1 & Hi1) & Hle1 & Hub1).
  specialize (IH rp1 svs1). cbn zeta in IH.
  destruct IH as (Hr3 & Hr4 & (new2 & Hl2 & He2 & Hi2) & Hle2 & Hub2).
  cbn zeta. split; [congruence|]. split; [congruence|]. split; [|split].
  - exists (new1 ++ new2). split; [by rewrite Hl2, Hl1, app_assoc|]. split.
    + rewrite fmap_app, He1, He2, filter_cons.
      destruct (gets_link isExcludePairType rc) eqn:Hlk.
      * by rewrite decide_True.
      * by rewrite decide_False.
    + apply Forall_app. split; [|done].
      eapply Forall_impl; [exact Hi1|]. simpl. intros sva Hsva. lia.
  - lia.
  - rewrite filter_cons. destruct (considered isExcludePairType rc) eqn:Hc.
    + rewrite decide_True by done. simpl in *. lia.
    + rewrite decide_False by done. simpl in *. lia.
Qed.

End AssignerMore.

(** ** When [getCandidatesFromData] ends normally *)

Lemma foreach_ref_total {A St : Type} (body : A → St → Outcome (A * St)) (xs : list A) :
  Forall (fun x => ∀ s, ∃ r, body x s = Done r) xs →
  ∀ s, ∃ r, foreach_ref body xs s = Done r.
Proof.
  induction 1 as [|x xs Hx _ IH]; intros s; simpl; [by eexists|].
  destruct (Hx s) as [[x1 s1] ->]. destruct (IH s1) as [r ->]. by eexists.
Qed.

Lemma foreach_ref_inputs {A St : Type} (Q : A → Prop)
    (body : A → St → Outcome (A * St)) (xs : list A) :
  (∀ x s r, body x s = Done r → Q x) →
  ∀ s r, foreach_ref body xs s = Done r → Forall Q xs.
Proof.
  intros Hbody. induction xs as [|x xs IH]; intros s r; simpl; [by constructor|].
  destruct (body x s) as [[x1 s1]|f [x1 s1]] eqn:Hx; [|done].
  destruct (foreach_ref body xs s1) as [r1|f r1] eqn:Hxs; [|done].
  intros _. constructor; [by eapply Hbody | by eapply IH].
Qed.

Section CandidatesMore.

Context `{Collaborators}.

Lemma candidatesFromPair_normal chromToIndex bamIndex readPair s :
  (has_read readPair ↔ ∃ r, candidatesFromPair chromToIndex bamIndex readPair s = Done r)
  ∧ fails_only (fun f => f = AssertionFailure)
      (candidatesFromPair chromToIndex bamIndex readPair s).
Proof.
  destruct s as [rc svs0]. unfold candidatesFromPair, has_read. cbn [read1 read2].
  destruct (read1 readPair) as [r1|], (read2 readPair) as [r2|];
    rewrite ?(bool_decide_true (is_Some (Some _))) by done;
    rewrite ?(bool_decide_false (is_Some None)) by (by intros [? ?]); cbn [negb].
  - destruct (assignPairObservationsToSVCandidates _ _ _).
    split; [|done]. split; [by eexists | by left].
  - destruct (assignPairObservationsToSVCandidates _ _ _).
    split; [|done]. split; [by eexists | by left].
  - destruct (assignPairObservationsToSVCandidates _ _ _).
    split; [|done]. split; [by eexists | by right].
  - split; [|done]. split; [intros [[? ?]|[? ?]]; done | intros [? ?]; done].
Qed.

(** X6.  [getCandidatesFromData] ends normally exactly when every pair in
    the groups of the samples has at least one of its reads set; the only
    failure it can end with is the assertion on the local read. *)
Theorem getCandidatesFromData_normal (chromToIndex : chrom_map) (s : EdgeState) :
  ((∃ s', getCandidatesFromData chromToIndex s = Done s')
   ↔ ∀ b readPair, b < length (_bamStreams s) →
       readPair ∈ pairs (getDataGroup (svData s) b) → has_read readPair)
  ∧ fails_only (fun f => f = AssertionFailure) (getCandidatesFromData chromToIndex s).
Proof.
  split; [split|].
  - intros [s' Hrun]. unfold getCandidatesFromData in Hrun.
    apply zoom_Done in Hrun as (r & Hrun & _).
    apply andThen_Done in Hrun as (r1 & Hassign & _).
    unfold assignAll in Hassign. apply zoom_Done in Hassign as (r2 & Hloop & _).
    cbn [fst snd] in Hloop.
    pose proof (for_range_Done
      (fun i (st : SVCandidateSetData * (list SVObservation * list SVCandidate)) =>
         (∀ b, i ≤ b → groups st.1 !! b = groups (svData s) !! b)
         ∧ (∀ b, b < i → Forall has_read (pairs (getDataGroup (svData s) b))))
      _ _ _ _ _ Hloop) as Hinv.
    destruct Hinv as [_ Hall].
    + split; [done | intros; lia].
    + intros i [data st] [data1 st1] Hi [Hhigh Hlow] Hbody. cbn [fst] in *.
      unfold candidatesFromGroup in Hbody. cbn [fst snd] in Hbody.
      apply zoom_Done in Hbody as (r3 & Hpairs & [= -> ->]).
      split.
      * intros b Hb. unfold putDataGroup. cbn [groups].
        rewrite lookup_insert_ne by lia. apply Hhigh. lia.
      * intros b Hb. destruct (decide (b = i)) as [->|]; [|apply Hlow; lia].
        eapply foreach_ref_inputs in Hpairs.
        -- unfold getDataGroup in *. by rewrite <- Hhigh.
        -- intros x s0 rx Hx. apply (candidatesFromPair_normal chromToIndex i x s0). eauto.
    + intros b readPair Hb Hin. specialize (Hall b ltac:(lia)).
      rewrite Forall_forall in Hall. by apply Hall.
  - intros Hall. unfold getCandidatesFromData, assignAll. cbn [fst snd].
    destruct (for_range_inv
      (fun i (st : SVCandidateSetData * (list SVObservation * list SVCandidate)) =>
         ∀ b, i ≤ b → groups st.1 !! b = groups (svData s) !! b)
      (candidatesFromGroup chromToIndex) (length (_bamStreams s)) 0
      (svData s, ([], svs s))) as (r & -> & _).
    + done.
    + intros i [data st] Hi Hhigh. cbn [fst] in *.
      unfold candidatesFromGroup. cbn [fst snd].
      destruct (foreach_ref_total (candidatesFromPair chromToIndex i)
                  (pairs (getDataGroup data i))) with (s := st) as [r ->].
      * apply Forall_forall. intros rp Hrp s0.
        apply (candidatesFromPair_normal chromToIndex i rp s0).
        apply (Hall i); [lia|]. unfold getDataGroup in *. by rewrite <- Hhigh.
      * eexists. split; [done|]. cbn [fst]. intros b Hb. unfold putDataGroup.
        cbn [groups]. rewrite lookup_insert_ne by lia. apply Hhigh. lia.
    + cbn [zoom andThen].
      destruct (consolidateOverlap_spec (length (_bamStreams s)) r.1 r.2.2)
        as (st1 & st2 & d & _ & _ & _ & _ & -> & _).
      by eexists.
  - unfold getCandidatesFromData. apply fails_only_zoom, fails_only_andThen.
    + unfold assignAll. apply fails_only_zoom, for_range_fails_only.
      intros i st. unfold candidatesFromGroup. apply fails_only_zoom, foreach_ref_fails_only.
      intros x s0. apply candidatesFromPair_normal.
    + intros [data svs0].
      destruct (consolidateOverlap_spec (length (_bamStreams s)) data svs0)
        as (st1 & st2 & d & _ & _ & _ & _ & -> & _). done.
Qed.

End CandidatesMore.

(** ** The evidence collector, once more *)


Section CollectorMore.

Context `{Collaborators}.

(** X7.  The order of the two sides of a locus of a read does not matter
    to the loop of [addSVNodeRead] unless both sides are flagged out-count:
    the loop picks the out-count side as the local one wherever it
    stands. *)
Theorem scanLoci_side_order (localNode remoteNode : SVLocusNode) (bamRead : bam_record)
    (isExpectRepeat : bool) (before after : list SVLocus) (n0 n1 : SVLocusNode)
    (g : SVCandidateSetReadPairSampleGroup) :
  isOutCount n0 && isOutCount n1 = false →
  scanLoci localNode remoteNode bamRead isExpectRepeat (before ++ [n0; n1] :: after) g
  = scanLoci localNode remoteNode bamRead isExpectRepeat (before ++ [n1; n0] :: after) g.
Proof.
  intros Hout. induction before as [|locus before IH].
  - cbn [app scanLoci length]. rewrite !bool_decide_true by lia. cbn [andb negb].
    unfold orientLocus. cbn [length]. rewrite bool_decide_true by done.
    destruct (isOutCount n0) eqn:H0', (isOutCount n1) eqn:H1'; try done;
      simpl; rewrite ?H0', ?H1'; simpl; rewrite ?H0', ?H1'; simpl; try done;
      by destruct (negb (GenomeInterval_isIntersect _ (getInterval remoteNode))).
  - cbn [app scanLoci]. rewrite IH. done.
Qed.

Lemma scanLoci_remote (localNode remote1 remote2 : SVLocusNode) bamRead isExpectRepeat
    loci g :
  Forall (fun locus => length locus ≠ 2) loci →
  scanLoci localNode remote1 bamRead isExpectRepeat loci g
  = scanLoci localNode remote2 bamRead isExpectRepeat loci g.
Proof.
  induction 1 as [|locus loci Hlen _ IH]; [done|]. cbn [scanLoci].
  unfold orientLocus. rewrite (bool_decide_false (length locus = 2)) by done.
  by rewrite IH.
Qed.

(** X8.  For a read whose loci are all one-sided the remote node of the
    edge plays no part: [addSVNodeRead] ends the same way, with the same
    group, whatever node is given as the remote one. *)
Theorem addSVNodeRead_one_sided_remote (chromToIndex : chrom_map)
    (localNode remote1 remote2 : SVLocusNode) (bamRead : bam_record) (bamIndex : nat)
    (isExpectRepeat : bool) (g : SVCandidateSetReadPairSampleGroup) :
  Forall (fun locus => length locus = 1) (getSVLoci bamRead bamIndex chromToIndex []) →
  addSVNodeRead chromToIndex localNode remote1 bamRead bamIndex isExpectRepeat g
  = addSVNodeRead chromToIndex localNode remote2 bamRead bamIndex isExpectRepeat g.
Proof.
  intros Hone. unfold addSVNodeRead.
  rewrite (scanLoci_remote localNode remote1 remote2); [done|].
  eapply Forall_impl; [exact Hone|]. simpl. intros locus ->. lia.
Qed.

(** X9.  When the loop over the loci of a read reaches a locus with no
    side or with more than two sides, that is when the read got through
    the filters and the capacity check and every locus before that one was
    passed over, [addSVNodeRead] fails on its assertion and the group is as
    it was. *)
Theorem addSVNodeRead_locus_size (chromToIndex : chrom_map)
    (localNode remoteNode : SVLocusNode) (bamRead : bam_record) (bamIndex : nat)
    (isExpectRepeat : bool) (g : SVCandidateSetReadPairSampleGroup)
    (skipped rest : list SVLocus) (locus : SVLocus) :
  interesting bamRead bamIndex → group_size g < maxDataSize →
  getSVLoci bamRead bamIndex chromToIndex [] = skipped ++ locus :: rest →
  Forall (passed_over localNode remoteNode) skipped →
  length locus = 0 ∨ 2 < length locus →
  addSVNodeRead chromToIndex localNode remoteNode bamRead bamIndex isExpectRepeat g
  = Thrown AssertionFailure g.
Proof.
  intros Hint Hsize Hloci Hskipped Hlen.
  rewrite (addSVNodeRead_interesting _ _ _ _ _ _ _ Hint).
  rewrite bool_decide_false by lia. rewrite Hloci, scanLoci_passed_over by done.
  cbn [scanLoci]. destruct Hlen as [Hlen|Hlen].
  - rewrite (bool_decide_false (1 ≤ _)) by lia. done.
  - rewrite (bool_decide_false (_ ≤ 2)) by lia. by rewrite andb_false_r.
Qed.


Lemma addSVNodeData_drains chromToIndex locus localNodeIndex remoteNodeIndex s s' :
  addSVNodeData chromToIndex locus localNodeIndex remoteNodeIndex s = Done s' →
  _bamStreams s' = replicate (length (_bamStreams s)) [].
Proof.
  unfold addSVNodeData.
  destruct (locus !! localNodeIndex) as [localNode|]; [|done].
  destruct (locus !! remoteNodeIndex) as [remoteNode|]; [|done].
  destruct (setNewSearchInterval _ _) as [rep search'].
  intros ([data1 streams1] & Hrun & ->)%zoom_Done. cbn [_bamStreams fst snd].
  pose proof (for_range_Done
    (fun i (st : SVCandidateSetData * list bam_streamer) =>
       length st.2 = length (_bamStreams s) ∧ (∀ b, b < i → st.2 !! b = Some []))
    _ _ _ _ _ Hrun) as Hinv.
  destruct Hinv as (Hlen & Hdrained).
  - cbn [fst snd]. split; [done | intros; lia].
  - intros i st st1 Hi (Hlen & Hdrained) Hbody.
    unfold scanStream in Hbody.
    apply zoom_Done in Hbody as ([g r] & Hloop & ->). cbn [fst snd].
    apply readLoop_Done in Hloop as ->.
    split; [by rewrite length_insert|].
    intros b Hb. destruct (decide (b = i)) as [->|].
    + apply list_lookup_insert_eq.
      apply Nat.lt_le_trans with (length (_bamStreams s)); [lia|].
      apply Nat.eq_le_incl. symmetry. exact Hlen.
    + rewrite list_lookup_insert_ne by done. apply Hdrained. lia.
  - cbn [fst snd] in *.
    apply list_eq_same_length with (length (_bamStreams s));
      [by rewrite length_replicate | exact Hlen |].
    intros i x y Hi Hx Hy. rewrite Hdrained in Hx by lia.
    apply lookup_replicate in Hy as [-> _]. congruence.
Qed.

(** X10.  When [addSVNodeData] ends normally, every stream has been
    repositioned and read to its end, the search interval of the local node
    has been recorded, and the groups beyond the samples and the candidates
    are as they were. *)
Theorem addSVNodeData_normal_end (chromToIndex : chrom_map) (locus : SVLocus)
    (localNodeIndex remoteNodeIndex : nat) (s s' : EdgeState) :
  addSVNodeData chromToIndex locus localNodeIndex remoteNodeIndex s = Done s' →
  (∃ localNode, locus !! localNodeIndex = Some localNode
     ∧ searchIntervals (svData s')
       = (setNewSearchInterval (searchIntervalOf localNode) (searchIntervals (svData s))).2)
  ∧ is_Some (locus !! remoteNodeIndex)
  ∧ _bamStreams s' = replicate (length (_bamStreams s)) []
  ∧ (∀ b, length (_bamStreams s) ≤ b → groups (svData s') !! b = groups (svData s) !! b)
  ∧ svs s' = svs s.
Proof.
  intros Hdone. pose proof (addSVNodeData_drains _ _ _ _ _ _ Hdone) as Hstreams.
  revert Hdone. unfold addSVNodeData.
  destruct (locus !! localNodeIndex) as [localNode|]; [|done].
  destruct (locus !! remoteNodeIndex) as [remoteNode|]; [|done].
  fold (searchIntervalOf localNode).
  destruct (setNewSearchInterval _ _) as [rep search'] eqn:Hset.
  intros ([data1 streams1] & Hrun & ->)%zoom_Done. cbn [svs _bamStreams svData fst snd].
  pose proof (for_range_Done
    (fun i (st : SVCandidateSetData * list bam_streamer) =>
       searchIntervals st.1 = search'
       ∧ (∀ b, i ≤ b → groups st.1 !! b = groups (svData s) !! b))
    _ _ _ _ _ Hrun) as Hinv.
  destruct Hinv as (Hsearch & Hhigh).
  - cbn [fst snd groups searchIntervals]. by split.
  - intros i st st1 Hi (Hsearch & Hhigh) Hbody.
    unfold scanStream in Hbody.
    apply zoom_Done in Hbody as ([g r] & Hloop & ->). cbn [fst snd].
    split; [done|].
    intros b Hb. unfold putDataGroup. cbn [groups].
    rewrite lookup_insert_ne by lia. apply Hhigh. lia.
  - cbn [fst snd] in *. split; [exists localNode; split; [done | by rewrite Hset]|].
    split; [done|]. split; [done|]. split; [|done].
    intros b Hb. apply Hhigh. lia.
Qed.


End CollectorMore.

(** ** What an edge evaluation starts from *)

Lemma related_for_range {St : Type} (R : St → St → Prop)
    (body1 body2 : nat → St → Outcome St) count :
  (∀ i s1 s2, R s1 s2 → related R (body1 i s1) (body2 i s2)) →
  ∀ from s1 s2, R s1 s2 →
  related R (for_range from count body1 s1) (for_range from count body2 s2).
Proof.
  intros Hbody. induction count as [|count IH]; intros from s1 s2 Hs; simpl; [done|].
  pose proof (Hbody from s1 s2 Hs) as Hb.
  destruct (body1 from s1) as [t1|f1 t1], (body2 from s2) as [t2|f2 t2]; simpl in *;
    try done. by apply IH.
Qed.

Lemma related_andThen {St : Type} (R : St → St → Prop) (o1 o2 : Outcome St)
    (k1 k2 : St → Outcome St) :
  related R o1 o2 → (∀ s1 s2, R s1 s2 → related R (k1 s1) (k2 s2)) →
  related R (o1 >>> k1) (o2 >>> k2).
Proof. destruct o1, o2; simpl; auto; done. Qed.

Lemma related_zoom {St T : Type} (R : T → T → Prop) (R' : St → St → Prop)
    (put1 put2 : T → St) (o1 o2 : Outcome T) :
  related R o1 o2 → (∀ t1 t2, R t1 t2 → R' (put1 t1) (put2 t2)) →
  related R' (zoom put1 o1) (zoom put2 o2).
Proof. destruct o1, o2; simpl; try done; [auto | intros [-> ?]; auto]. Qed.

Section FreshStart.

Context `{Collaborators}.

Lemma addSVNodeData_related chromToIndex locus localNodeIndex remoteNodeIndex s1 s2 :
  evidence_eq s1 s2 →
  same_evidence (addSVNodeData chromToIndex locus localNodeIndex remoteNodeIndex s1)
                (addSVNodeData chromToIndex locus localNodeIndex remoteNodeIndex s2).
Proof.
  intros (Hdata & Hsvs & Hlen). unfold same_evidence, addSVNodeData.
  destruct (locus !! localNodeIndex) as [localNode|]; [|by split].
  destruct (locus !! remoteNodeIndex) as [remoteNode|]; [|by split].
  rewrite Hdata, Hsvs, Hlen. destruct (setNewSearchInterval _ _) as [rep search'].
  apply related_zoom with
    (R := fun t1 t2 : SVCandidateSetData * list bam_streamer =>
            t1.1 = t2.1 ∧ length t1.2 = length t2.2).
  - apply related_for_range; [|by split].
    intros i [d1 l1] [d2 l2] [Hd Hl]. cbn [fst snd] in *. subst d2.
    unfold scanStream. cbn [fst snd].
    destruct (readLoop _ _ _ _ _ _ _) as [[g r]|f [g r]]; cbn [zoom related fst snd];
      rewrite !length_insert; auto.
  - intros [d1 l1] [d2 l2] [Hd Hl]. by split.
Qed.

Lemma getCandidatesFromData_related chromToIndex s1 s2 :
  evidence_eq s1 s2 →
  same_evidence (getCandidatesFromData chromToIndex s1)
                (getCandidatesFromData chromToIndex s2).
Proof.
  intros (Hdata & Hsvs & Hlen). unfold same_evidence, getCandidatesFromData.
  rewrite Hdata, Hsvs, Hlen.
  destruct (assignAll _ _ _ >>> _) as [r|f r]; cbn [zoom related]; by repeat split.
Qed.

(** X12.  [findCandidateSV] starts afresh: what the evidence set and the
    candidate list held on entry, and where the streams stood, has no
    influence on how it ends, nor on the evidence set and the candidates it
    leaves; only the number of streams matters. *)
Theorem findCandidateSV_fresh (chromToIndex : chrom_map) (edge : EdgeInfo)
    (s1 s2 : EdgeState) :
  length (_bamStreams s1) = length (_bamStreams s2) →
  same_evidence (findCandidateSV chromToIndex edge s1)
                (findCandidateSV chromToIndex edge s2).
Proof.
  intros Hlen. unfold findCandidateSV.
  destruct (_ || _); [by repeat split|].
  apply related_andThen.
  - apply addSVNodeData_related. by repeat split.
  - intros t1 t2 Ht. apply related_andThen.
    + destruct (negb _); [by apply addSVNodeData_related|].
      destruct Ht as (Hd & Hs & Hl). cbn [related]. repeat split; cbn; congruence.
    + intros u1 u2 Hu. by apply getCandidatesFromData_related.
Qed.

Lemma relinkData_keeps bamCount move (svData svData' : SVCandidateSetData) b :
  relinkData bamCount move svData = Done svData' →
  is_Some (groups svData !! b) → is_Some (groups svData' !! b).
Proof.
  unfold relinkData. case_decide; [by intros [= <-]|]. intros Hrun Hb.
  apply (for_range_Done (fun _ (d : SVCandidateSetData) => is_Some (groups d !! b))
           _ _ _ _ _ Hrun); [done|].
  intros i d d1 _ Hd [= <-]. unfold putDataGroup. cbn [groups].
  rewrite lookup_insert. by case_decide.
Qed.

Lemma assignAll_keeps chromToIndex bamCount svData svs svData' svs' b :
  assignAll chromToIndex bamCount (svData, svs) = Done (svData', svs') →
  is_Some (groups svData !! b) → is_Some (groups svData' !! b).
Proof.
  unfold assignAll. cbn [fst snd].
  intros ([data1 [rc1 svs1]] & Hrun & [= -> ->])%zoom_Done Hb.
  apply (for_range_Done
    (fun _ (st : SVCandidateSetData * (list SVObservation * list SVCandidate)) =>
       is_Some (groups st.1 !! b)) _ _ _ _ _ Hrun); [done|].
  intros i [d st] [d1 st1] _ Hd Hbody. cbn [fst] in *.
  unfold candidatesFromGroup in Hbody. cbn [fst snd] in Hbody.
  apply zoom_Done in Hbody as (r & _ & [= -> _]).
  unfold putDataGroup. cbn [groups]. rewrite lookup_insert. by case_decide.
Qed.

(** X13.  When the evaluation of an edge that passes the count gate ends
    normally, the evidence set holds a group for every sample and for
    nothing else, and every stream has been read to its end. *)
Theorem findCandidateSV_normal_end (chromToIndex : chrom_map) (edge : EdgeInfo)
    (s s' : EdgeState) :
  getMinMergeEdgeCount
    ≤ getEdgeCount (getLocus (locusIndex edge)) (nodeIndex1 edge) (nodeIndex2 edge) →
  getMinMergeEdgeCount
    ≤ getEdgeCount (getLocus (locusIndex edge)) (nodeIndex2 edge) (nodeIndex1 edge) →
  findCandidateSV chromToIndex edge s = Done s' →
  (∀ b, is_Some (groups (svData s') !! b) ↔ b < length (_bamStreams s))
  ∧ _bamStreams s' = replicate (length (_bamStreams s)) [].
Proof.
  intros H12 H21 Hrun.
  pose proof (findCandidateSV_Done _ _ _ _ Hrun) as [_ Hdom].
  revert Hrun. unfold findCandidateSV.
  rewrite !bool_decide_false by lia. cbn [orb].
  intros (s1 & Hfirst & (s2 & Hsecond & Hcand)%andThen_Done)%andThen_Done.
  pose proof (addSVNodeData_groups _ _ _ _ _ _ Hfirst) as Hgroups1.
  apply addSVNodeData_drains in Hfirst as Hstreams1.
  cbn [_bamStreams] in *.
  assert (_bamStreams s2 = replicate (length (_bamStreams s)) []
          ∧ ∀ b, b < length (_bamStreams s) → is_Some (groups (svData s2) !! b))
    as [Hstreams2 Hgroups2].
  { destruct (negb _).
    - pose proof (addSVNodeData_groups _ _ _ _ _ _ Hsecond) as Hgroups2.
      apply addSVNodeData_drains in Hsecond as Hstreams2.
      rewrite Hstreams1, length_replicate in Hstreams2, Hgroups2. done.
    - injection Hsecond as <-. cbn [_bamStreams svData setSkipped groups].
      split; [done|]. intros b Hb. rewrite lookup_fmap, fmap_is_Some. by apply Hgroups1. }
  unfold getCandidatesFromData in Hcand.
  apply zoom_Done in Hcand as ([data4 svs4] & Hcand & ->).
  apply andThen_Done in Hcand as ([data3 svs3] & Hassign & Hcons).
  cbn [svData _bamStreams fst snd] in *. split; [|done].
  intros b. split.
  - intros [g Hg]. apply Hdom in Hg as [Hb _].
    by rewrite Hstreams2, length_replicate in Hb.
  - intros Hb. unfold consolidateOverlap in Hcons.
    destruct (scanOverlap svs3 >>> _) as [st|f st]; [|done].
    apply zoom_Done in Hcons as (d & Hrelink & [= -> _]).
    eapply relinkData_keeps; [done|]. eapply assignAll_keeps; [done|].
    by apply Hgroups2.
Qed.

End FreshStart.

(** ** What [checkResult] accepts *)

Lemma to_unsigned_idemp n : to_unsigned (to_unsigned n) = to_unsigned n.
Proof.
  unfold to_unsigned. rewrite Z2Nat.id by (apply Z.mod_pos_bound; lia).
  by rewrite Z.mod_mod by lia.
Qed.

Lemma to_unsigned_add_l a b : to_unsigned (to_unsigned a + b) = to_unsigned (a + b).
Proof.
  unfold to_unsigned. rewrite !Nat2Z.inj_add.
  rewrite Z2Nat.id by (apply Z.mod_pos_bound; lia).
  by rewrite Z.add_mod_idemp_l by lia.
Qed.

Lemma foreach_tally {A St : Type} (m : St → nat) (w : A → nat) (Q : A → Prop)
    (body : A → St → Outcome St) :
  (∀ x s s', body x s = Done s' →
     Q x ∧ (to_unsigned (m s) = m s → m s' = to_unsigned (m s + w x))) →
  ∀ xs s s', foreach body xs s = Done s' →
    Forall Q xs
    ∧ (to_unsigned (m s) = m s → m s' = to_unsigned (m s + sum_list_with w xs)).
Proof.
  intros Hbody. induction xs as [|x xs IH]; intros s s'; cbn [foreach sum_list_with].
  - intros [= <-]. split; [by constructor|]. intros Hs. by rewrite Nat.add_0_r.
  - intros (s1 & Hx & Hxs)%andThen_Done.
    apply Hbody in Hx as [Hq Hm]. apply IH in Hxs as [Hqs Hms].
    split; [by constructor|]. intros Hs. specialize (Hm Hs).
    rewrite Hms by (by rewrite Hm, to_unsigned_idemp).
    by rewrite Hm, to_unsigned_add_l, Nat.add_assoc.
Qed.

Lemma for_range_tally {St : Type} (m : St → nat) (w : nat → nat) (Q : nat → Prop)
    (body : nat → St → Outcome St) :
  (∀ i s s', body i s = Done s' →
     Q i ∧ (to_unsigned (m s) = m s → m s' = to_unsigned (m s + w i))) →
  ∀ count from s s', for_range from count body s = Done s' →
    (∀ i, from ≤ i → i < from + count → Q i)
    ∧ (to_unsigned (m s) = m s
       → m s' = to_unsigned (m s + sum_list_with w (seq from count))).
Proof.
  intros Hbody. induction count as [|count IH]; intros from s s';
    cbn [for_range seq sum_list_with].
  - intros [= <-]. split; [intros; lia|]. intros Hs. by rewrite Nat.add_0_r.
  - intros (s1 & Hx & Hxs)%andThen_Done.
    apply Hbody in Hx as [Hq Hm]. apply IH in Hxs as [Hqs Hms].
    split.
    + intros i Hi1 Hi2.
      destruct (decide (i = from)) as [->|]; [done | apply Hqs; lia].
    + intros Hs. specialize (Hm Hs).
      rewrite Hms by (by rewrite Hm, to_unsigned_idemp).
      by rewrite Hm, to_unsigned_add_l, Nat.add_assoc.
Qed.

Lemma foreach_total {A St : Type} (body : A → St → Outcome St) (xs : list A) :
  Forall (fun x => ∀ s, ∃ s', body x s = Done s') xs →
  ∀ s, ∃ s', foreach body xs s = Done s'.
Proof.
  induction 1 as [|x xs Hx _ IH]; intros s; cbn [foreach]; [by eexists|].
  destruct (Hx s) as [s1 ->]. apply IH.
Qed.

Lemma for_range_total {St : Type} (body : nat → St → Outcome St) count : ∀ from s,
  (∀ i s, from ≤ i → i < from + count → ∃ s', body i s = Done s') →
  ∃ s', for_range from count body s = Done s'.
Proof.
  induction count as [|count IH]; intros from s Hbody; cbn [for_range]; [by eexists|].
  destruct (Hbody from s) as [s1 ->]; [lia..|]. cbn [andThen].
  apply IH. intros i s2 Hi1 Hi2. apply Hbody; lia.
Qed.

Section ValidatorMore.

Context `{Collaborators}.

Lemma count_of_map_add i k (counts : gmap nat nat) j :
  count_of (map_add i k counts) j
  = if bool_decide (i = j) then to_unsigned (count_of counts j + k)
    else count_of counts j.
Proof.
  unfold count_of, map_add. case_bool_decide as Hij.
  - subst j. by rewrite lookup_insert_eq.
  - by rewrite lookup_insert_ne.
Qed.

Lemma countLink_Done svCount readPair sva c c' :
  countLink svCount readPair sva c = Done c' →
  index sva < svCount
  ∧ ∀ j, (to_unsigned (count_of c.1 j) = count_of c.1 j →
          count_of c'.1 j = to_unsigned (count_of c.1 j + link_reads readPair j sva))
         ∧ (to_unsigned (count_of c.2 j) = count_of c.2 j →
            count_of c'.2 j = to_unsigned (count_of c.2 j + link_pairs readPair j sva)).
Proof.
  unfold countLink. case_bool_decide as Hidx; [done|]. destruct c as [rc pc].
  unfold link_reads, link_pairs.
  destruct (isPairType (evtype sva)); intros [= <-]; (split; [lia|]); intros j;
    cbn [fst snd]; rewrite ?andb_false_r; cbn [andb];
    [|split; intros Hw; by rewrite Nat.add_0_r].
  rewrite andb_true_r.
  destruct (bool_decide (is_Some (read1 readPair))),
           (bool_decide (is_Some (read2 readPair)));
    cbn [andb Nat.b2n]; rewrite ?count_of_map_add, ?andb_true_r, ?andb_false_r;
    destruct (bool_decide (index sva = j)); cbn [andb];
    split; intros Hw; rewrite ?to_unsigned_add_l, ?Nat.add_0_r; try done;
    f_equal; lia.
Qed.

Lemma countLink_total svCount readPair sva c :
  index sva < svCount → ∃ c', countLink svCount readPair sva c = Done c'.
Proof.
  intros Hidx. unfold countLink. rewrite bool_decide_false by lia. destruct c as [rc pc].
  destruct (isPairType _); by eexists.
Qed.

Lemma countGroup_Done svCount svData bamIndex c c' :
  countGroup svCount svData bamIndex c = Done c' →
  links_below svCount (getDataGroup svData bamIndex)
  ∧ ∀ j, (to_unsigned (count_of c.1 j) = count_of c.1 j →
          count_of c'.1 j
          = to_unsigned (count_of c.1 j + group_reads (getDataGroup svData bamIndex) j))
         ∧ (to_unsigned (count_of c.2 j) = count_of c.2 j →
            count_of c'.2 j
            = to_unsigned (count_of c.2 j + group_pairs (getDataGroup svData bamIndex) j)).
Proof.
  unfold countGroup. intros Hrun.
  assert (∀ (m : gmap nat nat * gmap nat nat → nat)
            (w : SVCandidateSetReadPair → SVPairAssociation → nat),
            (∀ readPair sva s s', countLink svCount readPair sva s = Done s' →
               to_unsigned (m s) = m s → m s' = to_unsigned (m s + w readPair sva)) →
            Forall (fun readPair => Forall (fun sva => index sva < svCount) (svLink readPair))
                   (pairs (getDataGroup svData bamIndex))
            ∧ (to_unsigned (m c) = m c →
               m c' = to_unsigned
                        (m c + sum_list_with
                                 (fun readPair =>
                                    sum_list_with (w readPair) (svLink readPair))
                                 (pairs (getDataGroup svData bamIndex))))) as Htally.
  { intros m w Hw.
    apply (foreach_tally m _ _ _) with (2 := Hrun).
    intros readPair s s' Hpair.
    apply (foreach_tally m (w readPair) (fun sva => index sva < svCount) _) with (2 := Hpair).
    intros sva t t' Hlink. split; [|by eapply Hw].
    by apply countLink_Done in Hlink as [? _]. }
  split.
  - destruct (Htally (fun _ => 0) (fun _ _ => 0)) as [Hall _]; [done|].
    intros readPair sva Hp Hs. rewrite Forall_forall in Hall.
    specialize (Hall _ Hp). rewrite Forall_forall in Hall. by apply Hall.
  - intros j. split.
    + apply (Htally (fun c => count_of c.1 j) (fun readPair => link_reads readPair j)).
      intros readPair sva s s' Hlink. apply countLink_Done in Hlink as [_ Hj].
      by destruct (Hj j).
    + apply (Htally (fun c => count_of c.2 j) (fun readPair => link_pairs readPair j)).
      intros readPair sva s s' Hlink. apply countLink_Done in Hlink as [_ Hj].
      by destruct (Hj j).
Qed.

Lemma countGroup_total svCount svData bamIndex c :
  links_below svCount (getDataGroup svData bamIndex) →
  ∃ c', countGroup svCount svData bamIndex c = Done c'.
Proof.
  intros Hbelow. unfold countGroup. apply foreach_total.
  apply Forall_forall. intros readPair Hp s. apply foreach_total.
  apply Forall_forall. intros sva Hs t. apply countLink_total. by eapply Hbelow.
Qed.

Lemma tally_Done svCount bamCount svData c c' :
  for_range 0 bamCount (countGroup svCount svData) c = Done c' →
  links_valid bamCount svData svCount
  ∧ ∀ j, (to_unsigned (count_of c.1 j) = count_of c.1 j →
          count_of c'.1 j = to_unsigned (count_of c.1 j + data_reads bamCount svData j))
         ∧ (to_unsigned (count_of c.2 j) = count_of c.2 j →
            count_of c'.2 j = to_unsigned (count_of c.2 j + data_pairs bamCount svData j)).
Proof.
  intros Hrun.
  assert (∀ (m : gmap nat nat * gmap nat nat → nat) (w : nat → nat) (Q : nat → Prop),
            (∀ i s s', countGroup svCount svData i s = Done s' →
               Q i ∧ (to_unsigned (m s) = m s → m s' = to_unsigned (m s + w i))) →
            (∀ i, i < bamCount → Q i)
            ∧ (to_unsigned (m c) = m c →
               m c' = to_unsigned (m c + sum_list_with w (seq 0 bamCount))))
    as Htally.
  { intros m w Q Hbody.
    destruct (for_range_tally m w Q _ Hbody _ _ _ _ Hrun) as [Hall Hsum].
    split; [|done]. intros i Hi. apply Hall; lia. }
  split; [|intros j; split].
  - destruct (Htally (fun _ => 0) (fun _ => 0)
                (fun b => links_below svCount (getDataGroup svData b))) as [Hall _];
      [|exact Hall].
    intros i s s' Hi. by apply countGroup_Done in Hi as [? _].
  - destruct (Htally (fun c => count_of c.1 j)
                (fun b => group_reads (getDataGroup svData b) j) (fun _ => True))
      as [_ Hsum]; [|exact Hsum].
    intros i s s' Hi. split; [done|]. apply countGroup_Done in Hi as [_ Hj].
    by destruct (Hj j).
  - destruct (Htally (fun c => count_of c.2 j)
                (fun b => group_pairs (getDataGroup svData b) j) (fun _ => True))
      as [_ Hsum]; [|exact Hsum].
    intros i s s' Hi. split; [done|]. apply countGroup_Done in Hi as [_ Hj].
    by destruct (Hj j).
Qed.

Lemma tally_total svCount bamCount svData c :
  links_valid bamCount svData svCount →
  ∃ c', for_range 0 bamCount (countGroup svCount svData) c = Done c'.
Proof.
  intros Hvalid. apply for_range_total. intros i s _ Hi.
  apply countGroup_total, Hvalid. lia.
Qed.

Lemma tally_fails svCount bamCount svData c :
  fails_only (fun f => f = LogicException)
    (for_range 0 bamCount (countGroup svCount svData) c).
Proof.
  apply for_range_fails_only. intros i s. unfold countGroup.
  apply foreach_fails_only. intros readPair t. apply foreach_fails_only.
  intros sva u. unfold countLink. case_bool_decide; [done|]. destruct u.
  by destruct (isPairType _).
Qed.

Lemma zero_counts svCount :
  ∃ c0, for_range 0 svCount
          (fun i (c : gmap nat nat * gmap nat nat) => Done (<[i := 0]> c.1, <[i := 0]> c.2))
          (∅, ∅) = Done c0
        ∧ ∀ j, count_of c0.1 j = 0 ∧ count_of c0.2 j = 0.
Proof.
  apply (for_range_inv
    (fun _ (c : gmap nat nat * gmap nat nat) => ∀ j, count_of c.1 j = 0 ∧ count_of c.2 j = 0)).
  - intros j. unfold count_of. cbn [fst snd]. by rewrite !lookup_empty.
  - intros i c Hi Hc. eexists. split; [done|]. intros j. cbn [fst snd]. unfold count_of.
    rewrite !lookup_insert. case_decide; [done | apply Hc].
Qed.

Lemma checkCounts_Done svs svIndex c c' :
  checkCounts svs svIndex c = Done c'
  ↔ c' = c ∧ ∃ sv, svs !! svIndex = Some sv
      ∧ pairCount (bp1 sv) = pairCount (bp2 sv)
      ∧ to_unsigned (localPairCount (bp1 sv) + localPairCount (bp2 sv))
        ≤ count_of c.1 svIndex
      ∧ to_unsigned (pairCount (bp1 sv) + pairCount (bp2 sv)) = count_of c.2 svIndex.
Proof.
  unfold checkCounts, count_of, isExcludeUnpaired.
  destruct (svs !! svIndex) as [sv|]; [|split; [done | by intros (_ & ? & ? & _)]].
  unfold assert. case_bool_decide as Hpair; cbn [andThen].
  - case_bool_decide as Hreads; cbn [orb negb].
    { split; [done|]. intros (_ & ? & [= <-] & _ & ? & _). lia. }
    case_bool_decide as Hpairs; cbn [negb].
    + split; [intros [= <-] | intros [-> _]; done].
      split; [done|]. exists sv. repeat split; (done || lia).
    + split; [done|]. intros (_ & ? & [= <-] & _ & _ & ?). done.
  - split; [done|]. intros (_ & ? & [= <-] & ? & _). done.
Qed.

Lemma checkResult_nonempty bamStreams svData svs :
  svs ≠ [] →
  (∃ c, checkResult bamStreams svData svs = Done c)
  ↔ links_valid (length bamStreams) svData (length svs)
    ∧ counts_agree svs (data_reads (length bamStreams) svData)
                       (data_pairs (length bamStreams) svData).
Proof.
  intros Hne. unfold checkResult. rewrite bool_decide_false by (by destruct svs).
  destruct (zero_counts (length svs)) as (c0 & -> & Hzero). cbn [andThen].
  split.
  - intros [c (c1 & Htally & Hcheck)%andThen_Done].
    apply tally_Done in Htally as [Hvalid Hcounts]. split; [done|].
    pose proof (for_range_Done
      (fun i (st : gmap nat nat * gmap nat nat) =>
         st = c1 ∧ ∀ k, k < i → ∃ st', checkCounts svs k c1 = Done st')
      _ _ _ _ _ Hcheck) as [_ Hall].
    + split; [done | intros; lia].
    + intros i st st1 Hi [-> Hlow] Hbody.
      pose proof Hbody as [-> _]%checkCounts_Done. split; [done|].
      intros k Hk. destruct (decide (k = i)) as [->|]; [by eexists | apply Hlow; lia].
    + intros j sv Hsv.
      destruct (Hall j) as [st' Hj]; [apply lookup_lt_Some in Hsv; lia|].
      apply checkCounts_Done in Hj as (_ & sv' & Hsv' & Hp & Hr & Hq).
      rewrite Hsv in Hsv'. injection Hsv' as <-.
      destruct (Hcounts j) as [Hj1 Hj2]. destruct (Hzero j) as [Hz1 Hz2].
      rewrite Hz1 in Hj1. rewrite Hz2 in Hj2.
      rewrite Hj1 in Hr by done. rewrite Hj2 in Hq by done. by repeat split.
  - intros [Hvalid Hagree].
    destruct (tally_total (length svs) (length bamStreams) svData c0 Hvalid) as [c1 Htally].
    rewrite Htally. cbn [andThen].
    apply tally_Done in Htally as [_ Hcounts].
    destruct (for_range_inv (fun _ (st : gmap nat nat * gmap nat nat) => st = c1)
                (checkCounts svs) (length svs) 0 c1) as (c & -> & _); [done| |by eexists].
    intros i st Hi ->. exists c1. split; [|done].
    apply checkCounts_Done. split; [done|].
    destruct (lookup_lt_is_Some_2 svs i) as [sv Hsv]; [lia|].
    exists sv. split; [done|]. destruct (Hagree i sv Hsv) as (Hp & Hr & Hq).
    destruct (Hcounts i) as [Hj1 Hj2]. destruct (Hzero i) as [Hz1 Hz2].
    rewrite Hz1 in Hj1. rewrite Hz2 in Hj2.
    rewrite Hj1 by done. rewrite Hj2 by done. by repeat split.
Qed.

(** X14.  [checkResult] accepts exactly this: the candidate list is empty,
    or every association of the groups of the samples refers to a candidate
    of the list and, for every candidate, the two breakends have the same
    pair count, the sum of the local pair counts of the breakends does not
    exceed the reads tallied for the candidate, and the sum of the pair
    counts of the breakends is the pairs tallied for it; the sums and the
    tallies are the values an [unsigned] holds for them, that is modulo
    2^32. *)
Theorem checkResult_accepts (bamStreams : list bam_streamer)
    (svData : SVCandidateSetData) (svs : list SVCandidate) :
  (∃ c, checkResult bamStreams svData svs = Done c)
  ↔ svs = []
    ∨ (links_valid (length bamStreams) svData (length svs)
       ∧ counts_agree svs (data_reads (length bamStreams) svData)
                          (data_pairs (length bamStreams) svData)).
Proof.
  destruct (decide (svs = [])) as [->|Hne].
  - split; [by left | by eexists].
  - rewrite (checkResult_nonempty _ _ _ Hne). split; [by right | by intros [?|?]].
Qed.

(** X15.  With a candidate list that is not empty, an association of a
    group of a sample whose index no candidate of the list answers to makes
    [checkResult] throw the logic exception, whatever the counts are. *)
Theorem checkResult_bad_index (bamStreams : list bam_streamer)
    (svData : SVCandidateSetData) (svs : list SVCandidate)
    (bamIndex : nat) (readPair : SVCandidateSetReadPair) (sva : SVPairAssociation) :
  svs ≠ [] →
  bamIndex < length bamStreams →
  readPair ∈ pairs (getDataGroup svData bamIndex) →
  sva ∈ svLink readPair →
  length svs ≤ index sva →
  ∃ c, checkResult bamStreams svData svs = Thrown LogicException c.
Proof.
  intros Hne Hb Hp Hs Hidx. unfold checkResult.
  rewrite bool_decide_false by (by destruct svs).
  destruct (zero_counts (length svs)) as (c0 & -> & _). cbn [andThen].
  pose proof (tally_fails (length svs) (length bamStreams) svData c0) as Hfails.
  destruct (for_range 0 (length bamStreams) _ c0) as [c1|f c1] eqn:Htally.
  - apply tally_Done in Htally as [Hvalid _].
    specialize (Hvalid bamIndex Hb readPair sva Hp Hs). lia.
  - simpl in Hfails. subst f. by eexists.
Qed.

(** X16.  On what a normal end of [findCandidateSV] leaves, the index test
    of [checkResult] never fires: [checkResult] accepts the result exactly
    when the counts stored in the candidates agree with its tallies, sums
    and tallies being taken modulo 2^32 as the [unsigned] arithmetic of the
    source has them. *)
Theorem findCandidateSV_then_checkResult (chromToIndex : chrom_map) (edge : EdgeInfo)
    (s s' : EdgeState) :
  findCandidateSV chromToIndex edge s = Done s' →
  (∃ c, checkResult (_bamStreams s') (svData s') (svs s') = Done c)
  ↔ counts_agree (svs s') (data_reads (length (_bamStreams s')) (svData s'))
                          (data_pairs (length (_bamStreams s')) (svData s')).
Proof.
  intros Hrun. apply findCandidateSV_Done in Hrun as [_ Hdom].
  destruct (decide (svs s' = [])) as [Hnil|Hne].
  - rewrite Hnil. split; [intros _ j sv; by rewrite lookup_nil | by eexists].
  - rewrite (checkResult_nonempty _ _ _ Hne). split; [by intros [_ ?]|].
    intros Hagree. split; [|done]. intros b Hb readPair sva. unfold getDataGroup.
    destruct (groups (svData s') !! b) as [g|] eqn:Hg.
    + apply Hdom in Hg as [_ Hbelow]. apply Hbelow.
    + cbn [default newGroup pairs]. by intros ?%elem_of_nil.
Qed.

End ValidatorMore.

(** ** What [getCandidatesFromData] leaves alone *)

Lemma foreach_ref_stateOf_map {A St B : Type} (f : A → B)
    (body : A → St → Outcome (A * St)) (xs : list A) :
  (∀ x s, f (stateOf (body x s)).1 = f x) →
  ∀ s, f <$> (stateOf (foreach_ref body xs s)).1 = f <$> xs.
Proof.
  intros Hbody. induction xs as [|x xs IH]; intros s; cbn [foreach_ref]; [done|].
  pose proof (Hbody x s) as Hx.
  destruct (body x s) as [[x1 s1]|f1 [x1 s1]]; cbn [stateOf fst] in *.
  - rewrite stateOf_zoom. cbn [fst fmap list_fmap]. rewrite Hx. f_equal. apply IH.
  - cbn [fmap list_fmap]. by rewrite Hx.
Qed.

Section FrameMore.

Context `{Collaborators}.

Lemma assignPairObservations_reads isExcludePairType readCandidates :
  ∀ readPair svs,
  pair_reads (assignPairObservationsToSVCandidates isExcludePairType readCandidates
                (readPair, svs)).1
  = pair_reads readPair.
Proof.
  unfold assignPairObservationsToSVCandidates.
  induction readCandidates as [|rc rcs IH]; intros readPair svs; cbn [foldl]; [done|].
  destruct (assignObservation isExcludePairType rc (readPair, svs)) as [rp1 svs1] eqn:Hone.
  rewrite IH.
  destruct (assignObservation_accounting isExcludePairType rc readPair svs)
    as (H1 & H2 & _).
  rewrite Hone in H1, H2. cbn [fst] in *. unfold pair_reads. by rewrite H1, H2.
Qed.

Lemma candidatesFromPair_reads chromToIndex bamIndex readPair s :
  pair_reads (stateOf (candidatesFromPair chromToIndex bamIndex readPair s)).1
  = pair_reads readPair.
Proof.
  destruct s as [rc svs0], readPair as [links [r1|] [r2|]].
  all: unfold candidatesFromPair; cbn [read1 read2].
  all: rewrite ?(bool_decide_true (is_Some (Some _))) by done.
  all: rewrite ?(bool_decide_false (is_Some None)) by (by intros [? ?]).
  all: cbn [negb]; try done.
  all: match goal with
       | |- context [assignPairObservationsToSVCandidates ?e ?l (?p, ?v)] =>
           pose proof (assignPairObservations_reads e l p v) as Hr;
           destruct (assignPairObservationsToSVCandidates e l (p, v)) as [rp1 svs1]
       end; exact Hr.
Qed.

Lemma relinkGroup_frame move g : group_frame (relinkGroup move g) = group_frame g.
Proof.
  unfold group_frame, relinkGroup. cbn [pairs isIncomplete isSkipped].
  by rewrite <- list_fmap_compose.
Qed.

(** X17.  However [getCandidatesFromData] ends, all it has changed in the
    evidence set are the associations: every group has the same pairs with
    the same reads in the same order and the same flags, and the search
    intervals and the streams are as they were. *)
Theorem getCandidatesFromData_frame (chromToIndex : chrom_map) (s : EdgeState) :
  let s' := stateOf (getCandidatesFromData chromToIndex s) in
  _bamStreams s' = _bamStreams s
  ∧ searchIntervals (svData s') = searchIntervals (svData s)
  ∧ ∀ b, group_frame (getDataGroup (svData s') b) = group_frame (getDataGroup (svData s) b).
Proof.
  cbn zeta. unfold getCandidatesFromData. rewrite stateOf_zoom.
  cbn [_bamStreams svData]. split; [done|].
  apply (stateOf_andThen
    (fun st : SVCandidateSetData * list SVCandidate =>
       searchIntervals st.1 = searchIntervals (svData s)
       ∧ ∀ b, group_frame (getDataGroup st.1 b) = group_frame (getDataGroup (svData s) b))).
  - unfold assignAll. rewrite stateOf_zoom. cbn [fst snd].
    apply (for_range_stateOf
      (fun st : SVCandidateSetData * (list SVObservation * list SVCandidate) =>
         searchIntervals st.1 = searchIntervals (svData s)
         ∧ ∀ b, group_frame (getDataGroup st.1 b)
                = group_frame (getDataGroup (svData s) b))); [done|].
    intros i [d st] [Hsearch Hframe]. cbn [fst] in *.
    unfold candidatesFromGroup. rewrite stateOf_zoom. cbn [fst snd].
    split; [done|]. intros b. rewrite getDataGroup_put. case_decide; [subst b|done].
    rewrite <- Hframe. unfold group_frame. cbn [pairs isIncomplete isSkipped].
    do 2 f_equal. apply foreach_ref_stateOf_map. intros x t.
    apply candidatesFromPair_reads.
  - intros [d svs0] [Hsearch Hframe]. cbn [fst] in *.
    destruct (consolidateOverlap_spec (length (_bamStreams s)) d svs0)
      as (st1 & st2 & d' & _ & _ & _ & _ & -> & Hlow & Hhigh & Hs).
    cbn [stateOf fst]. split; [congruence|]. intros b. rewrite <- Hframe.
    destruct (decide (b < length (_bamStreams s))) as [Hb|Hb].
    + rewrite Hlow by done. apply relinkGroup_frame.
    + unfold getDataGroup. rewrite Hhigh by lia. done.
Qed.

End FrameMore.

(** ** An edge with no read of interest *)

Section QuietEdge.

Context `{Collaborators}.

Lemma addSVNodeRead_uninteresting chromToIndex localNode remoteNode bamRead bamIndex
    isExpectRepeat g :
  ¬ interesting bamRead bamIndex →
  addSVNodeRead chromToIndex localNode remoteNode bamRead bamIndex isExpectRepeat g
  = Done g.
Proof.
  intros Hnot. unfold addSVNodeRead.
  destruct (isReadFiltered bamRead) eqn:Hf; [done|].
  destruct (negb (_ || _)) eqn:Hi; [done|].
  exfalso. apply Hnot. split; [done|]. by apply negb_false_iff in Hi.
Qed.

Lemma readLoop_uninteresting chromToIndex localNode remoteNode bamIndex isExpectRepeat
    reads g :
  Forall (fun bamRead => ¬ interesting bamRead bamIndex) reads →
  readLoop chromToIndex localNode remoteNode bamIndex isExpectRepeat reads g
  = Done (g, []).
Proof.
  induction 1 as [|bamRead reads Hr _ IH]; cbn [readLoop]; [done|].
  by rewrite addSVNodeRead_uninteresting.
Qed.

(** No region of any sample serves a read that gets through the filters
    of [addSVNodeRead]. *)
Hypothesis quiet : ∀ bamIndex t b e bamRead,
  bamRead ∈ set_new_region bamIndex t b e → ¬ interesting bamRead bamIndex.

Lemma addSVNodeData_quiet chromToIndex locus localNodeIndex remoteNodeIndex s :
  is_Some (locus !! localNodeIndex) → is_Some (locus !! remoteNodeIndex) →
  ∃ s', addSVNodeData chromToIndex locus localNodeIndex remoteNodeIndex s = Done s'
        ∧ svs s' = svs s
        ∧ length (_bamStreams s') = length (_bamStreams s)
        ∧ ∀ b, getDataGroup (svData s') b = getDataGroup (svData s) b.
Proof.
  intros [localNode Hl] [remoteNode Hr]. unfold addSVNodeData. rewrite Hl, Hr.
  destruct (setNewSearchInterval _ _) as [rep search'].
  destruct (for_range_inv
    (fun _ (st : SVCandidateSetData * list bam_streamer) =>
       length st.2 = length (_bamStreams s)
       ∧ ∀ b, getDataGroup st.1 b = getDataGroup (svData s) b)
    (scanStream chromToIndex localNode remoteNode
       (mkInterval (tid (getInterval localNode))
          (merge_range (range (getInterval localNode)) (getEvidenceRange localNode)))
       (if negb rep
        then (tid (getInterval localNode) =? tid (getInterval remoteNode))%Z
        else rep))
    (length (_bamStreams s)) 0
    (mkData (groups (svData s)) search', _bamStreams s)) as (r & -> & Hlen & Hgroups).
  - by split.
  - intros i st Hi [Hlen Hgroups]. unfold scanStream.
    rewrite readLoop_uninteresting.
    + eexists. split; [done|]. cbn [fst snd]. split; [by rewrite length_insert|].
      intros b. rewrite getDataGroup_put. case_decide; [by subst b | done].
    + apply Forall_forall. intros bamRead Hin. by eapply quiet.
  - eexists. split; [done|]. cbn [svs svData _bamStreams]. by repeat split.
Qed.

(** X18.  When no region serves a read that gets through the filters of
    [addSVNodeRead], the evaluation of an edge of the graph ends normally
    with no candidate and with no pair in any group. *)
Theorem findCandidateSV_quiet (chromToIndex : chrom_map) (edge : EdgeInfo)
    (s : EdgeState) :
  is_Some (getLocus (locusIndex edge) !! nodeIndex1 edge) →
  is_Some (getLocus (locusIndex edge) !! nodeIndex2 edge) →
  ∃ s', findCandidateSV chromToIndex edge s = Done s'
        ∧ svs s' = []
        ∧ ∀ b, pairs (getDataGroup (svData s') b) = [].
Proof.
  intros Hn1 Hn2. unfold findCandidateSV.
  destruct (_ || _).
  { eexists. split; [done|]. cbn [svs svData]. split; [done|].
    intros b. unfold getDataGroup, clear. cbn [groups]. by rewrite lookup_empty. }
  destruct (addSVNodeData_quiet chromToIndex (getLocus (locusIndex edge))
              (nodeIndex1 edge) (nodeIndex2 edge)
              (mkEdgeState clear [] (_bamStreams s)) Hn1 Hn2)
    as (s1 & -> & Hsvs1 & Hlen1 & Hgroups1).
  cbn [andThen svs svData _bamStreams] in *.
  assert (∀ b, pairs (getDataGroup (svData s1) b) = []) as Hempty1.
  { intros b. rewrite Hgroups1. unfold getDataGroup, clear. cbn [groups].
    by rewrite lookup_empty. }
  assert (∃ s2, (if negb (bool_decide (nodeIndex1 edge = nodeIndex2 edge))
                 then addSVNodeData chromToIndex (getLocus (locusIndex edge))
                        (nodeIndex2 edge) (nodeIndex1 edge) s1
                 else Done (mkEdgeState (setSkipped (svData s1)) (svs s1) (_bamStreams s1)))
                = Done s2
                ∧ svs s2 = [] ∧ ∀ b, pairs (getDataGroup (svData s2) b) = [])
    as (s2 & -> & Hsvs2 & Hempty2).
  { destruct (negb _).
    - destruct (addSVNodeData_quiet chromToIndex (getLocus (locusIndex edge))
                  (nodeIndex2 edge) (nodeIndex1 edge) s1 Hn2 Hn1)
        as (s2 & -> & Hsvs2 & _ & Hgroups2).
      exists s2. split; [done|]. split; [congruence|].
      intros b. by rewrite Hgroups2.
    - eexists. split; [done|]. cbn [svs svData]. split; [done|].
      intros b. specialize (Hempty1 b). unfold getDataGroup, setSkipped in *.
      cbn [groups]. rewrite lookup_fmap.
      by destruct (groups (svData s1) !! b). }
  cbn [andThen]. unfold getCandidatesFromData, assignAll. cbn [fst snd].
  rewrite Hsvs2.
  destruct (for_range_inv
    (fun _ (st : SVCandidateSetData * (list SVObservation * list SVCandidate)) =>
       st.2 = ([], []) ∧ ∀ b, pairs (getDataGroup st.1 b) = [])
    (candidatesFromGroup chromToIndex) (length (_bamStreams s2)) 0
    (svData s2, ([], []))) as ([d3 st3] & -> & Hst3 & Hempty3).
  - by split.
  - intros i [d st] Hi [Hst Hempty]. cbn [fst snd] in *. subst st.
    unfold candidatesFromGroup. cbn [fst snd]. rewrite Hempty. cbn [foreach_ref zoom].
    eexists. split; [done|]. cbn [fst snd]. split; [done|].
    intros b. rewrite getDataGroup_put. case_decide; [done | apply Hempty].
  - cbn [fst snd] in *. subst st3. cbn [zoom andThen fst snd].
    destruct (consolidateOverlap_spec (length (_bamStreams s2)) d3 [])
      as (st1 & st2 & d' & _ & _ & _ & Hpost & -> & Hlow & Hhigh & _).
    destruct Hpost as (Hlen & _). cbn [length] in Hlen.
    eexists. split; [done|]. cbn [svs svData fst snd]. split.
    + apply length_zero_iff_nil. rewrite Hlen. done.
    + intros b. destruct (decide (b < length (_bamStreams s2))) as [Hb|Hb].
      * rewrite Hlow by done. cbn [relinkGroup pairs]. by rewrite Hempty3.
      * unfold getDataGroup in *. rewrite Hhigh by lia. apply Hempty3.
Qed.

End QuietEdge.

(** ** The further properties on concrete inputs *)

Section FurtherInstances.

Import Scenario.

(** X2 on two candidates that lie apart. *)
Lemma consolidateOverlap_no_overlap_witness :
  consolidateOverlap (H0 := scenario) 1
    (threeLinks, [mkCandidate (breakend 100 150) (breakend 100 150) 0;
                  mkCandidate (breakend 500 600) (breakend 100 150) 1])
  = Done (threeLinks, [mkCandidate (breakend 100 150) (breakend 100 150) 0;
                       mkCandidate (breakend 500 600) (breakend 100 150) 1]).
Proof.
  apply (@consolidateOverlap_no_overlap toyOpaque scenario).
  intros [|[|i]] [|[|j]] a b Hij Ha Hb; simpl in Ha, Hb; try lia; try discriminate.
  injection Ha as <-. injection Hb as <-. vm_compute. reflexivity.
Defined.

(** X7 on a locus with one out-count side, after a locus that is passed
    over. *)
Lemma scanLoci_side_order_witness :
  scanLoci (H0 := selfEdgeRun) nodeA nodeA goodRead false
    ([[sideFar]] ++ [sideOnA; sideIn1] :: []) newGroup
  = scanLoci (H0 := selfEdgeRun) nodeA nodeA goodRead false
      ([[sideFar]] ++ [sideIn1; sideOnA] :: []) newGroup.
Proof.
  exact (@scanLoci_side_order toyOpaque selfEdgeRun nodeA nodeA goodRead false
           [[sideFar]] [] sideOnA sideIn1 newGroup eq_refl).
Defined.

(** X8 on [goodRead], whose only locus is one-sided. *)
Lemma addSVNodeRead_one_sided_remote_witness :
  addSVNodeRead (H0 := selfEdgeRun) tt nodeA nodeA goodRead 0 false newGroup
  = addSVNodeRead (H0 := selfEdgeRun) tt nodeA sideFar goodRead 0 false newGroup.
Proof.
  apply (@addSVNodeRead_one_sided_remote toyOpaque selfEdgeRun).
  constructor; [reflexivity | constructor].
Defined.

(** X9 on a read whose first locus is passed over and whose second locus
    has no side. *)
Lemma addSVNodeRead_locus_size_witness :
  addSVNodeRead (H0 := selfEdgeRun) tt nodeA nodeA (mkRead 4 false [[sideFar]; []] [])
    0 false newGroup
  = Thrown AssertionFailure newGroup.
Proof.
  assert (group_size (newGroup (H := toyOpaque)) < maxDataSize) as Hsize
    by (vm_compute; lia).
  apply (@addSVNodeRead_locus_size toyOpaque selfEdgeRun tt nodeA nodeA
           (mkRead 4 false [[sideFar]; []] []) 0 false newGroup [[sideFar]] [] []
           (conj eq_refl eq_refl) Hsize eq_refl).
  - constructor; [|constructor]. split; [simpl; lia|]. right.
    exists 0, sideFar. repeat split; reflexivity.
  - left. reflexivity.
Defined.

(** X10 on the self-edge run: the stream of the one sample is read to its
    end, whatever it held before. *)
Lemma addSVNodeData_normal_end_witness :
  ∃ s', addSVNodeData (H0 := selfEdgeRun) tt locusA 0 0 staleState = Done s'
        ∧ _bamStreams s' = [[]]
        ∧ svs s' = svs staleState.
Proof.
  pose (s' := stateOf (addSVNodeData (H0 := selfEdgeRun) tt locusA 0 0 staleState)).
  assert (addSVNodeData (H0 := selfEdgeRun) tt locusA 0 0 staleState = Done s') as Hrun
    by (vm_compute; reflexivity).
  exists s'. split; [exact Hrun|].
  destruct (@addSVNodeData_normal_end toyOpaque selfEdgeRun tt locusA 0 0 staleState s' Hrun)
    as (_ & _ & Hstreams & _ & Hsvs).
  split; [exact Hstreams | exact Hsvs].
Defined.


(** X12 on the self-edge run, from a stale state and from an empty one. *)
Lemma findCandidateSV_fresh_witness :
  same_evidence
    (findCandidateSV (H0 := selfEdgeRun) tt selfEdge staleState)
    (findCandidateSV (H0 := selfEdgeRun) tt selfEdge
       (mkEdgeState (clear (H0 := selfEdgeRun)) [] [[]])).
Proof.
  exact (@findCandidateSV_fresh toyOpaque selfEdgeRun tt selfEdge staleState
           (mkEdgeState (clear (H0 := selfEdgeRun)) [] [[]]) eq_refl).
Defined.

(** X13 on the self-edge run. *)
Lemma findCandidateSV_normal_end_witness :
  ∃ s', findCandidateSV (H0 := selfEdgeRun) tt selfEdge staleState = Done s'
        ∧ (∀ b, is_Some (groups (svData s') !! b) ↔ b < 1)
        ∧ _bamStreams s' = [[]].
Proof.
  pose (s' := stateOf (findCandidateSV (H0 := selfEdgeRun) tt selfEdge staleState)).
  assert (findCandidateSV (H0 := selfEdgeRun) tt selfEdge staleState = Done s') as Hrun
    by (vm_compute; reflexivity).
  assert (getMinMergeEdgeCount (Collaborators := selfEdgeRun)
          ≤ getEdgeCount (Collaborators := selfEdgeRun) locusA 0 0) as Hgate
    by (vm_compute; lia).
  exists s'. split; [exact Hrun|].
  exact (@findCandidateSV_normal_end toyOpaque selfEdgeRun tt selfEdge staleState s'
           Hgate Hgate Hrun).
Defined.

(** X15 on the stale state: one candidate, and an association to
    candidate 9. *)
Lemma checkResult_bad_index_witness :
  ∃ c, checkResult (H0 := scenario) (_bamStreams staleState) (svData staleState)
         (svs staleState)
       = Thrown LogicException c.
Proof.
  apply (@checkResult_bad_index toyOpaque scenario (_bamStreams staleState)
           (svData staleState) (svs staleState) 0
           ((@mkPair toyOpaque) [mkAssociation 9 0] (Some faultyRead) None)
           (mkAssociation 9 0)).
  - discriminate.
  - simpl. lia.
  - vm_compute. constructor.
  - simpl. constructor.
  - simpl. lia.
Defined.

(** X18 on a run whose alignment file holds a filtered read only. *)
Lemma findCandidateSV_quiet_witness :
  ∃ s', findCandidateSV (H0 := toyCollaborators 0 locusA 5 [mkRead 5 true [] []])
          tt selfEdge staleState
        = Done s'
        ∧ svs s' = []
        ∧ ∀ b, pairs (getDataGroup (svData s') b) = [].
Proof.
  apply (@findCandidateSV_quiet toyOpaque
           (toyCollaborators 0 locusA 5 [mkRead 5 true [] []])).
  - intros bamIndex t b e bamRead Hin [Hf _]. cbn in Hin, Hf. unfold toy_region in Hin.
    destruct (bool_decide (bamIndex = 0)).
    + apply list_elem_of_singleton in Hin. subst bamRead. discriminate Hf.
    + by apply elem_of_nil in Hin.
  - by eexists.
  - by eexists.
Defined.

(** X16 on the self-edge run: the candidate of [goodRead] stores no count,
    and the pair of [goodRead] lacks its second read. *)
Lemma findCandidateSV_then_checkResult_witness :
  ∃ s', findCandidateSV (H0 := selfEdgeRun) tt selfEdge staleState = Done s'
        ∧ ((∃ c, checkResult (H0 := selfEdgeRun) (_bamStreams s') (svData s') (svs s')
                 = Done c)
           ↔ counts_agree (svs s')
               (data_reads (H0 := selfEdgeRun) (length (_bamStreams s')) (svData s'))
               (data_pairs (H0 := selfEdgeRun) (length (_bamStreams s')) (svData s'))).
Proof.
  pose (s' := stateOf (findCandidateSV (H0 := selfEdgeRun) tt selfEdge staleState)).
  assert (findCandidateSV (H0 := selfEdgeRun) tt selfEdge staleState = Done s') as Hrun
    by (vm_compute; reflexivity).
  exists s'. split; [exact Hrun|].
  exact (@findCandidateSV_then_checkResult toyOpaque selfEdgeRun tt selfEdge staleState s'
           Hrun).
Defined.

End FurtherInstances.
